(** * The resilient invocation pipeline of graphrag's Claude back end

    A shallow embedding of
    - graphrag/llm/openai/_json.py (the JSON recovery parser),
    - graphrag/llm/claude/claude_chat_llm.py (message normalisation and
      the structured-output enforcer),
    - graphrag/query/llm/claude/{chat_claude,claude,typing}.py (the
      retry wrapper and the base invoker),
    together with the parts of Python's [str], [json] and [re] and of
    tenacity's [Retrying] that they call. *)

From Stdlib Require Import NArith ZArith List String Ascii Bool Lia DecimalString.
From stdpp Require Import base option list gmap strings.
From Equations Require Import Equations.
Set Warnings "-register-all".
Import ListNotations.
Local Open Scope N_scope.

Module Py.

(** Python [str]: a sequence of Unicode code points. *)
Abbreviation text := (list N).

Fixpoint txt (s : string) : text :=
  match s with
  | EmptyString => []
  | String a r => N_of_ascii a :: txt r
  end.

Definition DQUOTE : N := 34.
Definition BSLASH : N := 92.
Definition LF : N := 10.
Definition CR : N := 13.

(** [jq] writes a Python literal that contains double quotes: every
    apostrophe of the argument stands for the character U+0022. *)
Definition jq (s : string) : text :=
  map (fun c => if c =? 39 then DQUOTE else c) (txt s).

Definition ch (a : ascii) : N := N_of_ascii a.
Arguments ch a%_char.

Definition text_eqb (a b : text) : bool := bool_decide (a = b).

(** [str.startswith] and [str.endswith]. *)
Fixpoint startswith (s prefix : text) {struct prefix} : bool :=
  match prefix, s with
  | [], _ => true
  | p :: ps, c :: cs => (c =? p) && startswith cs ps
  | _ :: _, [] => false
  end.

Definition endswith (s suffix : text) : bool :=
  startswith (rev s) (rev suffix).

(** [str.replace(old, new)] for a non-empty [old]: occurrences are
    found left to right and do not overlap.  [skip] counts the
    characters of the current occurrence still to be dropped. *)
Fixpoint replace_from (old new : text) (skip : nat) (s : text) : text :=
  match s with
  | [] => []
  | c :: r =>
      match skip with
      | S k => replace_from old new k r
      | O =>
          if startswith s old
          then new ++ replace_from old new (length old - 1) r
          else c :: replace_from old new 0 r
      end
  end.

Definition replace (s old new : text) : text := replace_from old new 0 s.

(** [str.isspace] on one code point (Py_UNICODE_ISSPACE). *)
Definition isspace (c : N) : bool :=
  ((9 <=? c) && (c <=? 13)) || ((28 <=? c) && (c <=? 32))
  || (c =? 133) || (c =? 160) || (c =? 5760)
  || ((8192 <=? c) && (c <=? 8202))
  || (c =? 8232) || (c =? 8233) || (c =? 8239) || (c =? 8287)
  || (c =? 12288).

Fixpoint lstrip (s : text) : text :=
  match s with
  | c :: r => if isspace c then lstrip r else s
  | [] => []
  end.

Definition rstrip (s : text) : text := rev (lstrip (rev s)).
Definition strip (s : text) : text := rstrip (lstrip s).


(** [str(n)] for an [int]. *)
Definition str_of_N (n : N) : text := txt (NilZero.string_of_uint (N.to_uint n)).
Definition str_of_Z (z : Z) : text :=
  match z with
  | Zneg p => ch "-" :: str_of_N (Npos p)
  | _ => str_of_N (Z.to_N z)
  end.

(** Exception classes met in the sources, with the class each one
    derives from. *)
Inductive exn_class :=
  | BaseException | Exception
  | ValueError | JSONDecodeError | TypeError | RuntimeError
  | NameError | AttributeError | LookupError | IndexError
  | RetryError
  | AnthropicError | APIError | APIStatusError | RateLimitError
  | APIConnectionError | APITimeoutError.

Definition base_class (c : exn_class) : option exn_class :=
  match c with
  | BaseException => None
  | Exception => Some BaseException
  | ValueError | TypeError | RuntimeError | NameError | AttributeError
  | LookupError | RetryError | AnthropicError => Some Exception
  | IndexError => Some LookupError
  | JSONDecodeError => Some ValueError
  | APIError => Some AnthropicError
  | APIStatusError | APIConnectionError => Some APIError
  | RateLimitError => Some APIStatusError
  | APITimeoutError => Some APIConnectionError
  end.

Definition exn_class_eqb (a b : exn_class) : bool :=
  match a, b with
  | BaseException, BaseException | Exception, Exception
  | ValueError, ValueError | JSONDecodeError, JSONDecodeError
  | TypeError, TypeError | RuntimeError, RuntimeError
  | NameError, NameError | AttributeError, AttributeError
  | LookupError, LookupError | IndexError, IndexError
  | RetryError, RetryError | AnthropicError, AnthropicError
  | APIError, APIError | APIStatusError, APIStatusError
  | RateLimitError, RateLimitError
  | APIConnectionError, APIConnectionError
  | APITimeoutError, APITimeoutError => true
  | _, _ => false
  end.

(** [issubclass(c, t)]; no class of the table is deeper than six. *)
Fixpoint issubclass_upto (depth : nat) (c t : exn_class) : bool :=
  exn_class_eqb c t ||
  match depth with
  | O => false
  | S d => match base_class c with
           | Some b => issubclass_upto d b t
           | None => false
           end
  end.

Definition issubclass : exn_class -> exn_class -> bool := issubclass_upto 6.

(** The values that travel in keyword arguments and message dicts. *)
Inductive pyval :=
  | VNone
  | VBool (b : bool)
  | VStr (s : text)
  | VDict (entries : list (string * pyval)).

(** [old in s]: some suffix of [s] starts with [old]. *)
Fixpoint contains (s old : text) : bool :=
  startswith s old ||
  match s with
  | [] => false
  | _ :: r => contains r old
  end.

(** Truth value of an object, as [if x:] tests it. *)
Definition truthy (v : pyval) : bool :=
  match v with
  | VNone => false
  | VBool b => b
  | VStr s => negb (text_eqb s [])
  | VDict d => match d with [] => false | _ :: _ => true end
  end.

(** [x or default] on an optional [str]. *)
Definition str_or (x : option text) (default : text) : text :=
  match x with
  | Some s => if text_eqb s [] then default else s
  | None => default
  end.

Record exn := Exn { exn_cls : exn_class; exn_msg : text }.

(** [isinstance(e, (t1, ..., tn))]. *)
Definition isinstance (e : exn) (types : list exn_class) : bool :=
  existsb (issubclass (exn_cls e)) types.

(** Outcome of a call: a returned value or a raised exception. *)
Inductive res (A : Type) : Type :=
  | Ret (a : A)
  | Raise (e : exn).
Arguments Ret {A} a.
Arguments Raise {A} e.

Definition bind {A B} (m : res A) (k : A -> res B) : res B :=
  match m with
  | Ret a => k a
  | Raise e => Raise e
  end.

(** Reading a name that holds a [str]: [scope] lists the names bound
    in the enclosing function and module. *)
Fixpoint load_name (scope : list (string * text)) (name : string) : res text :=
  match scope with
  | [] => Raise (Exn NameError
                   (txt "name '" ++ txt name ++ txt "' is not defined"))
  | (n, v) :: rest => if String.eqb n name then Ret v else load_name rest name
  end.

(** [try: body  except (types): handler]. *)
Definition try_except {A} (body : res A) (types : list exn_class)
    (handler : exn -> res A) : res A :=
  match body with
  | Ret a => Ret a
  | Raise e => if isinstance e types then handler e else Raise e
  end.

End Py.

(** * The [json] module of the Python standard library

    [json.loads] follows the scanner and decoder of CPython
    (Modules/_json.c, Lib/json/decoder.py) with their default settings
    (strict strings, [NaN] and [Infinity] accepted, no hooks);
    [json.dumps] follows Lib/json/encoder.py with its default settings
    (ensure_ascii, separators [", "] and [": "]).  The interpreter's
    resource limits (recursion depth, integer digits) are not part of
    the model.  The scanner recurses on fuel; [loads] gives it two
    units for each character, which is enough ([loads_fuelled]). *)
Module Json.
Import Py.

(** A decoded document.  A float keeps the literal it was read from. *)
Inductive json :=
  | JNull
  | JBool (b : bool)
  | JInt (z : Z)
  | JFloat (literal : text)
  | JNaN
  | JInf (negative : bool)
  | JStr (s : text)
  | JArr (items : list json)
  | JObj (members : list (text * json)).

(** Outcome of scanning a value at the head of a text. *)
Inductive scan (A : Type) : Type :=
  | Found (a : A) (rest : text)
  | Fail
  | OutOfFuel.
Arguments Found {A} a rest.
Arguments Fail {A}.
Arguments OutOfFuel {A}.

Definition is_ws (c : N) : bool :=
  (c =? 32) || (c =? 9) || (c =? 10) || (c =? 13).

Fixpoint skip_ws (s : text) : text :=
  match s with
  | c :: r => if is_ws c then skip_ws r else s
  | [] => []
  end.

Definition is_digit (c : N) : bool := (48 <=? c) && (c <=? 57).

Definition hex_value (c : N) : option N :=
  if is_digit c then Some (c - 48)
  else if (97 <=? c) && (c <=? 102) then Some (c - 87)
  else if (65 <=? c) && (c <=? 70) then Some (c - 55)
  else None.

Definition hex4 (a b c d : N) : option N :=
  match hex_value a, hex_value b, hex_value c, hex_value d with
  | Some x, Some y, Some z, Some w => Some (((x * 16 + y) * 16 + z) * 16 + w)
  | _, _, _, _ => None
  end.

Definition is_high_surrogate (c : N) : bool := (55296 <=? c) && (c <=? 56319).
Definition is_low_surrogate (c : N) : bool := (56320 <=? c) && (c <=? 57343).
Definition join_surrogates (hi lo : N) : N :=
  65536 + ((hi - 55296) * 1024 + (lo - 56320)).

(** The one-character escapes of a string. *)
Definition escape_char (c : N) : option N :=
  if c =? DQUOTE then Some DQUOTE
  else if c =? BSLASH then Some BSLASH
  else if c =? ch "/" then Some (ch "/")
  else if c =? ch "b" then Some 8
  else if c =? ch "f" then Some 12
  else if c =? ch "n" then Some 10
  else if c =? ch "r" then Some 13
  else if c =? ch "t" then Some 9
  else None.

(** [scanstring], entered just after the opening quote; [acc] holds
    the decoded characters so far, last one first. *)
Fixpoint scanstring (s : text) (acc : text) : scan text :=
  match s with
  | [] => Fail
  | c :: r =>
      if c =? DQUOTE then Found (rev acc) r
      else if c =? BSLASH then
        match r with
        | [] => Fail
        | e :: r1 =>
            if e =? ch "u" then
              match r1 with
              | h1 :: h2 :: h3 :: h4 :: r2 =>
                  match hex4 h1 h2 h3 h4 with
                  | None => Fail
                  | Some u =>
                      match r2 with
                      | b :: u' :: k1 :: k2 :: k3 :: k4 :: r3 =>
                          if is_high_surrogate u && (b =? BSLASH) && (u' =? ch "u")
                          then
                            match r3 with
                            | [] => scanstring r2 (u :: acc)
                            | _ :: _ =>
                              match hex4 k1 k2 k3 k4 with
                              | None => Fail
                              | Some u2 =>
                                  if is_low_surrogate u2
                                  then scanstring r3 (join_surrogates u u2 :: acc)
                                  else scanstring r2 (u :: acc)
                              end
                            end
                          else scanstring r2 (u :: acc)
                      | _ => scanstring r2 (u :: acc)
                      end
                  end
              | _ => Fail
              end
            else
              match escape_char e with
              | Some x => scanstring r1 (x :: acc)
              | None => Fail
              end
        end
      else if c <? 32 then Fail
      else scanstring r (c :: acc)
  end.

(** Longest run of decimal digits at the head of a text. *)
Fixpoint span_digits (s : text) : text * text :=
  match s with
  | c :: r =>
      if is_digit c
      then let '(d, rest) := span_digits r in (c :: d, rest)
      else ([], s)
  | [] => ([], [])
  end.

Definition N_of_digits (d : text) : N :=
  fold_left (fun acc c => acc * 10 + (c - 48)) d 0.

(** The integer part of a number: [0], or a non-zero digit followed by
    digits. *)
Definition match_int_part (s : text) : option (text * text) :=
  match s with
  | c :: r =>
      if c =? ch "0" then Some ([c], r)
      else if is_digit c
      then let '(d, rest) := span_digits r in Some (c :: d, rest)
      else None
  | [] => None
  end.

(** The fraction: a dot followed by at least one digit. *)
Definition match_frac (s : text) : option (text * text) :=
  match s with
  | c :: r =>
      if c =? ch "." then
        match span_digits r with
        | ([], _) => None
        | (d, rest) => Some (c :: d, rest)
        end
      else None
  | [] => None
  end.

(** The exponent: [e] or [E], an optional sign, at least one digit. *)
Definition match_exp (s : text) : option (text * text) :=
  match s with
  | c :: r =>
      if (c =? ch "e") || (c =? ch "E") then
        match r with
        | sg :: r1 =>
            if (sg =? ch "-") || (sg =? ch "+") then
              match span_digits r1 with
              | ([], _) => None
              | (d, rest) => Some (c :: sg :: d, rest)
              end
            else
              match span_digits r with
              | ([], _) => None
              | (d, rest) => Some (c :: d, rest)
              end
        | [] => None
        end
      else None
  | [] => None
  end.

(** [_match_number] after the optional sign: an integer literal
    becomes an [int], a literal with a fraction or an exponent a
    [float]. *)
Definition number_after_sign (neg : bool) (s1 : text) : scan json :=
  match match_int_part s1 with
  | None => Fail
  | Some (ip, s2) =>
      let '(fp, s3) := match match_frac s2 with
                       | Some (f, r) => (f, r)
                       | None => ([], s2)
                       end in
      let '(ep, s4) := match match_exp s3 with
                       | Some (e, r) => (e, r)
                       | None => ([], s3)
                       end in
      match fp, ep with
      | [], [] =>
          let n := Z.of_N (N_of_digits ip) in
          Found (JInt (if neg then (- n)%Z else n)) s4
      | _, _ =>
          Found (JFloat ((if neg then [ch "-"] else []) ++ ip ++ fp ++ ep)) s4
      end
  end.

Definition match_number (s : text) : scan json :=
  match s with
  | c :: r =>
      if c =? ch "-" then number_after_sign true r
      else number_after_sign false s
  | [] => Fail
  end.

(** Storing a member in the [dict] under construction: a repeated key
    keeps its place and takes the new value. *)
Fixpoint dict_set (d : list (text * json)) (k : text) (v : json)
  : list (text * json) :=
  match d with
  | [] => [(k, v)]
  | (k', v') :: r =>
      if text_eqb k' k then (k, v) :: r else (k', v') :: dict_set r k v
  end.

(** [scan_once] with the object and array loops.  Every recursive call
    is made on a strictly shorter text; [fuel] bounds their number. *)
Fixpoint scan_once (fuel : nat) (s : text) : scan json :=
  match fuel with
  | O => OutOfFuel
  | S f =>
      match s with
      | [] => Fail
      | c :: r =>
          if c =? DQUOTE then
            match scanstring r [] with
            | Found str rest => Found (JStr str) rest
            | _ => Fail
            end
          else if c =? ch "{" then
            match skip_ws r with
            | c1 :: r1 =>
                if c1 =? ch "}" then Found (JObj []) r1
                else parse_members f (c1 :: r1) []
            | [] => Fail
            end
          else if c =? ch "[" then
            match skip_ws r with
            | c1 :: r1 =>
                if c1 =? ch "]" then Found (JArr []) r1
                else parse_items f (c1 :: r1) []
            | [] => Fail
            end
          else if startswith s (txt "null") then Found JNull (drop 4 s)
          else if startswith s (txt "true") then Found (JBool true) (drop 4 s)
          else if startswith s (txt "false") then Found (JBool false) (drop 5 s)
          else if startswith s (txt "NaN") then Found JNaN (drop 3 s)
          else if startswith s (txt "Infinity") then Found (JInf false) (drop 8 s)
          else if startswith s (txt "-Infinity") then Found (JInf true) (drop 9 s)
          else match_number s
      end
  end
with parse_members (fuel : nat) (s : text) (acc : list (text * json))
  : scan json :=
  match fuel with
  | O => OutOfFuel
  | S f =>
      match s with
      | c :: r =>
          if c =? DQUOTE then
            match scanstring r [] with
            | Found key r1 =>
                match skip_ws r1 with
                | c2 :: r2 =>
                    if c2 =? ch ":" then
                      match scan_once f (skip_ws r2) with
                      | Found v r3 =>
                          let acc' := dict_set acc key v in
                          match skip_ws r3 with
                          | c4 :: r4 =>
                              if c4 =? ch "}" then Found (JObj acc') r4
                              else if c4 =? ch ","
                              then parse_members f (skip_ws r4) acc'
                              else Fail
                          | [] => Fail
                          end
                      | Fail => Fail
                      | OutOfFuel => OutOfFuel
                      end
                    else Fail
                | [] => Fail
                end
            | _ => Fail
            end
          else Fail
      | [] => Fail
      end
  end
with parse_items (fuel : nat) (s : text) (acc : list json) : scan json :=
  match fuel with
  | O => OutOfFuel
  | S f =>
      match scan_once f s with
      | Found v r1 =>
          let acc' := acc ++ [v] in
          match skip_ws r1 with
          | c2 :: r2 =>
              if c2 =? ch "]" then Found (JArr acc') r2
              else if c2 =? ch ","
              then parse_items f (skip_ws r2) acc'
              else Fail
          | [] => Fail
          end
      | Fail => Fail
      | OutOfFuel => OutOfFuel
      end
  end.

Definition JSONDecodeError_exn : exn := Exn JSONDecodeError [].

(** [json.loads(s)]: one value, surrounded by optional white space. *)
Definition loads (s : text) : res json :=
  match scan_once (2 * length s + 2) (skip_ws s) with
  | Found v rest =>
      match skip_ws rest with
      | [] => Ret v
      | _ :: _ => Raise JSONDecodeError_exn
      end
  | _ => Raise JSONDecodeError_exn
  end.


(** ** Encoding *)

Definition hex_digit (n : N) : N := if n <? 10 then 48 + n else 87 + n.

(** [\uXXXX] with lower-case digits. *)
Definition u_escape (c : N) : text :=
  [BSLASH; ch "u";
   hex_digit (c / 4096 mod 16); hex_digit (c / 256 mod 16);
   hex_digit (c / 16 mod 16); hex_digit (c mod 16)].

(** One character of a string under [ensure_ascii]. *)
Definition encode_char (c : N) : text :=
  if c =? BSLASH then [BSLASH; BSLASH]
  else if c =? DQUOTE then [BSLASH; DQUOTE]
  else if (32 <=? c) && (c <=? 126) then [c]
  else if c =? 8 then [BSLASH; ch "b"]
  else if c =? 12 then [BSLASH; ch "f"]
  else if c =? 10 then [BSLASH; ch "n"]
  else if c =? 13 then [BSLASH; ch "r"]
  else if c =? 9 then [BSLASH; ch "t"]
  else if c <? 65536 then u_escape c
  else
    let v := c - 65536 in
    u_escape (55296 + (v / 1024) mod 1024) ++ u_escape (56320 + v mod 1024).

Definition encode_basestring_ascii (s : text) : text :=
  DQUOTE :: flat_map encode_char s ++ [DQUOTE].

(** [sep.join(parts)]. *)
Fixpoint join (sep : text) (parts : list text) : text :=
  match parts with
  | [] => []
  | [p] => p
  | p :: ps => p ++ sep ++ join sep ps
  end.

(** A stand-in for [float_repr] in calls that meet no float. *)
Definition literal_repr (literal : text) : text := literal.

Section Dumps.
(** [float_repr lit] is [repr(float(lit))], the shortest decimal text
    that reads back as the binary64 value of the literal. *)
Variable float_repr : text -> text.

Fixpoint dumps (j : json) : text :=
  match j with
  | JNull => txt "null"
  | JBool true => txt "true"
  | JBool false => txt "false"
  | JInt z => str_of_Z z
  | JFloat lit => float_repr lit
  | JNaN => txt "NaN"
  | JInf false => txt "Infinity"
  | JInf true => txt "-Infinity"
  | JStr s => encode_basestring_ascii s
  | JArr items =>
      ch "[" :: join (txt ", ") (map dumps items) ++ [ch "]"]
  | JObj members =>
      ch "{" ::
        join (txt ", ")
          (map (fun kv => encode_basestring_ascii (fst kv) ++ txt ": "
                          ++ dumps (snd kv)) members)
        ++ [ch "}"]
  end.
End Dumps.

(** ** Vocabulary of the statements about the decoder *)

Definition is_line_break (c : N) : bool := (c =? LF) || (c =? CR).

(** A text with its newline and carriage-return characters removed. *)
Definition unbreak (s : text) : text :=
  List.filter (fun c => negb (is_line_break c)) s.

Definition no_backslash (s : text) : Prop := Forall (fun c => c <> BSLASH) s.

Definition all_ws (w : text) : Prop := Forall (fun c => is_ws c = true) w.
Definition all_digits (d : text) : Prop :=
  Forall (fun c => is_digit c = true) d.

(** The characters a value can begin with, and end with. *)
Definition opening (c : N) : bool :=
  (c =? DQUOTE) || (c =? ch "{") || (c =? ch "[") || (c =? ch "n")
  || (c =? ch "t") || (c =? ch "f") || (c =? ch "N") || (c =? ch "I")
  || (c =? ch "-") || is_digit c.
Definition closing (c : N) : bool :=
  (c =? DQUOTE) || (c =? ch "}") || (c =? ch "]") || (c =? ch "l")
  || (c =? ch "e") || (c =? ch "N") || (c =? ch "y") || is_digit c.

Definition head_ok (b : text) : Prop :=
  exists c t, b = c :: t /\ opening c = true.
Definition last_ok (b : text) : Prop :=
  exists i d, b = i ++ [d] /\ closing d = true.

(** [nd x]: [x] does not begin with a digit.  [stops r]: [r] does not
    begin with a character that could continue a number. *)
Definition nd (x : text) : bool :=
  match x with
  | [] => true
  | c :: _ => negb (is_digit c)
  end.
Definition stops (r : text) : bool :=
  match r with
  | [] => true
  | c :: _ =>
      negb (is_digit c || (c =? ch ".") || (c =? ch "e") || (c =? ch "E"))
  end.

Definition is_e (c : N) : bool := (c =? ch "e") || (c =? ch "E").
Definition numeric (c : N) : bool :=
  is_digit c || (c =? ch "-") || (c =? ch "+") || (c =? ch ".") || is_e c.

(** What the scanner read is a segment [body] of the text; it reads
    the same value from [body] without its line breaks, whatever
    follows, given fuel for the new text. *)
Definition scan_local (f : nat) : Prop :=
  forall s v r,
    no_backslash s -> scan_once f s = Found v r ->
    exists body,
      s = body ++ r
      /\ head_ok (unbreak body) /\ last_ok (unbreak body)
      /\ forall r' g,
           stops r' = true ->
           (2 * length (unbreak body ++ r') + 1 <= g)%nat ->
           scan_once g (unbreak body ++ r') = Found v r'.

Definition members_local (f : nat) : Prop :=
  forall s acc v r,
    no_backslash s -> parse_members f s acc = Found v r ->
    exists body,
      s = body ++ r
      /\ head_ok (unbreak body) /\ last_ok (unbreak body)
      /\ forall r' g,
           (2 * length (unbreak body ++ r') + 2 <= g)%nat ->
           parse_members g (unbreak body ++ r') acc = Found v r'.

Definition items_local (f : nat) : Prop :=
  forall s acc v r,
    no_backslash s -> parse_items f s acc = Found v r ->
    exists body,
      s = body ++ r
      /\ head_ok (unbreak body) /\ last_ok (unbreak body)
      /\ forall r' g,
           (2 * length (unbreak body ++ r') + 2 <= g)%nat ->
           parse_items g (unbreak body ++ r') acc = Found v r'.

(** Every scan of the decoder consumes a character, and two units of
    fuel for each character of the text are enough. *)
Definition shrinks (f : nat) : Prop :=
  (forall s v r, scan_once f s = Found v r -> (length r < length s)%nat)
  /\ (forall s acc v r,
        parse_members f s acc = Found v r -> (length r < length s)%nat)
  /\ (forall s acc v r,
        parse_items f s acc = Found v r -> (length r < length s)%nat).

Definition fuelled (f : nat) : Prop :=
  (forall s, (2 * length s + 1 <= f)%nat -> scan_once f s <> OutOfFuel)
  /\ (forall s acc,
        (2 * length s + 2 <= f)%nat -> parse_members f s acc <> OutOfFuel)
  /\ (forall s acc,
        (2 * length s + 2 <= f)%nat -> parse_items f s acc <> OutOfFuel).

End Json.


(** * The [re] module: a backtracking matcher

    The fragment of Python's regular expressions that the sources use:
    literals, character sets, sequence, ordered alternation, greedy and
    lazy repetition, fixed look-behind and look-ahead.  Matching is by
    backtracking in Python's order, so the first match found is the one
    Python reports. *)
Module Re.
Import Py.

Inductive regex :=
  | RChr (c : N)                      (* a literal character *)
  | RSet (p : N -> bool)              (* a character class *)
  | RSeq (r1 r2 : regex)
  | RAlt (r1 r2 : regex)              (* r1|r2, r1 tried first *)
  | RStar (r : regex)                 (* r*, greedy *)
  | RLazyStar (r : regex)             (* r*?, lazy *)
  | RBehind (lit : text)              (* (?<=lit) *)
  | RAhead (r : regex).               (* (?=r) *)

(** A position in the subject: the text before it, last character
    first, and the text from it on. *)
Record pos := Pos { before : text; after : text }.

Definition advance (p : pos) : option (N * pos) :=
  match after p with
  | c :: r => Some (c, Pos (c :: before p) r)
  | [] => None
  end.

(** [bt r p k]: match [r] at [p], then the continuation [k]; the
    alternatives of [r] are tried in order until [k] succeeds.  A
    repetition runs at most once per remaining character, which is all
    a body that consumes a character can use. *)
Fixpoint bt (r : regex) (p : pos) (k : pos -> option pos) : option pos :=
  match r with
  | RChr c =>
      match advance p with
      | Some (c', p') => if c' =? c then k p' else None
      | None => None
      end
  | RSet f =>
      match advance p with
      | Some (c', p') => if f c' then k p' else None
      | None => None
      end
  | RSeq r1 r2 => bt r1 p (fun p1 => bt r2 p1 k)
  | RAlt r1 r2 =>
      match bt r1 p k with
      | Some q => Some q
      | None => bt r2 p k
      end
  | RStar r1 =>
      (fix star (n : nat) (p : pos) {struct n} : option pos :=
         match n with
         | O => k p
         | S n' =>
             match bt r1 p (fun p1 =>
                     if (length (after p1) <? length (after p))%nat
                     then star n' p1 else None) with
             | Some q => Some q
             | None => k p
             end
         end) (length (after p)) p
  | RLazyStar r1 =>
      (fix lazy (n : nat) (p : pos) {struct n} : option pos :=
         match k p with
         | Some q => Some q
         | None =>
             match n with
             | O => None
             | S n' =>
                 bt r1 p (fun p1 =>
                   if (length (after p1) <? length (after p))%nat
                   then lazy n' p1 else None)
             end
         end) (length (after p)) p
  | RBehind lit => if startswith (before p) (rev lit) then k p else None
  | RAhead r1 =>
      match bt r1 p Some with
      | Some _ => k p
      | None => None
      end
  end.

(** A match anchored at [p]: the position where it ends. *)
Definition match_at (r : regex) (p : pos) : option pos := bt r p Some.

(** The text of a match that starts at [p] and ends at [q]. *)
Definition matched (p q : pos) : text :=
  take (length (after p) - length (after q)) (after p).

(** [re.search]: the match at the leftmost position that has one;
    [group(0)] is returned. *)
Fixpoint search_from (r : regex) (pre suf : text) : option text :=
  match match_at r (Pos pre suf) with
  | Some q => Some (matched (Pos pre suf) q)
  | None =>
      match suf with
      | c :: rest => search_from r (c :: pre) rest
      | [] => None
      end
  end.

Definition search (r : regex) (s : text) : option text := search_from r [] s.

(** [re.sub(r, repl, s)] for a pattern that matches no empty text:
    matches are found left to right and do not overlap; [skip] counts
    the characters of the current match still to be passed over. *)
Fixpoint sub_from (r : regex) (repl : text -> text) (skip : nat)
    (pre suf : text) : text :=
  match suf with
  | [] => []
  | c :: rest =>
      match skip with
      | S n => sub_from r repl n (c :: pre) rest
      | O =>
          match match_at r (Pos pre suf) with
          | Some q =>
              let m := matched (Pos pre suf) q in
              match length m with
              | O => c :: sub_from r repl 0 (c :: pre) rest
              | S n => repl m ++ sub_from r repl n (c :: pre) rest
              end
          | None => c :: sub_from r repl 0 (c :: pre) rest
          end
      end
  end.

Definition sub (r : regex) (repl : text -> text) (s : text) : text :=
  sub_from r repl 0 [] s.

End Re.

(** * graphrag/llm/openai/_json.py *)
Module JsonRecovery.
Import Py Json Re.

Definition not_brace (c : N) : bool := negb ((c =? ch "{") || (c =? ch "}")).

(** [\{(?:[^{}]|\{(?:[^{}]|\{[^{}]*\})*\})*\}] *)
Definition json_pattern : regex :=
  RSeq (RChr (ch "{"))
    (RSeq
       (RStar
          (RAlt (RSet not_brace)
             (RSeq (RChr (ch "{"))
                (RSeq
                   (RStar
                      (RAlt (RSet not_brace)
                         (RSeq (RChr (ch "{"))
                            (RSeq (RStar (RSet not_brace))
                               (RChr (ch "}"))))))
                   (RChr (ch "}"))))))
       (RChr (ch "}"))).

(** [}\s*{] *)
Definition missing_comma_pattern : regex :=
  RSeq (RChr (ch "}")) (RSeq (RStar (RSet isspace)) (RChr (ch "{"))).

Definition not_newline (c : N) : bool := negb (c =? LF).
Definition comma_or_brace (c : N) : bool := (c =? ch ",") || (c =? ch "}").

(** [(?<=: ")(.+?)(?="[,}])]; group 1 is the whole match. *)
Definition unescaped_quote_pattern : regex :=
  RSeq (RBehind [ch ":"; ch " "; DQUOTE])
    (RSeq (RSeq (RSet not_newline) (RLazyStar (RSet not_newline)))
       (RAhead (RSeq (RChr DQUOTE) (RSet comma_or_brace)))).

Definition fix_json_structure (json_str : text) : text :=
  (* Fix missing commas between array elements *)
  let json_str := sub missing_comma_pattern (fun _ => txt "},{") json_str in
  (* Fix unescaped quotes within string values *)
  let json_str :=
    sub unescaped_quote_pattern
      (fun m => replace m [DQUOTE] [BSLASH; DQUOTE]) json_str in
  json_str.

Definition extract_json_object (raw_str : text) : res (option json) :=
  match search json_pattern raw_str with
  | None => Ret None
  | Some json_str =>
      try_except
        (bind (loads json_str) (fun json_obj => Ret (Some json_obj)))
        [JSONDecodeError]
        (fun _ =>
           try_except
             (let fixed_json_str := fix_json_structure json_str in
              bind (loads fixed_json_str) (fun json_obj => Ret (Some json_obj)))
             [JSONDecodeError]
             (fun _ => Ret None))
  end.

Section CleanUp.
Variable float_repr : text -> text.

(** The first statement of [clean_up_json]: the chain of
    replacements and the final [strip]. *)
Definition strip_escapes (json_str : text) : text :=
  strip
    (replace
       (replace
          (replace
             (replace
                (replace
                   (replace json_str [BSLASH; ch "n"] [])
                   [LF] [])
                [CR] [])
             [DQUOTE; ch "["; ch "{"] [ch "["; ch "{"])
          [ch "}"; ch "]"; DQUOTE] [ch "}"; ch "]"])
       [BSLASH] []).

(** Remove JSON Markdown Frame *)
Definition remove_frame (json_str : text) : text :=
  let json_str :=
    if startswith json_str (txt "```json")
    then drop (length (txt "```json")) json_str else json_str in
  let json_str :=
    if startswith json_str (txt "json")
    then drop (length (txt "json")) json_str else json_str in
  let json_str :=
    if endswith json_str (txt "```")
    then take (length json_str - length (txt "```")) json_str
    else json_str in
  json_str.

Definition clean_up_json (json_str : text) : res text :=
  let json_str := remove_frame (strip_escapes json_str) in
  bind
    (try_except
       (bind (loads json_str) (fun _ => Ret (Some json_str)))
       [JSONDecodeError]
       (fun _ =>
          bind (extract_json_object json_str) (fun json_obj =>
            match json_obj with
            | Some obj => Ret (Some (dumps float_repr obj))
            | None => Ret None
            end)))
    (fun returned =>
       match returned with
       | Some out => Ret out
       | None => Ret json_str
       end).
End CleanUp.

(** ** The parser over the decoder of the interpreter

    [json.loads] of CPython does not only raise [JSONDecodeError]: it
    raises [RecursionError] on a document nested deeper than the
    interpreter allows, and [ValueError] on an integer literal longer
    than the interpreter's digit limit.  The two functions are given
    here over any decoder [json_loads]; with [Json.loads] they are
    [extract_json_object] and [clean_up_json] above. *)
Section Interpreter.
Variable json_loads : text -> res json.

Definition extract_json_object_with (raw_str : text) : res (option json) :=
  match search json_pattern raw_str with
  | None => Ret None
  | Some json_str =>
      try_except
        (bind (json_loads json_str) (fun json_obj => Ret (Some json_obj)))
        [JSONDecodeError]
        (fun _ =>
           try_except
             (let fixed_json_str := fix_json_structure json_str in
              bind (json_loads fixed_json_str)
                (fun json_obj => Ret (Some json_obj)))
             [JSONDecodeError]
             (fun _ => Ret None))
  end.

Variable float_repr : text -> text.

Definition clean_up_json_with (json_str : text) : res text :=
  let json_str := remove_frame (strip_escapes json_str) in
  bind
    (try_except
       (bind (json_loads json_str) (fun _ => Ret (Some json_str)))
       [JSONDecodeError]
       (fun _ =>
          bind (extract_json_object_with json_str) (fun json_obj =>
            match json_obj with
            | Some obj => Ret (Some (dumps float_repr obj))
            | None => Ret None
            end)))
    (fun returned =>
       match returned with
       | Some out => Ret out
       | None => Ret json_str
       end).
End Interpreter.

(** ** Vocabulary of the statements about the parser *)

(** [mentions k j]: some object inside [j] has a member named [k]. *)
Fixpoint mentions (k : text) (j : json) : bool :=
  match j with
  | JArr items => existsb (mentions k) items
  | JObj members =>
      existsb (fun kv => text_eqb (fst kv) k || mentions k (snd kv)) members
  | _ => false
  end.

(** The text of the spec's repair example, [{"a":1}{"b":2}], and what
    a recovery of both of its objects has to hold. *)
Definition two_objects : text := jq "{'a':1}{'b':2}".

Definition recovers_both (r : res (option json)) : Prop :=
  exists v, r = Ret (Some v)
            /\ mentions (txt "a") v = true /\ mentions (txt "b") v = true.

Definition no_json_here : text := txt "no json here at all".

(** [clean_up_json] keeps the parsed value of [s]. *)
Definition preserves_value (float_repr : text -> text) (s : text) : Prop :=
  exists out, clean_up_json float_repr s = Ret out /\ loads out = loads s.

(** Valid JSON with an escape: the object with the member [a] whose
    value is the string of [x], the escape sequence for a newline
    (a backslash and [n]), and [y]. *)
Definition escaped_newline : text := jq "{'a':'x\ny'}".

(** Valid JSON with a string that begins with [[{]: the array of the
    one string [[{]. *)
Definition quoted_bracket : text := jq "['[{']".

(** Valid JSON spread over lines, with white space around it. *)
Definition spread_out : text :=
  jq " { 'a' : [1, 2.5e3, true] ," ++ [LF] ++ jq "  'b': 'x y'}"
  ++ [CR; LF; 32].

End JsonRecovery.


(** * Conversation turns

    The three copies of the loop that lifts the system turn out of a
    list of messages ([_execute_llm], [generate], [agenerate]). *)
Module Turns.
Import Py.

(** A message is a [dict]; the sources read its keys [role] and
    [content]. *)
Abbreviation message := (gmap string pyval).

(** [message.get('role') == 'system'] *)
Definition is_system (m : message) : bool :=
  match m !! "role"%string with
  | Some (VStr r) => text_eqb r (txt "system")
  | _ => false
  end.

(** [message.get('content')] *)
Definition get_content (m : message) : pyval :=
  default VNone (m !! "content"%string).

(** The body of [for message in messages], as a step on the pair
    [(system_message, filtered_messages)]. *)
Definition extract_step (st : pyval * list message) (m : message)
  : pyval * list message :=
  if is_system m then (get_content m, snd st)
  else (fst st, snd st ++ [m]).

Definition extract_system (messages : list message) : pyval * list message :=
  fold_left extract_step messages (VNone, []).

Definition not_system (m : message) : bool := negb (is_system m).

End Turns.

(** * tenacity: [Retrying] used as an iterator of attempts *)
Module Tenacity.
Import Py.

(** [Retrying(stop=stop_after_attempt(n), wait=..., reraise=...,
    retry=retry_if_exception_type(types))] *)
Record Retrying := {
  stop_after_attempt : Z;
  retry_if_exception_type : list exn_class;
  reraise : bool
}.

Section Retrying.
Context {W A : Type}.
Variable r : Retrying.
(** What the loop does around an attempt: it announces the attempt
    and sleeps between two attempts. *)
Variable before_attempt : Z -> W -> W.
Variable sleep : Z -> W -> W.
(** The body of [with attempt:], which returns or raises. *)
Variable body : W -> res A * W.

(** [for attempt in retryer: with attempt: return body()], from
    attempt [n] on.  A raised exception is stored by the attempt
    manager; [iter] then re-raises it when it is not of a retried
    type, raises at the stop condition (the stored exception under
    [reraise], a [RetryError] otherwise), and sleeps before the next
    attempt in the remaining case. *)
Equations? attempts_from (n : Z) (w : W) : res A * W
  by wf (Z.to_nat (stop_after_attempt r - n)) lt :=
  attempts_from n w with body (before_attempt n w) => {
    | (Ret v, w1) := (Ret v, w1);
    | (Raise e, w1) with isinstance e (retry_if_exception_type r) => {
        | false := (Raise e, w1);
        | true with Z_ge_dec n (stop_after_attempt r) => {
            | left _ :=
                if reraise r then (Raise e, w1)
                else (Raise (Exn RetryError []), w1);
            | right _ := attempts_from (n + 1) (sleep n w1) } } }.
Proof. lia. Qed.

Definition attempts : W -> res A * W := attempts_from 1.
End Retrying.

End Tenacity.

(** * graphrag/query/llm/claude: [ChatClaude] and [Claude] *)
Module QueryLLM.
Import Py Turns Tenacity.

(** typing.py *)
Definition CLAUDE_RETRY_ERROR_TYPES : list exn_class :=
  [RateLimitError; APIConnectionError].

(** The two wrapper classes share their methods almost word for word. *)
Inductive wrapper := ChatClaude | Claude.

(** The module-level names of each file that hold a [str]. *)
Definition module_globals (c : wrapper) : list (string * text) :=
  match c with
  | ChatClaude => [("_MODEL_REQUIRED_MSG"%string, txt "model is required")]
  | Claude => []
  end.

(** The fields of an instance that the methods read.  Its clients are
    taken to be set. *)
Record llm := {
  cls : wrapper;
  model : option text;
  max_retries : Z;
  retry_error_types : list exn_class
}.

(** [generate] runs on the synchronous client, [agenerate] on the
    asynchronous one. *)
Inductive client := sync_client | async_client.
Inductive endpoint := messages_stream | messages_create.

(** A physical request: the keyword arguments of [messages.stream] or
    [messages.create]. *)
Record request := {
  rq_client : client;
  rq_endpoint : endpoint;
  rq_model : text;
  rq_messages : list message;
  rq_kwargs : gmap string pyval
}.

(** What the remote service does with its [k]-th request.  A stream
    yields its text deltas and then ends or fails; a created message
    carries the texts of its content blocks. *)
Record service := {
  stream_reply : nat -> request -> res (list text * option exn);
  create_reply : nat -> request -> res (list text)
}.

Inductive event :=
  | EvAttempt (attempt_number : Z)
  | EvSleep (attempt_number : Z)
  | EvRequest (rq : request)
  | EvNewToken (callback : nat) (token : text)
  | EvError (message : text).

(** The world of one logical call: the requests made so far and the
    log of what happened, oldest first. *)
Record world := { requests_made : nat; trace : list event }.

Definition M (A : Type) : Type := world -> res A * world.

Definition log (ev : event) (w : world) : world :=
  {| requests_made := requests_made w; trace := trace w ++ [ev] |}.

Definition sent (rq : request) (w : world) : world :=
  {| requests_made := S (requests_made w);
     trace := trace w ++ [EvRequest rq] |}.

Definition is_request (ev : event) : bool :=
  match ev with EvRequest _ => true | _ => false end.
Definition is_sleep (ev : event) : bool :=
  match ev with EvSleep _ => true | _ => false end.
Definition is_attempt (ev : event) : bool :=
  match ev with EvAttempt _ => true | _ => false end.
Definition is_new_token (ev : event) : bool :=
  match ev with EvNewToken _ _ => true | _ => false end.

Section Methods.
Variable remote : service.
Variable self : llm.

(** [for callback in callbacks: callback.on_llm_new_token(delta)],
    with the names in scope at the call. *)
Fixpoint notify (scope : list (string * text)) (callbacks : list nat)
  : M unit :=
  fun w =>
    match callbacks with
    | [] => (Ret tt, w)
    | callback :: rest =>
        match load_name scope "delta" with
        | Raise e => (Raise e, w)
        | Ret delta => notify scope rest (log (EvNewToken callback delta) w)
        end
    end.

(** [for text in stream.text_stream: ...]; [failure] is the error
    that ends the iteration, if any. *)
Fixpoint consume (model_name : text) (callbacks : option (list nat))
    (deltas : list text) (failure : option exn) (full_response : text)
  : M text :=
  fun w =>
    match deltas with
    | [] =>
        match failure with
        | Some e => (Raise e, w)
        | None => (Ret full_response, w)
        end
    | text :: rest =>
        let full_response := full_response ++ text in
        match callbacks with
        | Some (c :: cs) =>
            let scope :=
              [("model"%string, model_name);
               ("full_response"%string, full_response);
               ("text"%string, text)] ++ module_globals (cls self) in
            match notify scope (c :: cs) w with
            | (Raise e, w1) => (Raise e, w1)
            | (Ret _, w1) =>
                consume model_name callbacks rest failure full_response w1
            end
        | _ => consume model_name callbacks rest failure full_response w
        end
    end.

(** A keyword given both by name and through [**kwargs]. *)
Definition duplicate_keyword (names : list string)
    (kwargs : gmap string pyval) : bool :=
  existsb (fun n => bool_decide (is_Some (kwargs !! n))) names.

Definition multiple_values : exn :=
  Exn TypeError (txt "got multiple values for keyword argument").

(** [raise ValueError(_MODEL_REQUIRED_MSG)] *)
Definition raise_model_required : M text :=
  fun w =>
    match load_name (module_globals (cls self)) "_MODEL_REQUIRED_MSG" with
    | Ret msg => (Raise (Exn ValueError msg), w)
    | Raise e => (Raise e, w)
    end.

(** [_generate] and [_agenerate]. *)
Definition _generate (via : client) (messages : list message)
    (streaming : bool) (callbacks : option (list nat))
    (kwargs : gmap string pyval) : M text :=
  fun w =>
    let model_name := str_or (model self) [] in
    if text_eqb model_name [] then raise_model_required w
    else if streaming then
      if duplicate_keyword ["messages"; "model"]%string kwargs
      then (Raise multiple_values, w)
      else
        let rq := {| rq_client := via; rq_endpoint := messages_stream;
                     rq_model := model_name; rq_messages := messages;
                     rq_kwargs := kwargs |} in
        match stream_reply remote (requests_made w) rq with
        | Raise e => (Raise e, sent rq w)
        | Ret (deltas, failure) =>
            consume model_name callbacks deltas failure [] (sent rq w)
        end
    else
      if duplicate_keyword ["model"; "messages"; "stream"]%string kwargs
      then (Raise multiple_values, w)
      else
        let rq := {| rq_client := via; rq_endpoint := messages_create;
                     rq_model := model_name; rq_messages := messages;
                     rq_kwargs := <["stream" := VBool streaming]> kwargs |} in
        match create_reply remote (requests_made w) rq with
        | Raise e => (Raise e, sent rq w)
        | Ret [] =>
            (Raise (Exn IndexError (txt "list index out of range")),
             sent rq w)
        | Ret (block :: _) => (Ret block, sent rq w)
        end.

Definition max_tokens_header : pyval :=
  VDict [("anthropic-beta"%string,
          VStr (txt "max-tokens-3-5-sonnet-2024-07-15"))].

(** The retryer built by [generate] and [agenerate]. *)
Definition retryer : Retrying :=
  {| stop_after_attempt := max_retries self;
     retry_if_exception_type := retry_error_types self;
     reraise := true |}.

(** [generate] and [agenerate].  [messages] is a [str] or a list of
    messages. *)
Definition generate_via (via : client) (messages : text + list message)
    (streaming : bool) (callbacks : option (list nat))
    (kwargs : gmap string pyval) : M text :=
  (* Extract system message if present *)
  let '(system_message, filtered_messages) :=
    match messages with
    | inl _ => (VNone, [])
    | inr l => extract_system l
    end in
  let messages := filtered_messages in
  (* go for max tokens *)
  let kwargs :=
    match cls self with
    | ChatClaude => <["extra_headers"%string := max_tokens_header]> kwargs
    | Claude => kwargs
    end in
  (* Add system message to args if found *)
  let kwargs :=
    if truthy system_message
    then <["system"%string := system_message]> kwargs else kwargs in
  fun w =>
    match attempts retryer (fun n => log (EvAttempt n))
            (fun n => log (EvSleep n))
            (_generate via messages streaming callbacks kwargs) w with
    | (Ret v, w1) => (Ret v, w1)
    | (Raise e, w1) =>
        if isinstance e [RetryError]
        then (Ret [], log (EvError (exn_msg e)) w1)
        else (Raise e, w1)
    end.

Definition generate := generate_via sync_client.
Definition agenerate := generate_via async_client.
End Methods.

Definition start : world := {| requests_made := 0; trace := [] |}.

(** ** Vocabulary of the statements about the wrappers *)

(** The model name is missing: [None] or the empty string. *)
Definition model_missing (self : llm) : Prop :=
  model self = None \/ model self = Some [].

(** An error that the retryer of [self] retries, and that is not
    itself tenacity's [RetryError]. *)
Definition retryable (self : llm) (e : exn) : Prop :=
  isinstance e (retry_error_types self) = true
  /\ isinstance e [RetryError] = false.

(** The remote service fails every request with a retryable error. *)
Definition always_fails (remote : service) (self : llm) : Prop :=
  forall k rq,
    (exists e, stream_reply remote k rq = Raise e /\ retryable self e)
    /\ (exists e, create_reply remote k rq = Raise e /\ retryable self e).

(** The caller's keyword arguments name none of the parameters that
    [_generate] passes by name. *)
Definition no_keyword_clash (kwargs : gmap string pyval) : Prop :=
  kwargs !! "model"%string = None
  /\ kwargs !! "messages"%string = None
  /\ kwargs !! "stream"%string = None.

(** [ValueError(_MODEL_REQUIRED_MSG)] of chat_claude.py. *)
Definition model_required_error : exn :=
  Exn ValueError (txt "model is required").

(** A [ChatClaude] built with the defaults of its constructor. *)
Definition chat_claude (model : option text) : llm :=
  {| cls := ChatClaude; model := model; max_retries := 10;
     retry_error_types := CLAUDE_RETRY_ERROR_TYPES |}.

(** A service that answers every request with a rate-limit error. *)
Definition rate_limited : service :=
  {| stream_reply := fun _ _ => Raise (Exn RateLimitError []);
     create_reply := fun _ _ => Raise (Exn RateLimitError []) |}.

(** A service that streams the given deltas, or answers with them as
    content blocks. *)
Definition replies (deltas : list text) : service :=
  {| stream_reply := fun _ _ => Ret (deltas, None);
     create_reply := fun _ _ => Ret deltas |}.

Definition user_says (content : text) : message :=
  <["role"%string := VStr (txt "user")]>
    (<["content"%string := VStr content]> ∅).

(** [grows P w w']: [w'] continues the log of [w] with events that all
    satisfy [P]. *)
Definition grows (P : event -> Prop) (w w' : world) : Prop :=
  exists evs, trace w' = trace w ++ evs /\ Forall P evs.

Definition name_error_delta : exn :=
  Exn NameError (txt "name 'delta' is not defined").

End QueryLLM.


(** * graphrag/llm/claude/claude_chat_llm.py: [ClaudeChatLLM] *)
Module ChatLLM.
Import Py Json JsonRecovery Turns.

Definition _MAX_GENERATION_RETRIES : Z := 3.
Definition FAILED_TO_CREATE_JSON_ERROR : text :=
  txt "Failed to generate valid JSON output".

(** The keyword arguments of an invocation ([LLMInput]), with the keys
    this file reads or writes. *)
Record LLMInput := {
  name : option text;
  is_response_valid : option (json -> bool);
  history : option (list message);
  model_parameters : option (gmap string pyval);
  model : option text
}.

Record LLMOutput := {
  output : option text;
  json_ : option json;
  history_ : option (list message)
}.

(** The fields of [ClaudeConfiguration] that [_invoke_json] reads. *)
Record ClaudeConfiguration := {
  model_alt : option text;
  model_supports_json : bool
}.

(** One call of [self._invoke], as logged. *)
Record invocation := { inv_input : text; inv_kwargs : LLMInput }.

(** The world of one logical call: the invocations made, oldest
    first. *)
Abbreviation world := (list invocation).
Definition M (A : Type) : Type := world -> res A * world.

Definition set_name (k : LLMInput) (n : text) : LLMInput :=
  {| name := Some n; is_response_valid := is_response_valid k;
     history := history k; model_parameters := model_parameters k;
     model := model k |}.

Definition set_model (k : LLMInput) (m : text) : LLMInput :=
  {| name := name k; is_response_valid := is_response_valid k;
     history := history k; model_parameters := model_parameters k;
     model := Some m |}.

Definition set_model_parameters (k : LLMInput) (p : gmap string pyval)
  : LLMInput :=
  {| name := name k; is_response_valid := is_response_valid k;
     history := history k; model_parameters := Some p;
     model := model k |}.

Definition json_object_format : pyval :=
  VDict [("type"%string, VStr (txt "json_object"))].

(** A call of [client.messages.create]: its [messages] and its other
    keyword arguments. *)
Record creation := {
  cr_messages : list message;
  cr_args : gmap string pyval
}.

Section Methods.
(** [repr(float(lit))], see [Json.dumps]. *)
Variable float_repr : text -> text.
(** [utils.try_parse_json_object], which returns the parsed [dict]
    or raises. *)
Variable try_parse_json_object : text -> res json.
(** The [k]-th call of [BaseLLM._invoke]: the raw output and the
    history of its result, or the exception it raises. *)
Variable backend :
  nat -> text -> LLMInput -> res (option text * option (list message)).
Variable configuration : ClaudeConfiguration.

Definition _invoke (input : text) (kwargs : LLMInput)
  : M (option text * option (list message)) :=
  fun w =>
    (backend (length w) input kwargs,
     w ++ [{| inv_input := input; inv_kwargs := kwargs |}]).

(** Generate JSON output using a model's native JSON-output support. *)
Definition _native_json (input : text) (kwargs : LLMInput) : M LLMOutput :=
  fun w =>
    let kwargs' :=
      set_model_parameters kwargs
        (<["response_format"%string := json_object_format]>
           (default ∅ (model_parameters kwargs))) in
    match _invoke input kwargs' w with
    | (Raise e, w1) => (Raise e, w1)
    | (Ret (result_output, result_history), w1) =>
        let raw_output := str_or result_output [] in
        match try_parse_json_object raw_output with
        | Raise e => (Raise e, w1)
        | Ret json_output =>
            (Ret {| output := Some raw_output; json_ := Some json_output;
                    history_ := result_history |}, w1)
        end
    end.

Definition _manual_json (input : text) (kwargs : LLMInput) : M LLMOutput :=
  fun w =>
    (* Otherwise, clean up the output and try to parse it as json *)
    match _invoke input kwargs w with
    | (Raise e, w1) => (Raise e, w1)
    | (Ret (result_output, result_history), w1) =>
        let history := default [] result_history in
        match clean_up_json float_repr (str_or result_output []) with
        | Raise e => (Raise e, w1)
        | Ret output =>
            (try_except
               (bind (try_parse_json_object output) (fun json_output =>
                  Ret {| output := Some output; json_ := Some json_output;
                         history_ := Some history |}))
               [TypeError; JSONDecodeError]
               (fun _ =>
                  Ret {| output := Some []; json_ := Some (JStr []);
                         history_ := Some history |}),
             w1)
        end
    end.

Section InvokeJson.
Variable input : text.
Variable kwargs : LLMInput.

Definition call_name_base : text := str_or (name kwargs) (txt "unknown").
Definition response_valid : json -> bool :=
  default (fun _ => true) (is_response_valid kwargs).

(** The inner function [generate(attempt)]. *)
Definition generate (attempt : Z) : M LLMOutput :=
  let call_name := call_name_base ++ txt "@" ++ str_of_Z attempt in
  (* Create a copy of kwargs to avoid modifying the original *)
  let modified_kwargs := kwargs in
  (* If this is the second attempt (attempt == 1), update the model *)
  let modified_kwargs :=
    if (attempt >? 0)%Z then
      match model_alt configuration with
      | Some new_model =>
          if text_eqb new_model [] then modified_kwargs
          else set_model modified_kwargs new_model
      | None => modified_kwargs
      end
    else modified_kwargs in
  (* Update the name in the kwargs *)
  let modified_kwargs := set_name modified_kwargs call_name in
  if model_supports_json configuration
  then _native_json input modified_kwargs
  else _manual_json input modified_kwargs.

Definition is_valid (x : option json) : bool :=
  match x with
  | None => false
  | Some v => response_valid v
  end.

(** The model that attempt [k] asks for. *)
Definition model_of_attempt (k : Z) : option text :=
  if (k >? 0)%Z then
    match model_alt configuration with
    | Some new_model =>
        if text_eqb new_model [] then model kwargs else Some new_model
    | None => model kwargs
    end
  else model kwargs.

(** [while not is_valid(result.json) and retry < _MAX_GENERATION_RETRIES] *)
Equations? retry_while (result : LLMOutput) (retry : Z) (w : world)
  : res LLMOutput * world
  by wf (Z.to_nat (_MAX_GENERATION_RETRIES - retry)) lt :=
  retry_while result retry w with is_valid (json_ result) => {
    | true := (Ret result, w);
    | false with Z_lt_dec retry _MAX_GENERATION_RETRIES => {
        | right _ := (Ret result, w);
        | left _ with generate retry w => {
            | (Raise e, w1) := (Raise e, w1);
            | (Ret result', w1) := retry_while result' (retry + 1) w1 } } }.
Proof. lia. Qed.

(** Generate JSON output. *)
Definition _invoke_json : M LLMOutput :=
  fun w =>
    match generate 0 w with
    | (Raise e, w1) => (Raise e, w1)
    | (Ret result, w1) =>
        match retry_while result 1 w1 with
        | (Raise e, w2) => (Raise e, w2)
        | (Ret result, w2) =>
            if is_valid (json_ result) then (Ret result, w2)
            else (Raise (Exn RuntimeError FAILED_TO_CREATE_JSON_ERROR), w2)
        end
    end.
End InvokeJson.

(** [_execute_llm].  [get_completion_llm_args] of utils.py is not
    among the sources; it returns the [dict] of keyword arguments of
    the request.  [create] is the reply of [client.messages.create] to
    its [k]-th call: the texts of the content blocks of the message,
    or the exception it raises. *)
Variable get_completion_llm_args :
  option (gmap string pyval) -> ClaudeConfiguration -> gmap string pyval.
Variable create : nat -> creation -> res (list text).

Definition user_turn (input : text) : message :=
  <["role"%string := VStr (txt "user")]>
    (<["content"%string := VStr input]> ∅).

Definition _execute_llm (input : text) (kwargs : LLMInput)
  : list creation -> res text * list creation :=
  fun calls =>
    let args :=
      get_completion_llm_args (model_parameters kwargs) configuration in
    let history := default [] (history kwargs) in
    (* Extract system message if present *)
    let '(system_message, filtered_history) := extract_system history in
    let messages := filtered_history ++ [user_turn input] in
    (* Add system message to args if found *)
    let args :=
      if truthy system_message
      then <["system"%string := system_message]> args else args in
    (* create(messages=messages, **args) *)
    if bool_decide (is_Some (args !! "messages"%string))
    then (Raise QueryLLM.multiple_values, calls)
    else
      let call := {| cr_messages := messages; cr_args := args |} in
      (bind (create (length calls) call) (fun content =>
         match content with
         | block :: _ => Ret block
         | [] => Raise (Exn IndexError (txt "list index out of range"))
         end),
       calls ++ [call]).
End Methods.

(** ** Vocabulary of the statements about the enforcer *)

(** The terminal error of [_invoke_json]. *)
Definition terminal_error : exn :=
  Exn RuntimeError FAILED_TO_CREATE_JSON_ERROR.

(** [i] is the invocation of attempt [k]: it is named [base@k] and
    asks for the model [m]. *)
Definition attempt_of (base : text) (k : Z) (m : option text)
    (i : invocation) : Prop :=
  name (inv_kwargs i) = Some (base ++ txt "@" ++ str_of_Z k)
  /\ model (inv_kwargs i) = m.

(** The result that [_manual_json] builds when parsing fails. *)
Definition failed_parse (history : list message) : LLMOutput :=
  {| output := Some []; json_ := Some (JStr []); history_ := Some history |}.

(** Keyword arguments that give a model and nothing else, and the same
    with a validity predicate. *)
Definition plain_kwargs (m : text) : LLMInput :=
  {| name := None; is_response_valid := None; history := None;
     model_parameters := None; model := Some m |}.

Definition checked_kwargs (m : text) (valid : json -> bool) : LLMInput :=
  {| name := None; is_response_valid := Some valid; history := None;
     model_parameters := None; model := Some m |}.

(** A configuration without native JSON mode, with a fallback model. *)
Definition manual_with_fallback (fallback : text) : ClaudeConfiguration :=
  {| model_alt := Some fallback; model_supports_json := false |}.

(** A back end that answers every invocation with the same text. *)
Definition answers (out : text)
  : nat -> text -> LLMInput -> res (option text * option (list message)) :=
  fun _ _ _ => Ret (Some out, None).

(** Modelled from the spec: [utils.try_parse_json_object] is not among
    the sources.  The raw text is parsed directly; the result is the
    parsed object, and a text that does not parse, or parses to
    something other than an object, is a failure ([_manual_json]
    catches [TypeError] and [JSONDecodeError]). *)
Definition try_parse_json_object_spec (s : text) : res json :=
  bind (loads s) (fun v =>
    match v with
    | JObj _ => Ret v
    | _ => Raise (Exn TypeError [])
    end).

End ChatLLM.


(** * Further vocabulary for the wrappers *)
Module Calls.
Import Py Turns Tenacity QueryLLM.

(** What reading the name [_MODEL_REQUIRED_MSG] raises in claude.py,
    which never binds it. *)
Definition name_error_model_required : exn :=
  Exn NameError (txt "name '_MODEL_REQUIRED_MSG' is not defined").

(** [''.join(deltas)] *)
Definition concat_text (deltas : list text) : text := List.concat deltas.

(** A call in which no callback can be reached: it does not stream, or
    it has no callback. *)
Definition quiet (streaming : bool) (callbacks : option (list nat)) : Prop :=
  streaming = false \/ callbacks = None \/ callbacks = Some [].

(** The service raises [e] on its [k]-th request, at the endpoint the
    mode uses. *)
Definition service_raises (remote : service) (streaming : bool) (k : nat)
    (rq : request) (e : exn) : Prop :=
  if streaming then stream_reply remote k rq = Raise e
  else create_reply remote k rq = Raise e.

(** The service answers its [k]-th request with [answer]: a stream of
    deltas that ends well and whose concatenation is [answer], or a
    message whose first content block is [answer]. *)
Definition service_answers (remote : service) (streaming : bool) (k : nat)
    (rq : request) (answer : text) : Prop :=
  if streaming
  then exists deltas, stream_reply remote k rq = Ret (deltas, None)
                      /\ answer = concat_text deltas
  else exists blocks, create_reply remote k rq = Ret (answer :: blocks).

(** The log of [k] failed attempts of the same request, each followed
    by its wait. *)
Definition retried (k : nat) (rq : request) : list event :=
  flat_map (fun j => [EvAttempt j; EvRequest rq; EvSleep j])
    (map Z.of_nat (seq 1 k)).

(** The turns and the system instruction that [generate] draws from
    its [messages] argument. *)
Definition turns_of (messages : text + list message) : pyval * list message :=
  match messages with
  | inl _ => (VNone, [])
  | inr l => extract_system l
  end.

(** The keyword arguments that [generate] hands to [_generate]: the
    caller's, with the header of [ChatClaude] and the system
    instruction found among the turns. *)
Definition passed_kwargs (self : llm) (messages : text + list message)
    (kwargs : gmap string pyval) : gmap string pyval :=
  let kwargs :=
    match cls self with
    | ChatClaude => <["extra_headers"%string := max_tokens_header]> kwargs
    | Claude => kwargs
    end in
  if truthy (fst (turns_of messages))
  then <["system"%string := fst (turns_of messages)]> kwargs else kwargs.

(** The request that [_generate] makes of its arguments. *)
Definition request_for (via : client) (model_name : text)
    (messages : list message) (streaming : bool)
    (kwargs : gmap string pyval) : request :=
  {| rq_client := via;
     rq_endpoint := if streaming then messages_stream else messages_create;
     rq_model := model_name;
     rq_messages := messages;
     rq_kwargs := if streaming then kwargs
                  else <["stream"%string := VBool streaming]> kwargs |}.

(** The request of a call of [generate]. *)
Definition request_of (self : llm) (via : client)
    (messages : text + list message) (streaming : bool)
    (kwargs : gmap string pyval) : request :=
  request_for via (str_or (model self) []) (snd (turns_of messages))
    streaming (passed_kwargs self messages kwargs).

(** The world after [k] more requests and the events [evs]. *)
Definition after (w : world) (k : nat) (evs : list event) : world :=
  {| requests_made := requests_made w + k; trace := trace w ++ evs |}.

(** The number of events of a kind in the log of a world. *)
Definition tally (f : event -> bool) (w : world) : nat :=
  length (List.filter f (trace w)).

(** A request as [generate] shapes it from a list of turns and the
    caller's keyword arguments: it carries the turns that are not
    system turns, in their order; the content of the last system turn,
    when it is truthy, is its [system] argument, in place of one the
    caller may have given; [ChatClaude] sets [extra_headers], in place
    of the caller's; a call that does not stream sets [stream]; every
    other keyword argument is the caller's. *)
Definition shaped (self : llm) (via : client) (turns : list message)
    (streaming : bool) (kwargs : gmap string pyval) (rq : request) : Prop :=
  let system_message :=
    match last (List.filter is_system turns) with
    | Some t => get_content t
    | None => VNone
    end in
  rq_client rq = via
  /\ rq_endpoint rq = (if streaming then messages_stream else messages_create)
  /\ rq_model rq = str_or (model self) []
  /\ rq_messages rq = List.filter not_system turns
  /\ rq_kwargs rq !! "system"%string
     = (if truthy system_message then Some system_message
        else kwargs !! "system"%string)
  /\ rq_kwargs rq !! "extra_headers"%string
     = match cls self with
       | ChatClaude => Some max_tokens_header
       | Claude => kwargs !! "extra_headers"%string
       end
  /\ rq_kwargs rq !! "stream"%string
     = (if streaming then kwargs !! "stream"%string
        else Some (VBool false))
  /\ forall key, key <> "system"%string -> key <> "extra_headers"%string ->
                 key <> "stream"%string ->
                 rq_kwargs rq !! key = kwargs !! key.

(** An event that is no request, or a request that is [shaped]. *)
Definition shaped_event (self : llm) (via : client) (turns : list message)
    (streaming : bool) (kwargs : gmap string pyval) (ev : event) : Prop :=
  match ev with
  | EvRequest rq => shaped self via turns streaming kwargs rq
  | _ => True
  end.

Definition index_error : exn := Exn IndexError (txt "list index out of range").

(** A service whose first [k] replies are rate-limit errors and whose
    later replies are [deltas]. *)
Definition recovers_after (k : nat) (deltas : list text) : service :=
  {| stream_reply := fun i _ =>
       if (i <? k)%nat then Raise (Exn RateLimitError [])
       else Ret (deltas, None);
     create_reply := fun i _ =>
       if (i <? k)%nat then Raise (Exn RateLimitError [])
       else Ret deltas |}.

(** A service that answers every request with an error of class [c]. *)
Definition refuses (c : exn_class) : service :=
  {| stream_reply := fun _ _ => Raise (Exn c []);
     create_reply := fun _ _ => Raise (Exn c []) |}.

(** A [Claude] of claude.py built with the defaults of its
    constructor. *)
Definition claude (model : option text) : llm :=
  {| cls := Claude; model := model; max_retries := 10;
     retry_error_types := CLAUDE_RETRY_ERROR_TYPES |}.

End Calls.


(** * Further vocabulary for the enforcer *)
Module Enforcer.
Import Py Json JsonRecovery Turns ChatLLM.

(** The invocation of attempt [k] of a call of [_invoke_json]: it
    carries the input of the call under the name [base@k]; it asks for
    the caller's model in attempt 0 and when no fallback model is
    configured, and for the fallback model otherwise; in native JSON
    mode its model parameters are the caller's with [response_format]
    set to [json_object], in manual mode they are the caller's; the
    other keyword arguments are the caller's. *)
Definition invocation_of (configuration : ClaudeConfiguration) (input : text)
    (kwargs : LLMInput) (k : nat) (i : invocation) : Prop :=
  inv_input i = input
  /\ name (inv_kwargs i)
     = Some (str_or (name kwargs) (txt "unknown") ++ txt "@"
             ++ str_of_Z (Z.of_nat k))
  /\ model (inv_kwargs i)
     = match k, model_alt configuration with
       | S _, Some fallback =>
           if text_eqb fallback [] then model kwargs else Some fallback
       | _, _ => model kwargs
       end
  /\ model_parameters (inv_kwargs i)
     = (if model_supports_json configuration
        then Some (<["response_format"%string := json_object_format]>
                     (default ∅ (model_parameters kwargs)))
        else model_parameters kwargs)
  /\ history (inv_kwargs i) = history kwargs
  /\ is_response_valid (inv_kwargs i) = is_response_valid kwargs.

(** [content[0]] of a reply. *)
Definition first_block (content : list text) : res text :=
  match content with
  | block :: _ => Ret block
  | [] => Raise (Exn IndexError (txt "list index out of range"))
  end.

(** An outcome of an attempt that ends the loop of [_invoke_json]: an
    exception, or a result that [is_valid] accepts. *)
Definition decisive (kwargs : LLMInput) (out : res LLMOutput * world) : Prop :=
  match fst out with
  | Raise _ => True
  | Ret r => is_valid kwargs (json_ r) = true
  end.

(** A predicate that accepts objects only. *)
Definition is_object (v : json) : bool :=
  match v with JObj _ => true | _ => false end.

(** A back end that answers its first [k] invocations with [bad] and
    the later ones with [good]. *)
Definition answers_after (k : nat) (bad good : text)
  : nat -> text -> LLMInput -> res (option text * option (list message)) :=
  fun n _ _ => Ret (Some (if (n <? k)%nat then bad else good), None).

(** A back end that fails every invocation with [e]. *)
Definition fails_with (e : exn)
  : nat -> text -> LLMInput -> res (option text * option (list message)) :=
  fun _ _ _ => Raise e.

(** A configuration with native JSON mode and no fallback model. *)
Definition native_mode : ClaudeConfiguration :=
  {| model_alt := None; model_supports_json := true |}.

End Enforcer.


(** * Further vocabulary for the recovery parser *)
Module Recovery.
Import Py Json Re JsonRecovery.

(** [extends p q]: the position [q] is [p] moved forward over a
    stretch of the subject. *)
Definition extends (p q : pos) : Prop :=
  exists m, after p = m ++ after q /\ before q = rev m ++ before p.

(** The Markdown fence that [clean_up_json] removes. *)
Definition fenced (s : text) : text := txt "```json" ++ s ++ txt "```".

(** A fenced object spread over three lines. *)
Definition fenced_reply : text :=
  txt "```json" ++ [LF] ++ jq "{'a': [1, 2], 'b': 'x'}" ++ [LF] ++ txt "```".

(** A reply that wraps an object in prose. *)
Definition chatty_reply : text :=
  txt "Sure! Here it is: " ++ jq "{'a': [1, 2], 'b': 'x'}"
  ++ txt " Hope this helps {really}.".

End Recovery.


(** * graphrag/query/llm/claude/base.py and the constructors

    Instances as Python has them: a class and a dictionary of
    attributes.  Reading an attribute looks in the instance, then in
    the class; the class [ClaudeLLMImpl] binds [_reporter], and the
    annotations [_sync_client] and [_async_client] of [BaseClaudeLLM]
    bind nothing. *)
Module Instances.
Import Py QueryLLM.

(** The status reporters in play: the [ConsoleStatusReporter()] made
    once in the body of [ClaudeLLMImpl], one made by a constructor, and
    one that the caller passes. *)
Inductive reporter :=
  | class_reporter
  | console_reporter
  | given_reporter (id : nat).

(** The objects that the constructors store.  A client of the SDK is
    described by the arguments it was made with. *)
Inductive attr :=
  | ANone
  | AStr (s : text)
  | AInt (z : Z)
  | AFloat (literal : text)
  | AApiType
  | ATypes (types : list exn_class)
  | AReporter (r : reporter)
  | AClient (kind : client) (api_key base_url timeout max_retries : attr).

Record instance := { class_of : wrapper; attrs : gmap string attr }.

Definition class_name (c : wrapper) : text :=
  match c with ChatClaude => txt "ChatClaude" | Claude => txt "Claude" end.

(** What the classes of an instance bind, besides methods and
    properties. *)
Definition class_attribute (name : string) : option attr :=
  if String.eqb name "_reporter" then Some (AReporter class_reporter)
  else None.

Definition attribute_error (c : wrapper) (name : string) : exn :=
  Exn AttributeError
    (txt "'" ++ class_name c ++ txt "' object has no attribute '"
     ++ txt name ++ txt "'").

(** [self.name] *)
Definition getattr (o : instance) (name : string) : res attr :=
  match attrs o !! name with
  | Some v => Ret v
  | None =>
      match class_attribute name with
      | Some v => Ret v
      | None => Raise (attribute_error (class_of o) name)
      end
  end.

(** [self.name = v] *)
Definition setattr (o : instance) (name : string) (v : attr) : instance :=
  {| class_of := class_of o; attrs := <[name := v]> (attrs o) |}.

(** A report to a status reporter: [reporter.error(message, details)]. *)
Record report := {
  report_to : reporter;
  report_message : text;
  report_details : list (text * text)
}.

(** ** [BaseClaudeLLM] *)

Definition set_clients (self : instance) (sync_client async_client : attr)
  : instance :=
  let self := setattr self "_sync_client" sync_client in
  let self := setattr self "_async_client" async_client in
  self.

(** The properties [async_client] and [sync_client], and their
    setters. *)
Definition async_client_getter (self : instance) : res attr :=
  getattr self "_async_client".
Definition sync_client_getter (self : instance) : res attr :=
  getattr self "_sync_client".
Definition async_client_setter (self : instance) (client : attr) : instance :=
  setattr self "_async_client" client.
Definition sync_client_setter (self : instance) (client : attr) : instance :=
  setattr self "_sync_client" client.

Section Construction.
(** [Anthropic(...)] and [AsyncAnthropic(...)] return the client of
    their arguments, unless the SDK refuses them with an exception. *)
Variable sdk_refuses : attr -> option exn.

Definition new_client (kind : client) (api_key base_url timeout max_retries : attr)
  : res attr :=
  let made := AClient kind api_key base_url timeout max_retries in
  match sdk_refuses made with
  | Some e => Raise e
  | None => Ret made
  end.

(** ** [ClaudeLLMImpl] *)

(** Create a new Anthropic client instance. *)
Definition _create_claude_client (self : instance) : res instance :=
  bind (getattr self "api_key") (fun api_key =>
  bind (getattr self "api_base") (fun base_url =>
  bind (getattr self "request_timeout") (fun timeout =>
  bind (getattr self "max_retries") (fun max_retries =>
  bind (new_client sync_client api_key base_url timeout max_retries)
    (fun sync =>
  bind (getattr self "api_key") (fun api_key =>
  bind (getattr self "api_base") (fun base_url =>
  bind (getattr self "request_timeout") (fun timeout =>
  bind (getattr self "max_retries") (fun max_retries =>
  bind (new_client async_client api_key base_url timeout max_retries)
    (fun async =>
  Ret (set_clients self sync async))))))))))).

(** [BaseClaudeLLM.__init__] *)
Definition BaseClaudeLLM_init (self : instance) : res instance :=
  _create_claude_client self.

(** The arguments of [ClaudeLLMImpl.__init__]. *)
Record impl_args := {
  arg_api_key : attr;
  arg_api_base : attr;
  arg_api_version : attr;
  arg_api_type : attr;
  arg_organization : attr;
  arg_max_retries : attr;
  arg_request_timeout : attr;
  arg_reporter : option reporter
}.

Definition failed_to_create : text := txt "Failed to create Anthropic client".

(** [ClaudeLLMImpl.__init__], on the reports made so far. *)
Definition ClaudeLLMImpl_init (self : instance) (a : impl_args)
  : list report -> res instance * list report :=
  fun w =>
    let self := setattr self "api_key" (arg_api_key a) in
    let self := setattr self "api_base" (arg_api_base a) in
    let self := setattr self "api_version" (arg_api_version a) in
    let self := setattr self "api_type" (arg_api_type a) in
    let self := setattr self "organization" (arg_organization a) in
    let self := setattr self "max_retries" (arg_max_retries a) in
    let self := setattr self "request_timeout" (arg_request_timeout a) in
    let self :=
      setattr self "reporter"
        (AReporter (default console_reporter (arg_reporter a))) in
    (* Create Anthropic sync and async clients *)
    match BaseClaudeLLM_init self with
    | Ret self => (Ret self, w)
    | Raise e =>
        if isinstance e [Exception] then
          match getattr self "_reporter" with
          | Ret (AReporter r) =>
              (Raise e,
               w ++ [{| report_to := r;
                        report_message := failed_to_create;
                        report_details :=
                          [(class_name (class_of self), exn_msg e)] |}])
          | Ret _ =>
              (Raise (Exn AttributeError
                        (txt "object has no attribute 'error'")), w)
          | Raise e' => (Raise e', w)
          end
        else (Raise e, w)
    end.

(** ** The wrappers *)

(** [ChatClaude.__init__] *)
Definition ChatClaude_init (a : impl_args) (model retry_error_types : attr)
  : list report -> res instance * list report :=
  fun w =>
    let self := {| class_of := ChatClaude; attrs := ∅ |} in
    match ClaudeLLMImpl_init self a w with
    | (Raise e, w1) => (Raise e, w1)
    | (Ret self, w1) =>
        let self := setattr self "model" model in
        let self := setattr self "retry_error_types" retry_error_types in
        (Ret self, w1)
    end.

(** [Claude.__init__], which does not call the constructor of its
    base class. *)
Definition Claude_init
    (api_key model api_base api_version api_type organization max_retries
       retry_error_types : attr) : instance :=
  let self := {| class_of := Claude; attrs := ∅ |} in
  let self := setattr self "api_key" api_key in
  let self := setattr self "model" model in
  let self := setattr self "api_base" api_base in
  let self := setattr self "api_version" api_version in
  let self := setattr self "api_type" api_type in
  let self := setattr self "organization" organization in
  let self := setattr self "max_retries" max_retries in
  let self := setattr self "retry_error_types" retry_error_types in
  self.

End Construction.

(** ** Vocabulary of the statements about instances *)

(** The default arguments of [ClaudeLLMImpl.__init__] and of
    [ChatClaude.__init__], with the given key and reporter. *)
Definition default_args (api_key : attr) (reporter : option reporter)
  : impl_args :=
  {| arg_api_key := api_key; arg_api_base := ANone; arg_api_version := ANone;
     arg_api_type := AApiType; arg_organization := ANone;
     arg_max_retries := AInt 10; arg_request_timeout := AFloat (txt "180.0");
     arg_reporter := reporter |}.

(** The client of the SDK that a constructor makes of its arguments. *)
Definition client_of (kind : client) (a : impl_args) : attr :=
  AClient kind (arg_api_key a) (arg_api_base a) (arg_request_timeout a)
    (arg_max_retries a).

(** The report of a failed construction. *)
Definition construction_failure (c : wrapper) (e : exn) : report :=
  {| report_to := class_reporter; report_message := failed_to_create;
     report_details := [(class_name c, exn_msg e)] |}.

(** An SDK that accepts every client, and one that refuses the
    asynchronous clients. *)
Definition accepting : attr -> option exn := fun _ => None.
Definition refusing_async (e : exn) : attr -> option exn :=
  fun c =>
    match c with
    | AClient async_client _ _ _ _ => Some e
    | _ => None
    end.

End Instances.


(** * Vocabulary for the round trip through [json.dumps] *)
Module RoundTrip.
Import Py Json JsonRecovery.

(** A Unicode scalar value: a code point that is no surrogate. *)
Definition scalar (c : N) : bool :=
  (c <? 55296) || ((57343 <? c) && (c <? 1114112)).

Definition scalars (s : text) : bool := forallb scalar s.

(** The values that [json.dumps] and [json.loads] carry through
    unchanged: they hold no float, their strings and keys are made of
    scalar values, and no object repeats a key. *)
Fixpoint lossless (j : json) : bool :=
  match j with
  | JFloat _ => false
  | JStr s => scalars s
  | JArr items => forallb lossless items
  | JObj members =>
      forallb (fun kv => scalars (fst kv) && lossless (snd kv)) members
      && bool_decide (NoDup (map fst members))
  | _ => true
  end.

(** No float, and only scalar values in the strings and the keys. *)
Fixpoint portable (j : json) : bool :=
  match j with
  | JFloat _ => false
  | JStr s => scalars s
  | JArr items => forallb portable items
  | JObj members =>
      forallb (fun kv => scalars (fst kv) && portable (snd kv)) members
  | _ => true
  end.

(** No object repeats a key. *)
Fixpoint distinct_keys (j : json) : bool :=
  match j with
  | JArr items => forallb distinct_keys items
  | JObj members =>
      forallb (fun kv => distinct_keys (snd kv)) members
      && bool_decide (NoDup (map fst members))
  | _ => true
  end.

(** What the decoder returns with fuel [f] repeats no key. *)
Definition keyed (f : nat) : Prop :=
  (forall s v r, scan_once f s = Found v r -> distinct_keys v = true)
  /\ (forall s acc v r,
        parse_members f s acc = Found v r ->
        distinct_keys (JObj acc) = true -> distinct_keys v = true)
  /\ (forall s acc v r,
        parse_items f s acc = Found v r ->
        distinct_keys (JArr acc) = true -> distinct_keys v = true).

(** The text of a member of an object, as [json.dumps] writes it. *)
Definition member_text (float_repr : text -> text) (kv : text * json) : text :=
  encode_basestring_ascii (fst kv) ++ txt ": " ++ dumps float_repr (snd kv).

(** [dumps] carries [v] through, whatever follows that ends a number. *)
Definition carried (float_repr : text -> text) (v : json) : Prop :=
  lossless v = true ->
  forall rest g,
    stops rest = true ->
    (2 * length (dumps float_repr v ++ rest) + 1 <= g)%nat ->
    scan_once g (dumps float_repr v ++ rest) = Found v rest.

(** A reply whose object is broken by a missing comma inside a list
    and holds a character outside ASCII. *)
Definition broken_reply : text :=
  txt "Result: " ++ jq "{'items': [{'n': -12}{'n': 3}], 'note': 'a" ++ [233]
  ++ jq "b', 'ok': true}".

(** The object that the repair step recovers from [broken_reply]. *)
Definition broken_reply_object : json :=
  JObj [(txt "items", JArr [JObj [(txt "n", JInt (-12))];
                            JObj [(txt "n", JInt 3)]]);
        (txt "note", JStr [97; 233; 98]); (txt "ok", JBool true)].

End RoundTrip.


(** * Vocabulary for the texts that hold no object *)
Module Braceless.
Import Py Json JsonRecovery.

Definition no_opening_brace (s : text) : Prop :=
  Forall (fun c => c <> ch "{") s.

(** A framed list whose last comma makes it invalid. *)
Definition broken_list : text := txt "```json[1, 2,]```".

End Braceless.


(** * Vocabulary for the decoder of the interpreter *)
Module Decoders.
Import Py Json Re JsonRecovery.

(** The texts that [extract_json_object] hands to the decoder: the
    first match of the pattern, and the repaired match. *)
Definition candidates (raw_str : text) : list text :=
  match search json_pattern raw_str with
  | Some json_str => [json_str; fix_json_structure json_str]
  | None => []
  end.

(** The texts that [clean_up_json] and [extract_json_object] hand to
    the decoder on the input [s]: for the first the cleaned text and
    the candidates in it, for the second the candidates in [s]. *)
Definition handed (s : text) : list text :=
  let cleaned := remove_frame (strip_escapes s) in
  cleaned :: candidates cleaned ++ candidates s.

(** On the texts [ts] the decoder raises nothing but
    [JSONDecodeError]. *)
Definition only_decode_errors (json_loads : text -> res json)
    (ts : list text) : Prop :=
  forall t e,
    In t ts -> json_loads t = Raise e ->
    isinstance e [JSONDecodeError] = true.

(** The segments of a text: its prefixes, and those of its suffixes. *)
Fixpoint prefixes (s : text) : list text :=
  [] :: match s with
        | [] => []
        | c :: r => map (cons c) (prefixes r)
        end.

Fixpoint segments (s : text) : list text :=
  prefixes s ++ match s with
                | [] => []
                | _ :: r => segments r
                end.

(** [t] is the text of a JSON object. *)
Definition is_object_text (t : text) : bool :=
  match loads t with
  | Ret (JObj _) => true
  | _ => false
  end.

(** No segment of [s] is the text of a JSON object. *)
Definition holds_no_object (s : text) : Prop :=
  forall pre seg post, s = pre ++ seg ++ post -> is_object_text seg = false.

(** An object whose string value holds a quote that is not escaped. *)
Definition stray_quote : text := jq "{'a': 'x'y'}".

End Decoders.

(** * Vocabulary for the fallback model *)
Module Fallback.
Import Py Json JsonRecovery Turns ChatLLM.

(** [_execute_llm] does for the invocation [j] what it does for the
    invocation [i], whatever the completion arguments, the client and
    the calls made before: the same request, with the same outcome. *)
Definition same_request (configuration : ClaudeConfiguration)
    (i j : invocation) : Prop :=
  forall get_completion_llm_args create calls,
    _execute_llm configuration get_completion_llm_args create
      (inv_input j) (inv_kwargs j) calls
    = _execute_llm configuration get_completion_llm_args create
        (inv_input i) (inv_kwargs i) calls.

End Fallback.

(** * Vocabulary for the calls with a plain string *)
Module PlainString.
Import Py Turns QueryLLM Calls.

(** The request of a call whose [messages] is a [str]: no turn, and
    the keyword arguments of the caller, with the header of
    [ChatClaude]. *)
Definition plain_request (self : llm) (via : client) (m : text)
    (streaming : bool) (kwargs : gmap string pyval) : request :=
  request_for via m [] streaming
    match cls self with
    | ChatClaude => <["extra_headers"%string := max_tokens_header]> kwargs
    | Claude => kwargs
    end.

(** An event that is no request, or the request [rq]. *)
Definition is_request_of (rq : request) (ev : event) : Prop :=
  match ev with
  | EvRequest rq' => rq' = rq
  | _ => True
  end.

(** The keyword arguments of a caller who gives a system instruction
    of their own. *)
Definition says_be_brief : gmap string pyval :=
  <["system"%string := VStr (txt "Be brief.")]> ∅.

End PlainString.


(** * Message normalisation *)
Section TurnsFacts.
Import Py Turns.

(** The loop from any intermediate state: the filtered list grows by
    the non-system turns, and the system message is overwritten by
    each system turn in passing. *)
Lemma extract_from (l : list message) (s : pyval) (acc : list message) :
  fold_left extract_step l (s, acc)
  = (match last (List.filter is_system l) with
     | Some m => get_content m
     | None => s
     end,
     acc ++ List.filter not_system l).
Proof.
  revert s acc. induction l as [|m l IH]; intros s acc; simpl.
  - by rewrite app_nil_r.
  - unfold extract_step at 2, not_system. simpl.
    destruct (is_system m) eqn:Hm; simpl; rewrite IH.
    + f_equal. rewrite last_cons. by destruct (last (List.filter is_system l)).
    + by rewrite <- app_assoc.
Qed.

Lemma filter_sublist {A} (f : A -> bool) (l : list A) :
  sublist (List.filter f l) l.
Proof.
  induction l as [|a l IH]; simpl; [constructor|].
  destruct (f a); by constructor.
Qed.

Lemma filter_all {A} (f : A -> bool) (l : list A) :
  Forall (fun a => f a = true) (List.filter f l).
Proof.
  induction l as [|a l IH]; simpl; [constructor|].
  destruct (f a) eqn:Ha; [by constructor | done].
Qed.
End TurnsFacts.

(** C4.  For every ordered sequence of conversation turns, the
    normalisation loop yields a remaining-turn list that consists of the
    non-system turns in their original relative order (it is the input
    with the system turns deleted, a sub-sequence of the input) and
    holds no system-role turn; the extracted system instruction is the
    content of the last system-role turn when there is one, and [None]
    when there is none ([last] of the empty list of system turns). *)
Theorem extract_system_normalizes (messages : list Turns.message) :
  let system_message := fst (Turns.extract_system messages) in
  let remaining := snd (Turns.extract_system messages) in
  remaining = List.filter Turns.not_system messages
  /\ sublist remaining messages
  /\ Forall (fun m => Turns.is_system m = false) remaining
  /\ system_message
     = match last (List.filter Turns.is_system messages) with
       | Some m => Turns.get_content m
       | None => Py.VNone
       end.
Proof.
  unfold Turns.extract_system. rewrite extract_from. simpl.
  split; [done|]. split; [apply filter_sublist|].
  split.
  - eapply Forall_impl; [apply filter_all|].
    intros m Hm. unfold Turns.not_system in Hm. by destruct (Turns.is_system m).
  - done.
Qed.


(** * The JSON recovery parser *)
Section RecoveryFacts.
Import Py Json Re JsonRecovery.

(** [json.loads] raises nothing but [JSONDecodeError]. *)
Lemma loads_raises (s : text) (e : exn) :
  loads s = Raise e -> e = JSONDecodeError_exn.
Proof.
  unfold loads.
  destruct (scan_once _ _) as [v rest| |]; [|congruence..].
  destruct (skip_ws rest); congruence.
Qed.

Lemma loads_cases (s : text) :
  (exists v, loads s = Ret v) \/ loads s = Raise JSONDecodeError_exn.
Proof.
  destruct (loads s) as [v|e] eqn:H; [left; by exists v|right].
  by rewrite (loads_raises _ _ H).
Qed.

(** A text without an opening brace holds no match of the pattern. *)
Lemma search_without_brace (pre suf : text) :
  Forall (fun c => c <> ch "{") suf ->
  search_from json_pattern pre suf = None.
Proof.
  revert pre. induction suf as [|c suf IH]; intros pre Hs; [done|].
  inversion Hs as [|? ? Hc Hsuf]; subst.
  cbn [search_from]. rewrite IH by done.
  unfold match_at, json_pattern. cbn [bt advance after].
  by destruct (N.eqb_spec c (ch "{")).
Qed.

Lemma extract_without_brace (raw_str : text) :
  Forall (fun c => c <> ch "{") raw_str ->
  extract_json_object raw_str = Ret None.
Proof.
  intros H. unfold extract_json_object, search.
  by rewrite search_without_brace.
Qed.
End RecoveryFacts.

(** C7, as the code has it.  On [{"a":1}{"b":2}] the first
    balanced-brace match is [{"a":1}], which parses as it stands:
    [extract_json_object] returns the object [{"a": 1}] alone and
    [clean_up_json] its text [{"a": 1}].  This is no parse failure; the
    repair step is not reached and the second object is dropped. *)
Theorem two_objects_first_object_only :
  Re.search JsonRecovery.json_pattern JsonRecovery.two_objects
  = Some (Py.jq "{'a':1}")
  /\ JsonRecovery.extract_json_object JsonRecovery.two_objects
     = Py.Ret (Some (Json.JObj [(Py.txt "a", Json.JInt 1)]))
  /\ forall float_repr,
       JsonRecovery.clean_up_json float_repr JsonRecovery.two_objects
       = Py.Ret (Py.jq "{'a': 1}").
Proof.
  split; [by vm_compute|]. split; [by vm_compute|].
  intros float_repr. by vm_compute.
Qed.

(** C7, as the spec states it, fails: what [extract_json_object] returns
    for [{"a":1}{"b":2}] does not hold the second object, and the text
    that the repair step would make of the input,
    [{"a":1},{"b":2}], is not valid JSON either. *)
Lemma two_objects_not_recovered :
  ~ JsonRecovery.recovers_both
      (JsonRecovery.extract_json_object JsonRecovery.two_objects)
  /\ JsonRecovery.fix_json_structure JsonRecovery.two_objects
     = Py.jq "{'a':1},{'b':2}"
  /\ Json.loads (JsonRecovery.fix_json_structure JsonRecovery.two_objects)
     = Py.Raise Json.JSONDecodeError_exn.
Proof.
  split; [|split; by vm_compute].
  intros (v & Hv & _ & Hb). vm_compute in Hv.
  injection Hv as <-. by vm_compute in Hb.
Qed.


(** * The retry loop *)
Section TenacityFacts.
Import Py Tenacity.
Context {W A : Type}.
Variable r : Retrying.
Variable before_attempt : Z -> W -> W.
Variable sleep : Z -> W -> W.
Variable body : W -> res A * W.

Local Abbreviation loop := (attempts_from r before_attempt sleep body).

(** One turn of the loop. *)
Lemma attempts_from_unfold (n : Z) (w : W) :
  loop n w
  = match body (before_attempt n w) with
    | (Ret v, w1) => (Ret v, w1)
    | (Raise e, w1) =>
        if isinstance e (retry_if_exception_type r) then
          if Z_ge_dec n (stop_after_attempt r) then
            if reraise r then (Raise e, w1)
            else (Raise (Exn RetryError []), w1)
          else loop (n + 1) (sleep n w1)
        else (Raise e, w1)
    end.
Proof.
  simp attempts_from.
  destruct (body (before_attempt n w)) as [[v|e] w1]; simpl; [done|].
  destruct (isinstance e _); simpl; [|done].
  by destruct (Z_ge_dec n _).
Qed.

(** An error of a type that is not retried leaves the loop at once. *)
Lemma attempts_not_retried (w w1 : W) (e : exn) :
  body (before_attempt 1 w) = (Raise e, w1) ->
  isinstance e (retry_if_exception_type r) = false ->
  attempts r before_attempt sleep body w = (Raise e, w1).
Proof.
  intros Hb He. unfold attempts. rewrite attempts_from_unfold, Hb.
  by rewrite He.
Qed.

(** When every attempt fails with a retried error, a re-raising
    retryer ends by raising one of these errors, after as many attempts
    as the stop condition lets through.  [cnt] counts the attempts. *)
Lemma attempts_exhausted (cnt : W -> nat) (P : exn -> Prop) :
  reraise r = true ->
  (forall n w, cnt (before_attempt n w) = cnt w) ->
  (forall n w, cnt (sleep n w) = cnt w) ->
  (forall w, exists e w',
      body w = (Raise e, w')
      /\ isinstance e (retry_if_exception_type r) = true
      /\ P e /\ cnt w' = S (cnt w)) ->
  forall k n w,
    Z.to_nat (stop_after_attempt r - n) = k ->
    exists e w',
      loop n w = (Raise e, w')
      /\ isinstance e (retry_if_exception_type r) = true
      /\ P e /\ cnt w' = (cnt w + S k)%nat.
Proof.
  intros Hre Hbefore Hsleep Hbody.
  induction k as [|k IH]; intros n w Hk; rewrite attempts_from_unfold;
    destruct (Hbody (before_attempt n w)) as (e & w1 & -> & He & HP & Hc);
    rewrite He;
    destruct (Z_ge_dec n (stop_after_attempt r)) as [Hge|Hlt]; try lia.
  - rewrite Hre. exists e, w1. rewrite Hc, Hbefore.
    repeat split; [done..|lia].
  - destruct (IH (n + 1)%Z (sleep n w1)) as (e' & w' & -> & He' & HP' & Hc');
      [lia|].
    exists e', w'. repeat split; [done..|].
    rewrite Hc', Hsleep, Hc, Hbefore. lia.
Qed.

(** A property of the world that the attempts and the pauses keep is
    kept by the loop. *)
Lemma attempts_invariant (Inv : W -> Prop) :
  (forall n w, Inv w -> Inv (before_attempt n w)) ->
  (forall n w, Inv w -> Inv (sleep n w)) ->
  (forall w, Inv w -> Inv (snd (body w))) ->
  forall k n w,
    Z.to_nat (stop_after_attempt r - n) = k ->
    Inv w -> Inv (snd (loop n w)).
Proof.
  intros Hbefore Hsleep Hbody.
  induction k as [|k IH]; intros n w Hk Hw; rewrite attempts_from_unfold;
    pose proof (Hbody _ (Hbefore n _ Hw)) as Hb;
    destruct (body (before_attempt n w)) as [[v|e] w1]; simpl in *;
    try done;
    destruct (isinstance e _); try done;
    destruct (Z_ge_dec n (stop_after_attempt r)) as [Hge|Hlt]; try lia;
    try (by destruct (reraise r)).
  apply IH; [lia|]. by apply Hsleep.
Qed.
End TenacityFacts.


(** * The wrappers [ChatClaude] and [Claude] *)
Section QueryFacts.
Import Py Turns Tenacity QueryLLM.
Variable remote : service.
Variable self : llm.

Lemma model_missing_name :
  model_missing self -> text_eqb (str_or (model self) []) [] = true.
Proof. by intros [-> | ->]. Qed.

Lemma model_set_name (m : text) :
  model self = Some m -> m <> [] ->
  str_or (model self) [] = m /\ text_eqb m [] = false.
Proof.
  intros -> Hm. unfold str_or, text_eqb.
  by rewrite bool_decide_eq_false_2.
Qed.

(** No name [delta] is bound where the callbacks are called. *)
Lemma delta_unbound (model_name full_response text : text) :
  load_name
    ([("model"%string, model_name); ("full_response"%string, full_response);
      ("text"%string, text)] ++ module_globals (cls self)) "delta"
  = Raise name_error_delta.
Proof. by destruct (cls self). Qed.

Lemma notify_raises scope (c : nat) (cs : list nat) (w : world) :
  load_name scope "delta" = Raise name_error_delta ->
  notify scope (c :: cs) w = (Raise name_error_delta, w).
Proof. intros H. simpl. by rewrite H. Qed.

Lemma no_clash_stream (kwargs : gmap string pyval) :
  no_keyword_clash kwargs ->
  duplicate_keyword ["messages"; "model"]%string kwargs = false.
Proof.
  intros (Hm & Hms & _). unfold duplicate_keyword. simpl.
  rewrite Hm, Hms. by rewrite !bool_decide_eq_false_2 by by intros [].
Qed.

Lemma no_clash_create (kwargs : gmap string pyval) :
  no_keyword_clash kwargs ->
  duplicate_keyword ["model"; "messages"; "stream"]%string kwargs = false.
Proof.
  intros (Hm & Hms & Hs). unfold duplicate_keyword. simpl.
  rewrite Hm, Hms, Hs. by rewrite !bool_decide_eq_false_2 by by intros [].
Qed.

(** What [generate] adds to the keyword arguments clashes with none of
    the named parameters. *)
Lemma no_clash_insert (k : string) (v : pyval) (kwargs : gmap string pyval) :
  k <> "model"%string -> k <> "messages"%string -> k <> "stream"%string ->
  no_keyword_clash kwargs -> no_keyword_clash (<[k := v]> kwargs).
Proof.
  intros H1 H2 H3 (Hm & Hms & Hs). unfold no_keyword_clash.
  by rewrite !lookup_insert_ne.
Qed.

(** Against a service that fails every request, an attempt of a
    wrapper with a model name raises the service's error after one
    request. *)
Lemma _generate_fails via messages streaming callbacks kwargs (m : text) w :
  always_fails remote self ->
  model self = Some m -> m <> [] ->
  no_keyword_clash kwargs ->
  exists e w',
    _generate remote self via messages streaming callbacks kwargs w
    = (Raise e, w')
    /\ isinstance e (retry_error_types self) = true
    /\ isinstance e [RetryError] = false
    /\ requests_made w' = S (requests_made w).
Proof.
  intros Hfail Hmodel Hm Hkw. unfold _generate.
  destruct (model_set_name m Hmodel Hm) as [-> ->].
  destruct streaming.
  - rewrite no_clash_stream by done.
    match goal with |- context [stream_reply remote ?k ?rq] =>
      destruct (Hfail k rq) as [(e & -> & He1 & He2) _] end.
    by eexists _, _.
  - rewrite no_clash_create by done.
    match goal with |- context [create_reply remote ?k ?rq] =>
      destruct (Hfail k rq) as [_ (e & -> & He1 & He2)] end.
    by eexists _, _.
Qed.
End QueryFacts.

(** C5.  When the model name of a [ChatClaude] is missing ([None] or
    empty) and [ValueError] is not among the retried error types (it is
    not among [CLAUDE_RETRY_ERROR_TYPES]), [generate] and [agenerate]
    raise [ValueError("model is required")] out of the first attempt:
    the log of the call holds that one attempt and nothing else, so no
    request is sent, no retry wait happens and no second attempt is
    made. *)
Theorem missing_model_fails_at_once (remote : QueryLLM.service)
    (self : QueryLLM.llm) (via : QueryLLM.client)
    (messages : Py.text + list Turns.message) (streaming : bool)
    (callbacks : option (list nat)) (kwargs : gmap string Py.pyval)
    (w : QueryLLM.world) :
  QueryLLM.cls self = QueryLLM.ChatClaude ->
  QueryLLM.model_missing self ->
  Py.isinstance QueryLLM.model_required_error
    (QueryLLM.retry_error_types self) = false ->
  QueryLLM.generate_via remote self via messages streaming callbacks kwargs w
  = (Py.Raise QueryLLM.model_required_error,
     QueryLLM.log (QueryLLM.EvAttempt 1) w).
Proof.
  intros Hcls Hmiss Hty. unfold QueryLLM.generate_via.
  destruct (match messages with
            | inl _ => (Py.VNone, [])
            | inr l => Turns.extract_system l
            end) as [system_message filtered].
  rewrite (attempts_not_retried _ _ _ _ w
             (QueryLLM.log (QueryLLM.EvAttempt 1) w)
             QueryLLM.model_required_error); [reflexivity| |exact Hty].
  unfold QueryLLM._generate, QueryLLM.raise_model_required.
  rewrite model_missing_name by done. by rewrite Hcls.
Qed.

(** The default configuration of [ChatClaude] with no model, called
    as [generate("hi")], meets the hypotheses of C5. *)
Lemma missing_model_fails_at_once_witness :
  QueryLLM.generate (QueryLLM.replies [Py.txt "hello"])
    (QueryLLM.chat_claude None)
    (inr [QueryLLM.user_says (Py.txt "hi")]) true None ∅ QueryLLM.start
  = (Py.Raise QueryLLM.model_required_error,
     QueryLLM.log (QueryLLM.EvAttempt 1) QueryLLM.start).
Proof.
  apply (missing_model_fails_at_once (QueryLLM.replies [Py.txt "hello"])
           (QueryLLM.chat_claude None) QueryLLM.sync_client).
  - reflexivity.
  - left. reflexivity.
  - reflexivity.
Defined.


(** C1, on the code.  When the remote service fails every request with
    a retryable error, [generate] and [agenerate] of a wrapper with a
    model name do not return the empty string: the retryer is built
    with [reraise=True], so at the stop condition it raises the error
    of the last attempt, which [except RetryError] does not catch.  The
    call raises that error after [max(1, max_retries)] requests. *)
Theorem exhaustion_propagates_the_error (remote : QueryLLM.service)
    (self : QueryLLM.llm) (via : QueryLLM.client)
    (messages : Py.text + list Turns.message) (streaming : bool)
    (callbacks : option (list nat)) (kwargs : gmap string Py.pyval)
    (w : QueryLLM.world) (m : Py.text) :
  QueryLLM.always_fails remote self ->
  QueryLLM.model self = Some m -> m <> [] ->
  QueryLLM.no_keyword_clash kwargs ->
  exists e w',
    QueryLLM.generate_via remote self via messages streaming callbacks kwargs w
    = (Py.Raise e, w')
    /\ QueryLLM.retryable self e
    /\ QueryLLM.requests_made w'
       = (QueryLLM.requests_made w
          + Z.to_nat (Z.max 1 (QueryLLM.max_retries self)))%nat.
Proof.
  intros Hfail Hmodel Hm Hkw. unfold QueryLLM.generate_via.
  destruct (match messages with
            | inl _ => (Py.VNone, [])
            | inr l => Turns.extract_system l
            end) as [system_message filtered].
  set (kw1 := match QueryLLM.cls self with
              | QueryLLM.ChatClaude => _
              | QueryLLM.Claude => _
              end).
  set (kw2 := if Py.truthy system_message then _ else _).
  assert (Hkw2 : QueryLLM.no_keyword_clash kw2).
  { assert (QueryLLM.no_keyword_clash kw1).
    { subst kw1. destruct (QueryLLM.cls self); [|done].
      by apply no_clash_insert. }
    subst kw2. destruct (Py.truthy system_message); [|done].
    by apply no_clash_insert. }
  unfold Tenacity.attempts.
  destruct (attempts_exhausted (QueryLLM.retryer self)
              (fun n => QueryLLM.log (QueryLLM.EvAttempt n))
              (fun n => QueryLLM.log (QueryLLM.EvSleep n))
              (QueryLLM._generate remote self via filtered streaming
                 callbacks kw2)
              QueryLLM.requests_made
              (fun e => Py.isinstance e [Py.RetryError] = false))
    with (n := 1%Z) (w := w) (k := Z.to_nat (QueryLLM.max_retries self - 1))
    as (e & w' & Hloop & Hretried & Hnot & Hcnt); try done.
  { intros w0. by apply (_generate_fails remote self via filtered streaming
                           callbacks kw2 m w0). }
  rewrite Hloop, Hnot. exists e, w'. split; [done|]. split; [done|].
  rewrite Hcnt. lia.
Qed.

(** C1 at a concrete call: a default [ChatClaude] with a model name,
    against a service that is always rate limited, raises after its
    ten attempts. *)
Lemma exhaustion_propagates_the_error_witness :
  exists e w',
    QueryLLM.generate QueryLLM.rate_limited
      (QueryLLM.chat_claude (Some (Py.txt "claude-3")))
      (inr [QueryLLM.user_says (Py.txt "hi")]) true None ∅ QueryLLM.start
    = (Py.Raise e, w')
    /\ QueryLLM.retryable (QueryLLM.chat_claude (Some (Py.txt "claude-3"))) e
    /\ QueryLLM.requests_made w' = 10%nat.
Proof.
  apply (exhaustion_propagates_the_error QueryLLM.rate_limited
           (QueryLLM.chat_claude (Some (Py.txt "claude-3")))
           QueryLLM.sync_client _ true None ∅ QueryLLM.start
           (Py.txt "claude-3")).
  - intros k rq. split; exists (Py.Exn Py.RateLimitError []);
      (split; [reflexivity | split; reflexivity]).
  - reflexivity.
  - discriminate.
  - repeat split; reflexivity.
Defined.

(** The same call, evaluated: the caller receives [RateLimitError], not
    the empty string, and the log shows ten attempts with nine waits. *)
Lemma exhaustion_example :
  let out :=
    QueryLLM.generate QueryLLM.rate_limited
      (QueryLLM.chat_claude (Some (Py.txt "claude-3")))
      (inr [QueryLLM.user_says (Py.txt "hi")]) true None ∅ QueryLLM.start in
  fst out = Py.Raise (Py.Exn Py.RateLimitError [])
  /\ fst out <> Py.Ret []
  /\ length (List.filter QueryLLM.is_attempt (QueryLLM.trace (snd out))) = 10%nat
  /\ length (List.filter QueryLLM.is_sleep (QueryLLM.trace (snd out))) = 9%nat.
Proof. vm_compute. repeat split; discriminate. Qed.

(** C9, on the code.  In a streaming call with at least one registered
    callback, the first delta that arrives makes [_generate] raise
    [NameError]: the argument of [on_llm_new_token] is the name
    [delta], which nothing binds.  No callback is invoked (the log gains
    the request and no token event) and no text is returned. *)
Theorem streaming_callbacks_raise_name_error (remote : QueryLLM.service)
    (self : QueryLLM.llm) (via : QueryLLM.client)
    (messages : list Turns.message) (kwargs : gmap string Py.pyval)
    (w : QueryLLM.world) (m : Py.text)
    (callback : nat) (callbacks : list nat)
    (delta : Py.text) (deltas : list Py.text) (failure : option Py.exn) :
  let rq := {| QueryLLM.rq_client := via;
               QueryLLM.rq_endpoint := QueryLLM.messages_stream;
               QueryLLM.rq_model := m;
               QueryLLM.rq_messages := messages;
               QueryLLM.rq_kwargs := kwargs |} in
  QueryLLM.model self = Some m -> m <> [] ->
  QueryLLM.no_keyword_clash kwargs ->
  QueryLLM.stream_reply remote (QueryLLM.requests_made w) rq
  = Py.Ret (delta :: deltas, failure) ->
  QueryLLM._generate remote self via messages true
    (Some (callback :: callbacks)) kwargs w
  = (Py.Raise QueryLLM.name_error_delta, QueryLLM.sent rq w).
Proof.
  intros rq Hmodel Hm Hkw Hreply. unfold QueryLLM._generate.
  destruct (model_set_name self m Hmodel Hm) as [-> ->].
  rewrite no_clash_stream by done. fold rq. rewrite Hreply.
  cbn [QueryLLM.consume].
  by rewrite (notify_raises _ _ _ _ (delta_unbound self _ _ _)).
Qed.

(** C9 at a concrete call: two deltas, one callback. *)
Lemma streaming_callbacks_raise_name_error_witness :
  let rq := {| QueryLLM.rq_client := QueryLLM.sync_client;
               QueryLLM.rq_endpoint := QueryLLM.messages_stream;
               QueryLLM.rq_model := Py.txt "claude-3";
               QueryLLM.rq_messages := [QueryLLM.user_says (Py.txt "hi")];
               QueryLLM.rq_kwargs := ∅ |} in
  QueryLLM._generate (QueryLLM.replies [Py.txt "Hel"; Py.txt "lo"])
    (QueryLLM.chat_claude (Some (Py.txt "claude-3"))) QueryLLM.sync_client
    [QueryLLM.user_says (Py.txt "hi")] true (Some [7%nat]) ∅ QueryLLM.start
  = (Py.Raise QueryLLM.name_error_delta, QueryLLM.sent rq QueryLLM.start).
Proof.
  apply (streaming_callbacks_raise_name_error
           (QueryLLM.replies [Py.txt "Hel"; Py.txt "lo"])
           (QueryLLM.chat_claude (Some (Py.txt "claude-3")))
           QueryLLM.sync_client [QueryLLM.user_says (Py.txt "hi")] ∅
           QueryLLM.start (Py.txt "claude-3") 7%nat [] (Py.txt "Hel")
           [Py.txt "lo"] None).
  - reflexivity.
  - discriminate.
  - repeat split; reflexivity.
  - reflexivity.
Defined.


(** ** What a call sends *)
Section RequestFacts.
Import Py Turns Tenacity QueryLLM.
Variable remote : service.
Variable self : llm.

Lemma grows_refl P w : grows P w w.
Proof. exists []. by rewrite app_nil_r. Qed.

Lemma grows_trans P w1 w2 w3 : grows P w1 w2 -> grows P w2 w3 -> grows P w1 w3.
Proof.
  intros (e1 & H1 & F1) (e2 & H2 & F2). exists (e1 ++ e2).
  rewrite H2, H1, app_assoc. split; [done|]. by apply Forall_app.
Qed.

Lemma grows_log P ev w : P ev -> grows P w (log ev w).
Proof. intros H. exists [ev]. split; [done|]. by constructor. Qed.

Lemma grows_sent P rq w : P (EvRequest rq) -> grows P w (sent rq w).
Proof. intros H. exists [EvRequest rq]. split; [done|]. by constructor. Qed.

Variable P : event -> Prop.
Hypothesis P_token : forall c t, P (EvNewToken c t).

Lemma notify_grows scope callbacks w :
  grows P w (snd (notify scope callbacks w)).
Proof.
  revert w. induction callbacks as [|c cs IH]; intros w; simpl.
  - apply grows_refl.
  - destruct (load_name scope "delta"); simpl; [|apply grows_refl].
    eapply grows_trans; [|apply IH]. by apply grows_log.
Qed.

Lemma consume_grows model_name callbacks deltas failure full_response w :
  grows P w
    (snd (consume self model_name callbacks deltas failure full_response w)).
Proof.
  revert full_response w.
  induction deltas as [|d ds IH]; intros full_response w; cbn [consume].
  - destruct failure; apply grows_refl.
  - destruct callbacks as [[|c cs]|]; try apply IH.
    match goal with |- context [notify ?sc ?cbs w] =>
      pose proof (notify_grows sc cbs w) as Hn;
      destruct (notify sc cbs w) as [[u|e] w1] end; simpl in *; [|done].
    eapply grows_trans; [exact Hn|apply IH].
Qed.

End RequestFacts.

(** * The structured-output enforcer *)
Section EnforcerFacts.
Import Py Json JsonRecovery Turns ChatLLM.
Variable float_repr : text -> text.
Variable try_parse_json_object : text -> res json.
Variable backend :
  nat -> text -> LLMInput -> res (option text * option (list message)).
Variable configuration : ClaudeConfiguration.
Variable input : text.
Variable kwargs : LLMInput.

Local Abbreviation gen :=
  (generate float_repr try_parse_json_object backend configuration input
     kwargs).
Local Abbreviation while_invalid :=
  (retry_while float_repr try_parse_json_object backend configuration input
     kwargs).

(** One turn of the [while] loop. *)
Lemma retry_while_unfold (result : LLMOutput) (retry : Z) (w : world) :
  while_invalid result retry w
  = if is_valid kwargs (json_ result) then (Ret result, w)
    else if Z_lt_dec retry _MAX_GENERATION_RETRIES then
      match gen retry w with
      | (Raise e, w1) => (Raise e, w1)
      | (Ret result', w1) => while_invalid result' (retry + 1) w1
      end
    else (Ret result, w).
Proof.
  simp retry_while. destruct (is_valid kwargs (json_ result)); simpl; [done|].
  destruct (Z_lt_dec retry _); simpl; [|done].
  by destruct (gen retry w) as [[r|e] w1].
Qed.

(** Every attempt makes exactly one invocation, under the name of the
    attempt and with the model of the attempt. *)
Lemma generate_logs (k : Z) (w : world) :
  exists i, snd (gen k w) = w ++ [i]
            /\ attempt_of (call_name_base kwargs) k
                 (model_of_attempt configuration kwargs k) i.
Proof.
  unfold generate, model_of_attempt.
  set (kw := set_name _ _).
  assert (Hkw : name kw = Some (call_name_base kwargs ++ txt "@" ++ str_of_Z k)
                /\ model kw = model_of_attempt configuration kwargs k).
  { subst kw. unfold model_of_attempt. split; [done|].
    destruct (k >? 0)%Z; [|done].
    destruct (model_alt configuration) as [a|]; [|done].
    by destruct (text_eqb a []). }
  destruct (model_supports_json configuration).
  - unfold _native_json, _invoke.
    eexists. split.
    + destruct (backend _ _ _) as [[o h]|e]; [|done].
      by destruct (try_parse_json_object _).
    + done.
  - unfold _manual_json, _invoke.
    eexists. split.
    + destruct (backend _ _ _) as [[o h]|e]; [|done].
      by destruct (clean_up_json _ _).
    + done.
Qed.
End EnforcerFacts.

(** What does hold of a returned result: its [json] field is not
    [None], and the caller's predicate, when there is one, accepted
    it. *)
Lemma returned_result_is_valid (float_repr : Py.text -> Py.text)
    (try_parse_json_object : Py.text -> Py.res Json.json)
    (backend : nat -> Py.text -> ChatLLM.LLMInput ->
               Py.res (option Py.text * option (list Turns.message)))
    (configuration : ChatLLM.ClaudeConfiguration)
    (input : Py.text) (kwargs : ChatLLM.LLMInput) (w w' : ChatLLM.world)
    (r : ChatLLM.LLMOutput) :
  ChatLLM._invoke_json float_repr try_parse_json_object backend configuration
    input kwargs w = (Py.Ret r, w') ->
  exists v, ChatLLM.json_ r = Some v
            /\ ChatLLM.response_valid kwargs v = true.
Proof.
  unfold ChatLLM._invoke_json.
  destruct (ChatLLM.generate _ _ _ _ _ _ _ _) as [[r0|e0] w1]; [|done].
  destruct (ChatLLM.retry_while _ _ _ _ _ _ _ _ _) as [[r1|e1] w2]; [|done].
  destruct (ChatLLM.is_valid kwargs (ChatLLM.json_ r1)) eqn:Hv; [|done].
  intros [= <- <-]. unfold ChatLLM.is_valid in Hv.
  destruct (ChatLLM.json_ r1) as [v|]; [|done]. by exists v.
Qed.

(** C2, on the code.  In manual mode, when the cleaned output of the
    first attempt does not parse ([try_parse_json_object] raises
    [TypeError] or [JSONDecodeError]), [_manual_json] answers with
    the empty string as [json], which is not [None]; unless the caller's predicate
    rejects the empty string (no predicate rejects nothing),
    [_invoke_json] returns that result after a single attempt: a
    returned result whose [json] field stands for a failed parse. *)
Theorem failed_parse_is_returned (float_repr : Py.text -> Py.text)
    (try_parse_json_object : Py.text -> Py.res Json.json)
    (backend : nat -> Py.text -> ChatLLM.LLMInput ->
               Py.res (option Py.text * option (list Turns.message)))
    (configuration : ChatLLM.ClaudeConfiguration)
    (input : Py.text) (kwargs : ChatLLM.LLMInput) (w : ChatLLM.world)
    (raw : option Py.text) (history : option (list Turns.message))
    (cleaned : Py.text) (e : Py.exn) :
  let kwargs0 :=
    ChatLLM.set_name kwargs
      (ChatLLM.call_name_base kwargs ++ Py.txt "@" ++ Py.str_of_Z 0) in
  ChatLLM.model_supports_json configuration = false ->
  ChatLLM.response_valid kwargs (Json.JStr []) = true ->
  backend (length w) input kwargs0 = Py.Ret (raw, history) ->
  JsonRecovery.clean_up_json float_repr (Py.str_or raw []) = Py.Ret cleaned ->
  try_parse_json_object cleaned = Py.Raise e ->
  Py.isinstance e [Py.TypeError; Py.JSONDecodeError] = true ->
  ChatLLM._invoke_json float_repr try_parse_json_object backend configuration
    input kwargs w
  = (Py.Ret (ChatLLM.failed_parse (default [] history)),
     w ++ [{| ChatLLM.inv_input := input; ChatLLM.inv_kwargs := kwargs0 |}]).
Proof.
  intros kwargs0 Hmanual Hvalid Hback Hclean Hparse Hcaught.
  unfold ChatLLM._invoke_json, ChatLLM.generate.
  rewrite Hmanual. cbn [Z.gtb Z.compare].
  unfold ChatLLM._manual_json, ChatLLM._invoke. fold kwargs0.
  rewrite Hback, Hclean, Hparse. cbn [Py.bind Py.try_except].
  rewrite Hcaught.
  rewrite retry_while_unfold. cbn [ChatLLM.failed_parse ChatLLM.json_
    ChatLLM.is_valid]. rewrite Hvalid. cbn [ChatLLM.json_ ChatLLM.is_valid].
  by rewrite Hvalid.
Qed.

(** C2 at a concrete call: no predicate, and the model answers in
    prose. *)
Lemma failed_parse_is_returned_witness :
  ChatLLM._invoke_json Json.literal_repr ChatLLM.try_parse_json_object_spec
    (ChatLLM.answers JsonRecovery.no_json_here)
    (ChatLLM.manual_with_fallback (Py.txt "claude-b")) (Py.txt "q")
    (ChatLLM.plain_kwargs (Py.txt "claude-a")) []
  = (Py.Ret (ChatLLM.failed_parse []),
     [{| ChatLLM.inv_input := Py.txt "q";
         ChatLLM.inv_kwargs :=
           ChatLLM.set_name (ChatLLM.plain_kwargs (Py.txt "claude-a"))
             (Py.txt "unknown@0") |}]).
Proof.
  apply (failed_parse_is_returned Json.literal_repr
           ChatLLM.try_parse_json_object_spec
           (ChatLLM.answers JsonRecovery.no_json_here)
           (ChatLLM.manual_with_fallback (Py.txt "claude-b")) (Py.txt "q")
           (ChatLLM.plain_kwargs (Py.txt "claude-a")) []
           (Some JsonRecovery.no_json_here) None JsonRecovery.no_json_here
           Json.JSONDecodeError_exn).
  - reflexivity.
  - reflexivity.
  - reflexivity.
  - reflexivity.
  - reflexivity.
  - reflexivity.
Defined.


(** * The decoder and white space *)
Section DecoderFacts.
Import Py Json Re JsonRecovery.


Lemma startswith_app (s p : text) :
  startswith s p = true -> s = p ++ drop (length p) s.
Proof.
  revert s. induction p as [|c p IH]; intros s H; [by rewrite drop_0|].
  destruct s as [|x s]; simpl in H; [done|].
  apply andb_true_iff in H as [Hx Hs]. apply N.eqb_eq in Hx. subst.
  simpl. f_equal. by apply IH.
Qed.

Lemma startswith_prefix (p r : text) : startswith (p ++ r) p = true.
Proof. induction p as [|c p IH]; [done|]. simpl. by rewrite N.eqb_refl. Qed.

Lemma replace_from_absent (old new s : text) :
  contains s old = false -> replace_from old new 0 s = s.
Proof.
  induction s as [|c s IH]; [done|]. cbn [contains replace_from].
  intros H. apply orb_false_iff in H as [H1 H2]. rewrite H1.
  f_equal. by apply IH.
Qed.

Lemma contains_absent_head (c : N) (p s : text) :
  Forall (fun x => x <> c) s -> contains s (c :: p) = false.
Proof.
  induction 1 as [|x s Hx Hs IH]; [done|]. cbn [contains startswith].
  rewrite IH, orb_false_r.
  by destruct (N.eqb_spec x c).
Qed.

Lemma replace_delete (c : N) (s : text) :
  replace s [c] [] = List.filter (fun x => negb (x =? c)) s.
Proof.
  unfold replace. induction s as [|x s IH]; [done|].
  cbn [replace_from startswith List.filter length].
  rewrite andb_true_r. destruct (x =? c); simpl; by rewrite IH.
Qed.

Lemma filter_absent (c : N) (s : text) :
  Forall (fun x => x <> c) s -> List.filter (fun x => negb (x =? c)) s = s.
Proof.
  induction 1 as [|x t Hx Ht IH]; [done|].
  simpl. destruct (N.eqb_spec x c); [done|]. simpl. by rewrite IH.
Qed.

Lemma unbreak_two (s : text) :
  List.filter (fun x => negb (x =? CR))
    (List.filter (fun x => negb (x =? LF)) s) = unbreak s.
Proof.
  unfold unbreak, is_line_break. induction s as [|x s IH]; [done|]. simpl.
  destruct (x =? LF) eqn:E1; simpl; [done|].
  destruct (x =? CR) eqn:E2; simpl; by rewrite IH.
Qed.

Lemma unbreak_app (a b : text) : unbreak (a ++ b) = unbreak a ++ unbreak b.
Proof. apply List.filter_app. Qed.

Lemma unbreak_no_backslash (s : text) : no_backslash s -> no_backslash (unbreak s).
Proof.
  unfold no_backslash, unbreak. intros H. rewrite Forall_forall in *.
  intros x Hx. apply list_elem_of_In, List.filter_In in Hx as [Hx _].
  apply H. by apply list_elem_of_In.
Qed.

(** The chain of replacements on a text without backslash. *)
Lemma strip_escapes_plain (s : text) :
  no_backslash s ->
  contains (unbreak s) [DQUOTE; ch "["; ch "{"] = false ->
  contains (unbreak s) [ch "}"; ch "]"; DQUOTE] = false ->
  strip_escapes s = strip (unbreak s).
Proof.
  intros Hb H1 H2. unfold strip_escapes. f_equal.
  assert (E1 : replace s [BSLASH; ch "n"] [] = s).
  { by apply replace_from_absent, contains_absent_head. }
  rewrite E1, !replace_delete, unbreak_two.
  assert (E2 : replace (unbreak s) [DQUOTE; ch "["; ch "{"] [ch "["; ch "{"]
               = unbreak s) by by apply replace_from_absent.
  rewrite E2.
  assert (E3 : replace (unbreak s) [ch "}"; ch "]"; DQUOTE] [ch "}"; ch "]"]
               = unbreak s) by by apply replace_from_absent.
  rewrite E3.
  by apply filter_absent, unbreak_no_backslash.
Qed.



Lemma skip_ws_split (s : text) :
  exists w, s = w ++ skip_ws s /\ all_ws w.
Proof.
  induction s as [|c s (w & Hs & Hw)];
    [exists []; split; [done|constructor]|]. simpl.
  destruct (is_ws c) eqn:Hc; [|exists []; split; [done|constructor]].
  exists (c :: w). split; [by rewrite Hs at 1|by constructor].
Qed.

Lemma skip_ws_head (s : text) (c : N) (r : text) :
  skip_ws s = c :: r -> is_ws c = false.
Proof.
  induction s as [|x s IH]; [done|]. simpl.
  destruct (is_ws x) eqn:Hx; [done|]. by intros [= -> ->].
Qed.

Lemma skip_ws_app (w x : text) : all_ws w -> skip_ws (w ++ x) = skip_ws x.
Proof. induction 1 as [|c w Hc Hw IH]; [done|]. simpl. by rewrite Hc. Qed.

Lemma skip_ws_id (c : N) (x : text) :
  is_ws c = false -> skip_ws (c :: x) = c :: x.
Proof. intros H. simpl. by rewrite H. Qed.

Lemma skip_ws_nil (r : text) : skip_ws r = [] -> all_ws r.
Proof.
  induction r as [|c r IH]; [constructor|]. simpl.
  destruct (is_ws c) eqn:Hc; [|done]. intros H.
  constructor; [done|by apply IH].
Qed.

Lemma all_ws_unbreak (w : text) : all_ws w -> all_ws (unbreak w).
Proof.
  unfold all_ws, unbreak. rewrite !Forall_forall. intros H x Hx.
  apply list_elem_of_In, List.filter_In in Hx as [Hx _].
  apply H. by apply list_elem_of_In.
Qed.

Lemma is_ws_isspace (c : N) : is_ws c = true -> isspace c = true.
Proof.
  unfold is_ws. rewrite !orb_true_iff, !N.eqb_eq.
  intros [[[-> | ->] | ->] | ->]; reflexivity.
Qed.

Lemma all_ws_isspace (w : text) :
  all_ws w -> Forall (fun c => isspace c = true) w.
Proof. intros H. eapply Forall_impl; [exact H|]. apply is_ws_isspace. Qed.

Lemma lstrip_app (w x : text) :
  Forall (fun c => isspace c = true) w -> lstrip (w ++ x) = lstrip x.
Proof. induction 1 as [|c w Hc Hw IH]; [done|]. simpl. by rewrite Hc. Qed.

Lemma lstrip_id (c : N) (x : text) :
  isspace c = false -> lstrip (c :: x) = c :: x.
Proof. intros H. simpl. by rewrite H. Qed.

(** Stripping a text whose core begins and ends with characters that
    are not white space. *)
Lemma strip_core (w1 core w2 : text) (c d : N) (t i : text) :
  Forall (fun c => isspace c = true) w1 ->
  Forall (fun c => isspace c = true) w2 ->
  core = c :: t -> isspace c = false ->
  core = i ++ [d] -> isspace d = false ->
  strip (w1 ++ core ++ w2) = core.
Proof.
  intros H1 H2 Hc Hcs Hd Hds. unfold strip, rstrip.
  rewrite lstrip_app by done.
  assert (lstrip (core ++ w2) = core ++ w2) as ->.
  { rewrite Hc. by apply lstrip_id. }
  rewrite rev_app_distr, lstrip_app by by apply Forall_rev.
  assert (lstrip (rev core) = rev core) as ->.
  { rewrite Hd, rev_app_distr. by apply lstrip_id. }
  apply rev_involutive.
Qed.



Lemma span_digits_spec (s d r : text) :
  span_digits s = (d, r) -> s = d ++ r /\ all_digits d /\ nd r = true.
Proof.
  revert d r. induction s as [|c s IH]; intros d r; cbn [span_digits].
  - intros [= <- <-]. by repeat constructor.
  - destruct (is_digit c) eqn:Hc.
    + destruct (span_digits s) as [d' r'] eqn:Hs. intros [= <- <-].
      destruct (IH d' r' eq_refl) as (-> & Hd & Hr).
      split; [done|]. split; [by constructor|done].
    + intros [= <- <-]. split; [done|]. split; [constructor|].
      cbn [nd]. by rewrite Hc.
Qed.

Lemma span_digits_app (d x : text) :
  all_digits d -> nd x = true -> span_digits (d ++ x) = (d, x).
Proof.
  induction 1 as [|c d Hc Hd IH]; intros Hx; cbn [app span_digits].
  - destruct x as [|c x]; [done|]. cbn [nd span_digits] in *.
    by destruct (is_digit c).
  - by rewrite Hc, IH.
Qed.

Lemma stops_nd (x : text) : stops x = true -> nd x = true.
Proof.
  destruct x as [|c x]; [done|]. cbn [stops nd]. by destruct (is_digit c).
Qed.

Lemma is_digit_neq (c d : N) : is_digit c = true -> is_digit d = false -> c <> d.
Proof. by intros H1 H2 ->; rewrite H1 in H2. Qed.

Lemma match_int_part_local (s ip s2 : text) :
  match_int_part s = Some (ip, s2) ->
  s = ip ++ s2
  /\ all_digits ip
  /\ (exists c t, ip = c :: t)
  /\ forall x, nd x = true -> match_int_part (ip ++ x) = Some (ip, x).
Proof.
  destruct s as [|c s]; [done|]. unfold match_int_part.
  destruct (N.eqb_spec c (ch "0")) as [->|Hc0].
  - intros [= <- <-]. split; [done|]. split; [by repeat constructor|].
    split; [by eexists _, _|]. by intros x _.
  - destruct (is_digit c) eqn:Hc; [|done].
    destruct (span_digits s) as [d r] eqn:Hs. intros [= <- <-].
    destruct (span_digits_spec _ _ _ Hs) as (-> & Hd & Hr).
    split; [done|]. split; [by constructor|]. split; [by eexists _, _|].
    intros x Hx. cbn [app]. destruct (N.eqb_spec c (ch "0")); [done|].
    by rewrite Hc, span_digits_app.
Qed.

Lemma match_frac_local (s fp s3 : text) :
  match_frac s = Some (fp, s3) ->
  s = fp ++ s3
  /\ (exists d, fp = ch "." :: d /\ all_digits d /\ d <> [])
  /\ forall x, nd x = true -> match_frac (fp ++ x) = Some (fp, x).
Proof.
  destruct s as [|c s]; [done|]. unfold match_frac.
  destruct (N.eqb_spec c (ch ".")) as [->|Hc]; [|done].
  destruct (span_digits s) as [d r] eqn:Hs.
  destruct (span_digits_spec _ _ _ Hs) as (-> & Hd & Hr).
  destruct d as [|d0 d]; [done|]. intros [= <- <-].
  split; [done|]. split; [by eexists|].
  intros x Hx. cbn [app]. rewrite N.eqb_refl.
  change (d0 :: d ++ x) with ((d0 :: d) ++ x).
  by rewrite span_digits_app.
Qed.

Lemma match_frac_none (x : text) :
  stops x = true -> match_frac x = None.
Proof.
  destruct x as [|c x]; [done|]. unfold stops, match_frac.
  destruct (N.eqb_spec c (ch ".")) as [->|Hc]; [|done].
  by rewrite orb_true_r.
Qed.

Lemma match_frac_none_e (c : N) (x : text) :
  is_e c = true -> match_frac (c :: x) = None.
Proof.
  unfold is_e. rewrite orb_true_iff, !N.eqb_eq. by intros [-> | ->].
Qed.

Lemma digits_numeric (d : text) : all_digits d -> Forall (fun c => numeric c = true) d.
Proof.
  intros H. eapply Forall_impl; [exact H|]. intros c Hc. unfold numeric.
  by rewrite Hc.
Qed.

Lemma digits_last (d : text) :
  all_digits d -> d <> [] -> exists i x, d = i ++ [x] /\ is_digit x = true.
Proof.
  intros Hd Hne. destruct d as [|c d _] using rev_ind; [done|].
  apply Forall_app in Hd as [_ Hx]. inversion Hx; subst. by eexists _, _.
Qed.

Lemma match_exp_local (s ep s4 : text) :
  match_exp s = Some (ep, s4) ->
  s = ep ++ s4
  /\ (exists c t, ep = c :: t /\ is_e c = true)
  /\ Forall (fun c => numeric c = true) ep
  /\ (exists i d, ep = i ++ [d] /\ is_digit d = true)
  /\ forall x, nd x = true -> match_exp (ep ++ x) = Some (ep, x).
Proof.
  destruct s as [|c s]; [done|]. unfold match_exp. fold (is_e c).
  destruct (is_e c) eqn:Hc; [|done].
  destruct s as [|sg s]; [done|].
  assert (Hnc : numeric c = true).
  { unfold numeric. rewrite Hc. by rewrite !orb_true_r. }
  destruct ((sg =? ch "-") || (sg =? ch "+")) eqn:Hsg.
  - destruct (span_digits s) as [d r] eqn:Hs.
    destruct (span_digits_spec _ _ _ Hs) as (-> & Hd & Hr).
    destruct d as [|d0 d]; [done|]. intros [= <- <-].
    split; [done|]. split; [by eexists _, _|].
    assert (Hnsg : numeric sg = true).
    { unfold numeric. apply orb_true_iff in Hsg as [-> | ->];
        by rewrite ?orb_true_r. }
    split; [constructor; [done|]; constructor; [done|];
            by apply digits_numeric|].
    split.
    { destruct (digits_last (d0 :: d) Hd) as (i & x & Hi & Hx); [done|].
      exists (c :: sg :: i), x. by rewrite Hi. }
    intros x Hx. cbn [app]. fold (is_e c). rewrite Hc, Hsg.
    change (d0 :: d ++ x) with ((d0 :: d) ++ x).
    by rewrite span_digits_app.
  - destruct (span_digits (sg :: s)) as [d r] eqn:Hs.
    destruct (span_digits_spec _ _ _ Hs) as (Hsplit & Hd & Hr).
    destruct d as [|d0 d]; [done|]. intros [= <- <-].
    injection Hsplit as -> ->.
    split; [done|]. split; [by eexists _, _|].
    split; [constructor; [done|by apply digits_numeric]|].
    split.
    { destruct (digits_last (d0 :: d) Hd) as (i & x & Hi & Hx); [done|].
      exists (c :: i), x. by rewrite Hi. }
    intros x Hx. cbn [app]. fold (is_e c). rewrite Hc, Hsg.
    change (d0 :: d ++ x) with ((d0 :: d) ++ x).
    by rewrite span_digits_app.
Qed.

Lemma match_exp_none (x : text) : stops x = true -> match_exp x = None.
Proof.
  destruct x as [|c x]; [done|]. cbn [stops].
  rewrite negb_true_iff, !orb_false_iff. intros [[[_ _] He] HE].
  unfold match_exp. by rewrite He, HE.
Qed.

Lemma numeric_unbreak (b : text) :
  Forall (fun c => numeric c = true) b -> unbreak b = b.
Proof.
  induction 1 as [|c b Hc Hb IH]; [done|]. unfold unbreak in *. simpl.
  rewrite IH.
  assert (is_line_break c = false) as ->; [|done].
  unfold is_line_break.
  destruct (N.eqb_spec c LF) as [->|]; [done|].
  by destruct (N.eqb_spec c CR) as [->|].
Qed.

Lemma number_after_sign_local (neg : bool) (s : text) (v : json) (r : text) :
  number_after_sign neg s = Found v r ->
  exists body,
    s = body ++ r
    /\ Forall (fun c => numeric c = true) body
    /\ (exists c t, body = c :: t /\ is_digit c = true)
    /\ (exists i d, body = i ++ [d] /\ is_digit d = true)
    /\ forall r', stops r' = true ->
                  number_after_sign neg (body ++ r') = Found v r'.
Proof.
  unfold number_after_sign.
  destruct (match_int_part s) as [[ip s2]|] eqn:Hip; [|done].
  destruct (match_int_part_local _ _ _ Hip) as (-> & Hipd & (c0 & t0 & Hc0) & Lip).
  assert (Hfirst : is_digit c0 = true).
  { subst ip. by inversion Hipd. }
  destruct (match_frac s2) as [[fp s3]|] eqn:Hfp;
    destruct (match_exp _) as [[ep s4]|] eqn:Hep.
  - destruct (match_frac_local _ _ _ Hfp) as (-> & (d & Hfpd & Hd & Hdne) & Lfp).
    destruct (match_exp_local _ _ _ Hep)
      as (-> & (ce & te & Hce & Hee) & Hepn & (i & x & Hi & Hx) & Lep).
    subst fp. intros [= <- <-].
    exists (ip ++ (ch "." :: d) ++ ep).
    split; [by rewrite <- !app_assoc|].
    split.
    { rewrite !Forall_app. split; [by apply digits_numeric|].
      split; [|done]. constructor; [done|by apply digits_numeric]. }
    split; [exists c0, (t0 ++ (ch "." :: d) ++ ep); by rewrite Hc0|].
    split; [exists (ip ++ (ch "." :: d) ++ i), x; by rewrite Hi, <- !app_assoc|].
    intros r' Hr'. rewrite <- !app_assoc.
    rewrite Lip by done.
    rewrite Lfp.
    2:{ rewrite Hce. cbn [app nd]. revert Hee. unfold is_e, is_digit.
        destruct (N.eqb_spec ce (ch "e")) as [->|]; [done|].
        by destruct (N.eqb_spec ce (ch "E")) as [->|]. }
    by rewrite Lep by by apply stops_nd.
  - destruct (match_frac_local _ _ _ Hfp) as (-> & (d & Hfpd & Hd & Hdne) & Lfp).
    subst fp. intros [= <- <-].
    exists (ip ++ (ch "." :: d)).
    split; [by rewrite <- !app_assoc|].
    split.
    { rewrite !Forall_app. split; [by apply digits_numeric|].
      constructor; [done|by apply digits_numeric]. }
    split; [exists c0, (t0 ++ (ch "." :: d)); by rewrite Hc0|].
    split.
    { destruct (digits_last d Hd Hdne) as (i & x & Hi & Hx).
      exists (ip ++ ch "." :: i), x. by rewrite Hi, <- !app_assoc. }
    intros r' Hr'. rewrite <- !app_assoc.
    rewrite Lip by done.
    rewrite Lfp by by apply stops_nd.
    by rewrite match_exp_none.
  - destruct (match_exp_local _ _ _ Hep)
      as (-> & (ce & te & -> & Hee) & Hepn & (i & x & Hi & Hx) & Lep).
    intros [= <- <-].
    exists (ip ++ ce :: te).
    split; [by rewrite <- !app_assoc|].
    split; [rewrite !Forall_app; split; [by apply digits_numeric|done]|].
    split; [exists c0, (t0 ++ ce :: te); by rewrite Hc0|].
    split; [exists (ip ++ i), x; by rewrite Hi, <- !app_assoc|].
    intros r' Hr'. rewrite <- !app_assoc.
    assert (Hnd : nd ((ce :: te) ++ r') = true).
    { cbn [app nd]. revert Hee. unfold is_e, is_digit.
      destruct (N.eqb_spec ce (ch "e")) as [->|]; [done|].
      by destruct (N.eqb_spec ce (ch "E")) as [->|]. }
    rewrite Lip by done.
    assert (match_frac ((ce :: te) ++ r') = None) as ->.
    { by apply match_frac_none_e. }
    by rewrite Lep by by apply stops_nd.
  - intros [= <- <-].
    exists ip. split; [done|]. split; [by apply digits_numeric|].
    split; [by exists c0, t0|].
    split.
    { apply digits_last; [done|]. by rewrite Hc0. }
    intros r' Hr'.
    rewrite Lip by by apply stops_nd.
    by rewrite match_frac_none, match_exp_none.
Qed.

(** What [match_number] reads is a literal of numeric characters that
    ends in a digit, and it reads the same literal in front of any
    rest that cannot continue a number. *)
Lemma match_number_local (s : text) (v : json) (r : text) :
  match_number s = Found v r ->
  exists body,
    s = body ++ r
    /\ Forall (fun c => numeric c = true) body
    /\ (exists c t, body = c :: t
          /\ (is_digit c = true
              \/ (c = ch "-" /\ exists d t', t = d :: t' /\ is_digit d = true)))
    /\ (exists i d, body = i ++ [d] /\ is_digit d = true)
    /\ forall r', stops r' = true -> match_number (body ++ r') = Found v r'.
Proof.
  destruct s as [|c s]; [done|]. unfold match_number.
  destruct (N.eqb_spec c (ch "-")) as [->|Hc]; intros H;
    destruct (number_after_sign_local _ _ _ _ H)
      as (body & Hs & Hn & (c0 & t0 & Hb & Hc0) & (i & x & Hi & Hx) & L).
  - exists (ch "-" :: body). rewrite Hs. split; [done|].
    split; [by constructor|].
    split; [eexists _, _; split; [done|]; right; split; [done|]; by eexists _, _|].
    split; [exists (ch "-" :: i), x; by rewrite Hi|].
    intros r' Hr'. cbn [app]. by apply L.
  - exists body. split; [done|]. split; [done|].
    split; [eexists _, _; split; [done|]; by left|].
    split; [by eexists _, _|].
    intros r' Hr'. rewrite Hb in *. cbn [app] in *.
    injection Hs as <- _.
    destruct (N.eqb_spec c (ch "-")); [done|]. by apply L.
Qed.



Lemma opening_not_ws (c : N) : opening c = true -> is_ws c = false.
Proof.
  unfold opening, is_digit, is_ws. intros H.
  destruct (N.eqb_spec c 32) as [->|]; [done|].
  destruct (N.eqb_spec c 9) as [->|]; [done|].
  destruct (N.eqb_spec c 10) as [->|]; [done|].
  by destruct (N.eqb_spec c 13) as [->|].
Qed.

Lemma not_ws_not_break (c : N) : is_ws c = false -> is_line_break c = false.
Proof.
  unfold is_ws, is_line_break. intros H.
  destruct (N.eqb_spec c LF) as [->|]; [done|].
  by destruct (N.eqb_spec c CR) as [->|].
Qed.

Lemma unbreak_cons (c : N) (x : text) :
  is_line_break c = false -> unbreak (c :: x) = c :: unbreak x.
Proof. intros H. unfold unbreak. cbn [List.filter]. by rewrite H. Qed.

Lemma skip_ws_decomp (s : text) (c : N) (r : text) :
  skip_ws s = c :: r ->
  exists w, s = w ++ c :: r /\ all_ws w /\ is_ws c = false.
Proof.
  intros H. destruct (skip_ws_split s) as (w & Hs & Hw).
  exists w. rewrite H in Hs. split; [done|]. split; [done|].
  by apply (skip_ws_head s c r).
Qed.

Lemma skip_ws_next (w : text) (c : N) (x : text) :
  all_ws w -> is_ws c = false -> skip_ws (unbreak w ++ c :: x) = c :: x.
Proof.
  intros Hw Hc. rewrite skip_ws_app by by apply all_ws_unbreak.
  by apply skip_ws_id.
Qed.

Lemma ws_stops (c : N) (x : text) : is_ws c = true -> stops (c :: x) = true.
Proof.
  unfold is_ws. rewrite !orb_true_iff, !N.eqb_eq.
  intros [[[-> | ->] | ->] | ->]; reflexivity.
Qed.

Lemma stops_after_ws (w : text) (c : N) (x : text) :
  all_ws w -> stops (c :: x) = true -> stops (unbreak w ++ c :: x) = true.
Proof.
  intros Hw Hc. apply all_ws_unbreak in Hw.
  destruct (unbreak w) as [|a u]; [done|].
  inversion Hw; subst. by apply ws_stops.
Qed.

Lemma skip_ws_head_ok (w b x : text) :
  all_ws w -> head_ok b -> skip_ws (unbreak w ++ b ++ x) = b ++ x.
Proof.
  intros Hw (c & t & -> & Hc). cbn [app].
  apply skip_ws_next; [done|]. by apply opening_not_ws.
Qed.

(** A string without backslash. *)
Lemma scanstring_plain (s acc str r : text) :
  no_backslash s -> scanstring s acc = Found str r ->
  exists body,
    s = body ++ DQUOTE :: r
    /\ unbreak body = body
    /\ forall r', scanstring (body ++ DQUOTE :: r') acc = Found str r'.
Proof.
  revert acc. induction s as [|c s IH]; intros acc Hb; [done|].
  inversion Hb as [|? ? Hc Hs]; subst. cbn [scanstring].
  destruct (N.eqb_spec c DQUOTE) as [->|Hq].
  - intros [= <- <-]. exists []. by split.
  - destruct (N.eqb_spec c BSLASH) as [->|_]; [done|].
    destruct (N.ltb_spec c 32) as [|Hge]; [done|].
    intros H. destruct (IH _ Hs H) as (body & -> & Hu & L).
    exists (c :: body). split; [done|]. split.
    + rewrite unbreak_cons, Hu; [done|]. unfold is_line_break.
      destruct (N.eqb_spec c LF) as [->|]; [done|].
      by destruct (N.eqb_spec c CR) as [->|].
    + intros r'. cbn [app scanstring].
      destruct (N.eqb_spec c DQUOTE); [done|].
      destruct (N.eqb_spec c BSLASH) as [->|]; [by inversion Hb|].
      destruct (N.ltb_spec c 32); [lia|]. apply L.
Qed.



Ltac nobs :=
  unfold no_backslash in *;
  repeat match goal with
         | H : Forall _ (_ ++ _) |- _ => apply Forall_app in H as [? ?]
         | H : Forall _ (_ :: _) |- _ => apply Forall_cons in H as [? ?]
         end;
  repeat first [assumption | apply Forall_cons_2 | apply Forall_app_2
               | apply Forall_nil_2].

Ltac eval_chars :=
  repeat match goal with
         | |- context [N.eqb ?x ?y] =>
             let v := eval vm_compute in (N.eqb x y) in
             lazymatch v with
             | true => change (N.eqb x y) with true
             | false => change (N.eqb x y) with false
             end
         end;
  cbv beta iota.
Ltac norm := repeat (rewrite <- app_assoc || cbn [app]).
Ltac lens := norm; repeat (rewrite length_app || cbn [length]); lia.

Lemma stops_delim (c : N) (x : text) :
  c = ch "," \/ c = ch "]" \/ c = ch "}" -> stops (c :: x) = true.
Proof. by intros [-> | [-> | ->]]. Qed.

Lemma head_ok_cons (c : N) (b : text) : opening c = true -> head_ok (c :: b).
Proof. intros H. by exists c, b. Qed.

Lemma last_ok_snoc (b : text) (d : N) : closing d = true -> last_ok (b ++ [d]).
Proof. intros H. by exists b, d. Qed.

Lemma last_ok_app (a b : text) : last_ok b -> last_ok (a ++ b).
Proof. intros (i & d & -> & H). exists (a ++ i), d. by rewrite app_assoc. Qed.

Lemma last_ok_cons (c : N) (b : text) : last_ok b -> last_ok (c :: b).
Proof. apply (last_ok_app [c]). Qed.

Lemma items_step (f : nat) :
  scan_local f -> items_local f -> items_local (S f).
Proof.
  intros IHs IHi s acc v r Hb. cbn [parse_items].
  destruct (scan_once f s) as [v1 r1| |] eqn:Hv1; [|done..].
  destruct (IHs _ _ _ Hb Hv1) as (b1 & -> & Hh1 & Hl1 & L1).
  destruct (skip_ws r1) as [|c2 r2] eqn:Hr1; [done|].
  destruct (skip_ws_decomp _ _ _ Hr1) as (w1 & -> & Hw1 & Hc2).
  destruct (N.eqb_spec c2 (ch "]")) as [->|Hne].
  - intros [= <- <-].
    exists (b1 ++ w1 ++ [ch "]"]). split; [by norm|].
    rewrite !unbreak_app.
    split; [by destruct Hh1 as (c & t & -> & Hc); exists c, (t ++ unbreak w1 ++ unbreak [ch "]"])|].
    split; [by apply last_ok_app, last_ok_app; exists [], (ch "]")|].
    intros r' g Hg. destruct g as [|g]; [lia|]. cbn [parse_items].
    change (unbreak [ch "]"]) with [ch "]"] in *.
    norm.
    rewrite (L1 (unbreak w1 ++ ch "]" :: r') g).
    + rewrite skip_ws_next by done. by eval_chars.
    + apply stops_after_ws; [done|]. apply stops_delim. tauto.
    + revert Hg. lens.
  - destruct (N.eqb_spec c2 (ch ",")) as [->|]; [|done].
    intros Hrest.
    destruct (skip_ws_split r2) as (w2 & Hr2 & Hw2).
    assert (Hb2 : no_backslash (skip_ws r2)).
    { rewrite Hr2 in Hb. nobs. }
    destruct (IHi _ _ _ _ Hb2 Hrest) as (b2 & Hs2 & Hh2 & Hl2 & L2).
    exists (b1 ++ w1 ++ ch "," :: w2 ++ b2).
    split.
    { rewrite Hr2, Hs2. by norm. }
    rewrite !unbreak_app, unbreak_cons, unbreak_app by done.
    split; [by destruct Hh1 as (c & t & -> & Hc); eexists c, _|].
    split; [by apply last_ok_app, last_ok_app, last_ok_cons, last_ok_app|].
    intros r' g Hg. destruct g as [|g]; [lia|]. cbn [parse_items].
    norm.
    rewrite (L1 (unbreak w1 ++ ch "," :: unbreak w2 ++ unbreak b2 ++ r') g).
    + rewrite skip_ws_next by done. eval_chars.
      rewrite skip_ws_head_ok by done.
      apply L2. revert Hg. lens.
    + apply stops_after_ws; [done|]. apply stops_delim. tauto.
    + revert Hg. lens.
Qed.

Lemma members_step (f : nat) :
  scan_local f -> members_local f -> members_local (S f).
Proof.
  intros IHs IHm s acc v r Hb. cbn [parse_members].
  destruct s as [|c s]; [done|].
  destruct (N.eqb_spec c DQUOTE) as [->|]; [|done].
  destruct (scanstring s []) as [key r1| |] eqn:Hkey; [|done..].
  assert (Hbs : no_backslash s) by nobs.
  destruct (scanstring_plain _ _ _ _ Hbs Hkey) as (kb & -> & Hkb & Lk).
  destruct (skip_ws r1) as [|c2 r2] eqn:Hr1; [done|].
  destruct (skip_ws_decomp _ _ _ Hr1) as (w1 & -> & Hw1 & Hc2).
  destruct (N.eqb_spec c2 (ch ":")) as [->|]; [|done].
  destruct (skip_ws_split r2) as (w2 & Hr2 & Hw2).
  assert (Hb2 : no_backslash (skip_ws r2)).
  { rewrite Hr2 in Hb. nobs. }
  destruct (scan_once f (skip_ws r2)) as [v1 r3| |] eqn:Hv1; [|done..].
  destruct (IHs _ _ _ Hb2 Hv1) as (vb & Hvb & Hhv & Hlv & Lv).
  destruct (skip_ws r3) as [|c4 r4] eqn:Hr3; [done|].
  destruct (skip_ws_decomp _ _ _ Hr3) as (w3 & -> & Hw3 & Hc4).
  destruct (N.eqb_spec c4 (ch "}")) as [->|Hne].
  - intros [= <- <-].
    exists (DQUOTE :: kb ++ DQUOTE :: w1 ++ ch ":" :: w2 ++ vb ++ w3 ++ [ch "}"]).
    split; [rewrite Hr2, Hvb; by norm|].
    rewrite unbreak_cons, !unbreak_app, unbreak_cons, !unbreak_app, unbreak_cons,
      !unbreak_app, Hkb by done.
    change (unbreak [ch "}"]) with [ch "}"].
    split; [by apply head_ok_cons|].
    split.
    { apply last_ok_cons, last_ok_app, last_ok_cons, last_ok_app, last_ok_cons,
        last_ok_app, last_ok_app, last_ok_app. by exists [], (ch "}"). }
    intros r' g Hg. destruct g as [|g]; [lia|]. norm. cbn [parse_members].
    rewrite N.eqb_refl, Lk, skip_ws_next by done. eval_chars.
    rewrite skip_ws_head_ok by done.
    rewrite (Lv (unbreak w3 ++ ch "}" :: r') g).
    + rewrite skip_ws_next by done. by eval_chars.
    + apply stops_after_ws; [done|]. apply stops_delim. tauto.
    + revert Hg. lens.
  - destruct (N.eqb_spec c4 (ch ",")) as [->|]; [|done].
    intros Hrest.
    destruct (skip_ws_split r4) as (w4 & Hr4 & Hw4).
    assert (Hb4 : no_backslash (skip_ws r4)).
    { rewrite Hvb in Hb2. rewrite Hr4 in Hb2. nobs. }
    destruct (IHm _ _ _ _ Hb4 Hrest) as (mb & Hmb & Hhm & Hlm & Lm).
    exists (DQUOTE :: kb ++ DQUOTE :: w1 ++ ch ":" :: w2 ++ vb ++ w3
              ++ ch "," :: w4 ++ mb).
    split; [rewrite Hr2, Hvb, Hr4, Hmb; by norm|].
    rewrite unbreak_cons, !unbreak_app, unbreak_cons, !unbreak_app, unbreak_cons,
      !unbreak_app, unbreak_cons, !unbreak_app, Hkb by done.
    split; [by apply head_ok_cons|].
    split.
    { by apply last_ok_cons, last_ok_app, last_ok_cons, last_ok_app, last_ok_cons,
        last_ok_app, last_ok_app, last_ok_app, last_ok_cons, last_ok_app. }
    intros r' g Hg. destruct g as [|g]; [lia|]. norm. cbn [parse_members].
    rewrite N.eqb_refl, Lk, skip_ws_next by done. eval_chars.
    rewrite skip_ws_head_ok by done.
    rewrite (Lv (unbreak w3 ++ ch "," :: unbreak w4 ++ unbreak mb ++ r') g).
    + rewrite skip_ws_next by done. eval_chars.
      rewrite skip_ws_head_ok by done.
      apply Lm. revert Hg. lens.
    + apply stops_after_ws; [done|]. apply stops_delim. tauto.
    + revert Hg. lens.
Qed.

Lemma digit_eqb (c k : N) :
  is_digit c = true -> is_digit k = false -> (c =? k) = false.
Proof.
  intros Hc Hk. destruct (N.eqb_spec c k) as [->|]; [|done].
  by rewrite Hc in Hk.
Qed.

Lemma scan_once_constants (g : nat) (r' : text) :
  scan_once (S g) (txt "null" ++ r') = Found JNull r'
  /\ scan_once (S g) (txt "true" ++ r') = Found (JBool true) r'
  /\ scan_once (S g) (txt "false" ++ r') = Found (JBool false) r'
  /\ scan_once (S g) (txt "NaN" ++ r') = Found JNaN r'
  /\ scan_once (S g) (txt "Infinity" ++ r') = Found (JInf false) r'
  /\ scan_once (S g) (txt "-Infinity" ++ r') = Found (JInf true) r'.
Proof. repeat split; reflexivity. Qed.

(** In front of a number literal, [scan_once] comes to
    [match_number]. *)
Lemma scan_once_number (g : nat) (c : N) (t x : text) :
  is_digit c = true
  \/ (c = ch "-" /\ exists d t', t = d :: t' /\ is_digit d = true) ->
  scan_once (S g) (c :: t ++ x) = match_number (c :: t ++ x).
Proof.
  intros [Hc | (-> & d & t' & -> & Hd)]; cbn [scan_once startswith txt app].
  - rewrite !(digit_eqb c) by done. done.
  - eval_chars. rewrite !(digit_eqb d) by done. by eval_chars.
Qed.

Lemma head_ok_inv (c : N) (r body x : text) :
  c :: r = body ++ x -> head_ok (unbreak body) -> is_ws c = false ->
  exists t, body = c :: t /\ unbreak body = c :: unbreak t.
Proof.
  intros Hs (c' & t' & Hu & _) Hc.
  destruct body as [|b body]; [done|]. injection Hs as <- ->.
  exists body. split; [done|]. by apply unbreak_cons, not_ws_not_break.
Qed.

Lemma scan_step (f : nat) :
  scan_local f -> members_local f -> items_local f -> scan_local (S f).
Proof.
  intros IHs IHm IHi s v r Hb. cbn [scan_once].
  destruct s as [|c r0]; [done|].
  assert (Hb0 : no_backslash r0) by nobs.
  destruct (N.eqb_spec c DQUOTE) as [->|Hq].
  { (* a string *)
    destruct (scanstring r0 []) as [str rest| |] eqn:Hstr; [|done..].
    intros [= <- <-].
    destruct (scanstring_plain _ _ _ _ Hb0 Hstr) as (sb & -> & Hsb & Ls).
    exists (DQUOTE :: sb ++ [DQUOTE]). split; [by norm|].
    rewrite unbreak_cons, unbreak_app, Hsb by done.
    change (unbreak [DQUOTE]) with [DQUOTE].
    split; [by apply head_ok_cons|].
    split; [by apply last_ok_cons, last_ok_snoc|].
    intros r' g _ Hg. destruct g as [|g]; [lia|]. norm. cbn [scan_once].
    by rewrite N.eqb_refl, Ls. }
  destruct (N.eqb_spec c (ch "{")) as [->|Hbrace].
  { (* an object *)
    destruct (skip_ws r0) as [|c1 r1] eqn:Hr0; [done|].
    destruct (skip_ws_decomp _ _ _ Hr0) as (w & -> & Hw & Hc1).
    destruct (N.eqb_spec c1 (ch "}")) as [->|Hne].
    - intros [= <- <-].
      exists (ch "{" :: w ++ [ch "}"]). split; [by norm|].
      rewrite unbreak_cons, unbreak_app by done.
      change (unbreak [ch "}"]) with [ch "}"].
      split; [by apply head_ok_cons|].
      split; [by apply last_ok_cons, last_ok_snoc|].
      intros r' g _ Hg. destruct g as [|g]; [lia|]. norm. cbn [scan_once].
      eval_chars. rewrite skip_ws_next by done. by eval_chars.
    - intros Hm.
      assert (Hb1 : no_backslash (c1 :: r1)) by nobs.
      destruct (IHm _ _ _ _ Hb1 Hm) as (mb & Hmb & Hhm & Hlm & Lm).
      destruct (head_ok_inv _ _ _ _ Hmb Hhm Hc1) as (t & Ht & Hut).
      exists (ch "{" :: w ++ mb). split; [rewrite Hmb; by norm|].
      rewrite unbreak_cons, unbreak_app by done.
      split; [by apply head_ok_cons|].
      split; [by apply last_ok_cons, last_ok_app|].
      intros r' g _ Hg. destruct g as [|g]; [lia|]. norm. cbn [scan_once].
      eval_chars. rewrite skip_ws_head_ok by done.
      rewrite Hut. cbn [app].
      destruct (N.eqb_spec c1 (ch "}")); [done|].
      rewrite app_comm_cons, <- Hut. apply Lm. revert Hg. lens. }
  destruct (N.eqb_spec c (ch "[")) as [->|Hbracket].
  { (* an array *)
    destruct (skip_ws r0) as [|c1 r1] eqn:Hr0; [done|].
    destruct (skip_ws_decomp _ _ _ Hr0) as (w & -> & Hw & Hc1).
    destruct (N.eqb_spec c1 (ch "]")) as [->|Hne].
    - intros [= <- <-].
      exists (ch "[" :: w ++ [ch "]"]). split; [by norm|].
      rewrite unbreak_cons, unbreak_app by done.
      change (unbreak [ch "]"]) with [ch "]"].
      split; [by apply head_ok_cons|].
      split; [by apply last_ok_cons, last_ok_snoc|].
      intros r' g _ Hg. destruct g as [|g]; [lia|]. norm. cbn [scan_once].
      eval_chars. rewrite skip_ws_next by done. by eval_chars.
    - intros Hi.
      assert (Hb1 : no_backslash (c1 :: r1)) by nobs.
      destruct (IHi _ _ _ _ Hb1 Hi) as (ib & Hib & Hhi & Hli & Li).
      destruct (head_ok_inv _ _ _ _ Hib Hhi Hc1) as (t & Ht & Hut).
      exists (ch "[" :: w ++ ib). split; [rewrite Hib; by norm|].
      rewrite unbreak_cons, unbreak_app by done.
      split; [by apply head_ok_cons|].
      split; [by apply last_ok_cons, last_ok_app|].
      intros r' g _ Hg. destruct g as [|g]; [lia|]. norm. cbn [scan_once].
      eval_chars. rewrite skip_ws_head_ok by done.
      rewrite Hut. cbn [app].
      destruct (N.eqb_spec c1 (ch "]")); [done|].
      rewrite app_comm_cons, <- Hut. apply Li. revert Hg. lens. }
  (* the constants *)
  pose proof (fun g r' => scan_once_constants g r') as Hconst.
  destruct (startswith (c :: r0) (txt "null")) eqn:E1.
  { intros [= <- <-]. exists (txt "null").
    split; [by apply startswith_app in E1|].
    split; [by eexists _, _|]. split; [by exists (txt "nul"), (ch "l")|].
    intros r' g _ Hg. destruct g as [|g]; [lia|]. apply Hconst. }
  destruct (startswith (c :: r0) (txt "true")) eqn:E2.
  { intros [= <- <-]. exists (txt "true").
    split; [by apply startswith_app in E2|].
    split; [by eexists _, _|]. split; [by exists (txt "tru"), (ch "e")|].
    intros r' g _ Hg. destruct g as [|g]; [lia|]. apply Hconst. }
  destruct (startswith (c :: r0) (txt "false")) eqn:E3.
  { intros [= <- <-]. exists (txt "false").
    split; [by apply startswith_app in E3|].
    split; [by eexists _, _|]. split; [by exists (txt "fals"), (ch "e")|].
    intros r' g _ Hg. destruct g as [|g]; [lia|]. apply Hconst. }
  destruct (startswith (c :: r0) (txt "NaN")) eqn:E4.
  { intros [= <- <-]. exists (txt "NaN").
    split; [by apply startswith_app in E4|].
    split; [by eexists _, _|]. split; [by exists (txt "Na"), (ch "N")|].
    intros r' g _ Hg. destruct g as [|g]; [lia|]. apply Hconst. }
  destruct (startswith (c :: r0) (txt "Infinity")) eqn:E5.
  { intros [= <- <-]. exists (txt "Infinity").
    split; [by apply startswith_app in E5|].
    split; [by eexists _, _|]. split; [by exists (txt "Infinit"), (ch "y")|].
    intros r' g _ Hg. destruct g as [|g]; [lia|]. apply Hconst. }
  destruct (startswith (c :: r0) (txt "-Infinity")) eqn:E6.
  { intros [= <- <-]. exists (txt "-Infinity").
    split; [by apply startswith_app in E6|].
    split; [by eexists _, _|]. split; [by exists (txt "-Infinit"), (ch "y")|].
    intros r' g _ Hg. destruct g as [|g]; [lia|]. apply Hconst. }
  (* a number *)
  intros Hnum.
  destruct (match_number_local _ _ _ Hnum)
    as (body & Hs & Hn & (c0 & t0 & Hbody & Hc0) & (i & d & Hi & Hd) & L).
  exists body. split; [done|]. rewrite numeric_unbreak by done.
  split.
  { exists c0, t0. split; [done|]. unfold opening.
    destruct Hc0 as [-> | [-> _]]; by rewrite ?orb_true_r. }
  split.
  { exists i, d. split; [done|]. unfold closing. by rewrite Hd, ?orb_true_r. }
  intros r' g Hr' Hg. destruct g as [|g]; [lia|].
  rewrite <- L by done. rewrite Hbody. cbn [app].
  by apply scan_once_number.
Qed.

Theorem scan_once_local (f : nat) :
  scan_local f /\ members_local f /\ items_local f.
Proof.
  induction f as [|f (IHs & IHm & IHi)].
  - by repeat split; intros ?.
  - split; [by apply scan_step|].
    split; [by apply members_step|by apply items_step].
Qed.


End DecoderFacts.

(** * The fuel of the decoder *)
Section FuelFacts.
Import Py Json.


Lemma skip_ws_length (s : text) : (length (skip_ws s) <= length s)%nat.
Proof.
  induction s as [|c s IH]; [done|]. simpl. destruct (is_ws c); simpl; lia.
Qed.

Lemma skip_ws_cons_length (s : text) (c : N) (r : text) :
  skip_ws s = c :: r -> (length r < length s)%nat.
Proof.
  intros H. pose proof (skip_ws_length s) as Hl. rewrite H in Hl.
  simpl in Hl. lia.
Qed.

Lemma scanstring_length (n : nat) (s acc str r : text) :
  (length s <= n)%nat -> scanstring s acc = Found str r ->
  (length r < length s)%nat.
Proof.
  revert s acc. induction n as [|n IH]; intros s acc Hn.
  - destruct s; [done|]. simpl in Hn. lia.
  - destruct s as [|c s]; [done|]. cbn [scanstring]. simpl in Hn.
    intros H.
    repeat match type of H with
           | (if ?b then _ else _) = _ => destruct b
           | match ?x with _ => _ end = _ => destruct x
           end;
      try discriminate;
      try (injection H as <- <-; simpl; lia);
      try (apply IH in H; simpl in *; lia).
Qed.

Lemma match_number_length (s : text) (v : json) (r : text) :
  match_number s = Found v r -> (length r < length s)%nat.
Proof.
  intros H. destruct (match_number_local _ _ _ H)
    as (body & -> & _ & (c & t & -> & _) & _).
  rewrite length_app. simpl. lia.
Qed.

Lemma startswith_length (s p : text) :
  startswith s p = true ->
  (length (drop (length p) s) + length p = length s)%nat.
Proof.
  intros H. apply startswith_app in H. rewrite H at 2.
  rewrite length_app. lia.
Qed.

(** Every scan consumes at least one character. *)
Lemma scan_shrinks (f : nat) : shrinks f.
Proof.
  induction f as [|f (IHs & IHm & IHi)]; [by repeat split|].
  repeat split.
  - intros s v r. cbn [scan_once]. destruct s as [|c r0]; [done|].
    destruct (c =? DQUOTE).
    { destruct (scanstring r0 []) as [str rest| |] eqn:Hs; [|done..].
      intros [= <- <-]. apply (scanstring_length _ _ _ _ _ (le_n _)) in Hs.
      simpl. lia. }
    destruct (c =? ch "{").
    { destruct (skip_ws r0) as [|c1 r1] eqn:Hr0; [done|].
      pose proof (skip_ws_length r0) as Hl. rewrite Hr0 in Hl.
      destruct (c1 =? ch "}").
      - intros [= <- <-]. simpl in *. lia.
      - intros H. apply IHm in H. simpl in *. lia. }
    destruct (c =? ch "[").
    { destruct (skip_ws r0) as [|c1 r1] eqn:Hr0; [done|].
      pose proof (skip_ws_length r0) as Hl. rewrite Hr0 in Hl.
      destruct (c1 =? ch "]").
      - intros [= <- <-]. simpl in *. lia.
      - intros H. apply IHi in H. simpl in *. lia. }
    repeat match goal with
           | |- (if startswith ?s ?p then _ else _) = _ -> _ =>
               let E := fresh "E" in
               destruct (startswith s p) eqn:E;
               [intros [= <- <-]; apply startswith_length in E;
                simpl in E; simpl; lia|]
           end.
    apply match_number_length.
  - intros s acc v r. cbn [parse_members]. destruct s as [|c r0]; [done|].
    destruct (c =? DQUOTE); [|done].
    destruct (scanstring r0 []) as [key r1| |] eqn:Hk; [|done..].
    apply (scanstring_length _ _ _ _ _ (le_n _)) in Hk.
    destruct (skip_ws r1) as [|c2 r2] eqn:Hr1; [done|].
    apply skip_ws_cons_length in Hr1.
    destruct (c2 =? ch ":"); [|done].
    destruct (scan_once f (skip_ws r2)) as [v1 r3| |] eqn:Hv; [|done..].
    apply IHs in Hv. pose proof (skip_ws_length r2) as Hl2.
    destruct (skip_ws r3) as [|c4 r4] eqn:Hr3; [done|].
    apply skip_ws_cons_length in Hr3.
    destruct (c4 =? ch "}"); [intros [= <- <-]; simpl; lia|].
    destruct (c4 =? ch ","); [|done].
    intros H. apply IHm in H. pose proof (skip_ws_length r4) as Hl4. simpl. lia.
  - intros s acc v r. cbn [parse_items].
    destruct (scan_once f s) as [v1 r1| |] eqn:Hv; [|done..].
    apply IHs in Hv.
    destruct (skip_ws r1) as [|c2 r2] eqn:Hr1; [done|].
    apply skip_ws_cons_length in Hr1.
    destruct (c2 =? ch "]"); [intros [= <- <-]; lia|].
    destruct (c2 =? ch ","); [|done].
    intros H. apply IHi in H. pose proof (skip_ws_length r2) as Hl2. lia.
Qed.

(** Two units of fuel for each character are enough. *)
Lemma scan_fuelled (f : nat) : fuelled f.
Proof.
  induction f as [|f (IHs & IHm & IHi)]; [repeat split; intros; lia|].
  destruct (scan_shrinks f) as (Ss & Sm & Si).
  repeat split.
  - intros s Hf. cbn [scan_once]. destruct s as [|c r0]; [done|].
    simpl in Hf.
    destruct (c =? DQUOTE); [by destruct (scanstring r0 [])|].
    destruct (c =? ch "{").
    { destruct (skip_ws r0) as [|c1 r1] eqn:Hr0; [done|].
      pose proof (skip_ws_length r0) as Hl. rewrite Hr0 in Hl.
      destruct (c1 =? ch "}"); [done|]. apply IHm. simpl in *. lia. }
    destruct (c =? ch "[").
    { destruct (skip_ws r0) as [|c1 r1] eqn:Hr0; [done|].
      pose proof (skip_ws_length r0) as Hl. rewrite Hr0 in Hl.
      destruct (c1 =? ch "]"); [done|]. apply IHi. simpl in *. lia. }
    repeat match goal with
           | |- (if ?b then _ else _) <> _ => destruct b; [done|]
           end.
    unfold match_number.
    destruct (c =? ch "-"); unfold number_after_sign;
      repeat match goal with
             | |- context [match ?x with _ => _ end] => destruct x
             end; done.
  - intros s acc Hf. cbn [parse_members]. destruct s as [|c r0]; [done|].
    simpl in Hf.
    destruct (c =? DQUOTE); [|done].
    destruct (scanstring r0 []) as [key r1| |] eqn:Hk; [|done..].
    apply (scanstring_length _ _ _ _ _ (le_n _)) in Hk.
    destruct (skip_ws r1) as [|c2 r2] eqn:Hr1; [done|].
    apply skip_ws_cons_length in Hr1.
    destruct (c2 =? ch ":"); [|done].
    pose proof (skip_ws_length r2) as Hl2.
    destruct (scan_once f (skip_ws r2)) as [v1 r3| |] eqn:Hv; [|done|].
    + apply Ss in Hv.
      destruct (skip_ws r3) as [|c4 r4] eqn:Hr3; [done|].
      apply skip_ws_cons_length in Hr3.
      destruct (c4 =? ch "}"); [done|].
      destruct (c4 =? ch ","); [|done].
      apply IHm. pose proof (skip_ws_length r4) as Hl4. lia.
    + exfalso. revert Hv. apply IHs. lia.
  - intros s acc Hf. cbn [parse_items].
    destruct (scan_once f s) as [v1 r1| |] eqn:Hv; [|done|].
    + apply Ss in Hv.
      destruct (skip_ws r1) as [|c2 r2] eqn:Hr1; [done|].
      apply skip_ws_cons_length in Hr1.
      destruct (c2 =? ch "]"); [done|].
      destruct (c2 =? ch ","); [|done].
      apply IHi. pose proof (skip_ws_length r2) as Hl2. lia.
    + exfalso. revert Hv. apply IHs. lia.
Qed.

(** [json.loads] has the fuel it needs: its failures are failures of
    the decoder. *)
Lemma loads_fuelled (s : text) :
  scan_once (2 * length s + 2) (skip_ws s) <> OutOfFuel.
Proof.
  apply scan_fuelled. pose proof (skip_ws_length s) as Hl. lia.
Qed.

End FuelFacts.

Section CleanUpFacts.
Import Py Json Re JsonRecovery.


Lemma digit_plain (c : N) :
  is_digit c = true ->
  isspace c = false /\ (c =? ch "`") = false /\ (c =? ch "j") = false.
Proof.
  intros Hc. split; [|split; by apply digit_eqb].
  unfold is_digit in Hc. apply andb_true_iff in Hc as [H1 H2].
  apply N.leb_le in H1, H2. unfold isspace.
  repeat match goal with
         | |- context [N.leb ?a ?b] => destruct (N.leb_spec a b)
         | |- context [N.eqb ?a ?b] => destruct (N.eqb_spec a b)
         end; try lia; reflexivity.
Qed.

Lemma opening_plain (c : N) :
  opening c = true ->
  isspace c = false /\ (c =? ch "`") = false /\ (c =? ch "j") = false.
Proof.
  unfold opening. rewrite !orb_true_iff, !N.eqb_eq.
  intros [[[[[[[[[-> | ->] | ->] | ->] | ->] | ->] | ->] | ->] | ->] | Hd];
    try by repeat split.
  by apply digit_plain.
Qed.

Lemma closing_plain (c : N) :
  closing c = true -> isspace c = false /\ (c =? ch "`") = false.
Proof.
  unfold closing. rewrite !orb_true_iff, !N.eqb_eq.
  intros [[[[[[[-> | ->] | ->] | ->] | ->] | ->] | ->] | Hd];
    try by repeat split.
  destruct (digit_plain c Hd) as (? & ? & ?). by split.
Qed.

(** A text that begins like a JSON value and ends like one has no
    Markdown frame to remove. *)
Lemma remove_frame_plain (core : text) :
  head_ok core -> last_ok core -> remove_frame core = core.
Proof.
  intros (c & t & Hc & Ho) (i & d & Hd & Hcl).
  destruct (opening_plain c Ho) as (_ & Hq & Hj).
  destruct (closing_plain d Hcl) as (_ & Hq').
  unfold ch in Hq, Hj, Hq'. unfold remove_frame.
  assert (startswith core (txt "```json") = false) as ->.
  { rewrite Hc. cbn [startswith txt]. by rewrite Hq. }
  assert (startswith core (txt "json") = false) as ->.
  { rewrite Hc. cbn [startswith txt]. by rewrite Hj. }
  assert (endswith core (txt "```") = false) as ->; [|done].
  unfold endswith. rewrite Hd, rev_app_distr. cbn [rev app startswith txt].
  by rewrite Hq'.
Qed.

(** C6, amended.  For every input that is valid JSON and on which the
    lossy replacements of the cleanup find nothing to change (it holds
    no backslash and, once its line breaks are removed, neither a
    double quote before [[{] nor one after [}]]), [clean_up_json]
    returns the input with its newline
    and carriage-return characters removed and its surrounding white
    space stripped, and the parsed value of that output is the parsed
    value of the input. *)
Theorem valid_plain_json_is_kept (float_repr : text -> text)
    (s : text) (v : json) :
  loads s = Ret v ->
  no_backslash s ->
  contains (unbreak s) [DQUOTE; ch "["; ch "{"] = false ->
  contains (unbreak s) [ch "}"; ch "]"; DQUOTE] = false ->
  clean_up_json float_repr s = Ret (strip (unbreak s))
  /\ loads (strip (unbreak s)) = Ret v.
Proof.
  intros Hload Hb H1 H2.
  unfold loads in Hload.
  destruct (scan_once _ (skip_ws s)) as [v0 rest| |] eqn:Hscan; [|done..].
  destruct (skip_ws rest) eqn:Hrest; [|done]. injection Hload as ->.
  destruct (skip_ws_split s) as (w0 & Hs & Hw0).
  assert (Hbs : no_backslash (skip_ws s)).
  { unfold no_backslash in *. rewrite Hs in Hb.
    by apply Forall_app in Hb as [_ ?]. }
  destruct (proj1 (scan_once_local _) _ _ _ Hbs Hscan)
    as (body & Hbody & Hh & Hl & L).
  apply skip_ws_nil in Hrest.
  assert (Hstrip : strip (unbreak s) = unbreak body).
  { rewrite Hs, Hbody, !unbreak_app.
    destruct Hh as (c & t & Hc & Ho). destruct Hl as (i & d & Hd & Hcl).
    eapply strip_core; [| |exact Hc| |exact Hd|].
    - by apply all_ws_isspace, all_ws_unbreak.
    - by apply all_ws_isspace, all_ws_unbreak.
    - by apply opening_plain.
    - by apply closing_plain. }
  assert (Hcore : loads (unbreak body) = Ret v).
  { unfold loads.
    assert (skip_ws (unbreak body) = unbreak body) as ->.
    { destruct Hh as (c & t & -> & Ho). by apply skip_ws_id, opening_not_ws. }
    specialize (L [] (2 * length (unbreak body) + 2)%nat eq_refl).
    rewrite app_nil_r in L. rewrite L; [done|]. lia. }
  rewrite Hstrip. split; [|done].
  unfold clean_up_json.
  rewrite strip_escapes_plain, Hstrip, remove_frame_plain by done.
  by rewrite Hcore.
Qed.


End CleanUpFacts.

(** C6 at a concrete input: an object spread over several lines. *)
Lemma valid_plain_json_is_kept_witness :
  JsonRecovery.clean_up_json Json.literal_repr JsonRecovery.spread_out
  = Py.Ret (Py.jq "{ 'a' : [1, 2.5e3, true] ,  'b': 'x y'}")
  /\ Json.loads (Py.jq "{ 'a' : [1, 2.5e3, true] ,  'b': 'x y'}")
     = Py.Ret
         (Json.JObj
            [(Py.txt "a",
              Json.JArr [Json.JInt 1; Json.JFloat (Py.txt "2.5e3");
                         Json.JBool true]);
             (Py.txt "b", Json.JStr (Py.txt "x y"))]).
Proof.
  apply (valid_plain_json_is_kept Json.literal_repr JsonRecovery.spread_out).
  - reflexivity.
  - unfold Json.no_backslash. apply Forall_forall. intros c Hc.
    apply list_elem_of_In in Hc. vm_compute in Hc.
    repeat (destruct Hc as [<- | Hc]; [discriminate|]). destruct Hc.
  - reflexivity.
  - reflexivity.
Defined.

(** C6, as the spec states it, fails.  [escaped_newline] is valid JSON
    whose string holds a newline, written as an escape; the cleanup
    deletes the escape sequence, so that the output parses to another
    value, a string of two letters.  [quoted_bracket] is valid JSON
    too; the cleanup deletes its opening quote, and the output is no
    JSON at all. *)
Lemma escapes_are_lost :
  Json.loads JsonRecovery.escaped_newline
  = Py.Ret (Json.JObj [(Py.txt "a", Json.JStr [120; Py.LF; 121])])
  /\ (forall float_repr,
        JsonRecovery.clean_up_json float_repr JsonRecovery.escaped_newline
        = Py.Ret (Py.jq "{'a':'xy'}"))
  /\ Json.loads (Py.jq "{'a':'xy'}")
     = Py.Ret (Json.JObj [(Py.txt "a", Json.JStr [120; 121])])
  /\ (forall float_repr,
        ~ JsonRecovery.preserves_value float_repr
            JsonRecovery.escaped_newline)
  /\ Json.loads JsonRecovery.quoted_bracket
     = Py.Ret (Json.JArr [Json.JStr (Py.txt "[{")])
  /\ (forall float_repr,
        ~ JsonRecovery.preserves_value float_repr
            JsonRecovery.quoted_bracket).
Proof.
  split; [reflexivity|]. split; [intros float_repr; reflexivity|].
  split; [reflexivity|]. split.
  { intros float_repr (out & Hout & Hval).
    vm_compute in Hout. injection Hout as <-. vm_compute in Hval.
    discriminate. }
  split; [reflexivity|].
  intros float_repr (out & Hout & Hval).
  vm_compute in Hout. injection Hout as <-. vm_compute in Hval.
  discriminate.
Qed.


Section CallFacts.
Import Py Turns QueryLLM Calls.
Variable remote : service.
Variable self : llm.

Local Abbreviation before_attempt := (fun n => log (EvAttempt n)).
Local Abbreviation pause := (fun n => log (EvSleep n)).

(** [generate] is the retry loop around [_generate], called with the
    turns and the keyword arguments drawn from the caller's. *)
Lemma generate_via_unfold via messages streaming callbacks kwargs w :
  generate_via remote self via messages streaming callbacks kwargs w
  = match Tenacity.attempts (retryer self) before_attempt pause
            (_generate remote self via (snd (turns_of messages)) streaming
               callbacks (passed_kwargs self messages kwargs)) w with
    | (Ret v, w1) => (Ret v, w1)
    | (Raise e, w1) =>
        if isinstance e [RetryError]
        then (Ret [], log (EvError (exn_msg e)) w1)
        else (Raise e, w1)
    end.
Proof.
  unfold generate_via, passed_kwargs, turns_of.
  by destruct (match messages with
               | inl _ => (VNone, [])
               | inr l => extract_system l
               end) as [system_message filtered].
Qed.

Lemma passed_kwargs_no_clash messages kwargs :
  no_keyword_clash kwargs ->
  no_keyword_clash (passed_kwargs self messages kwargs).
Proof.
  intros H. unfold passed_kwargs.
  assert (no_keyword_clash
            match cls self with
            | ChatClaude => <["extra_headers"%string := max_tokens_header]> kwargs
            | Claude => kwargs
            end) by (destruct (cls self); [by apply no_clash_insert|done]).
  destruct (truthy _); [by apply no_clash_insert|done].
Qed.

(** Without callbacks the deltas are appended one after the other. *)
Lemma consume_quiet model_name callbacks deltas failure acc w :
  callbacks = None \/ callbacks = Some [] ->
  consume self model_name callbacks deltas failure acc w
  = (match failure with
     | Some e => Raise e
     | None => Ret (acc ++ concat_text deltas)
     end, w).
Proof.
  intros Hc. revert acc.
  induction deltas as [|d ds IH]; intros acc; cbn [consume concat_text concat].
  - rewrite app_nil_r. by destruct failure.
  - destruct Hc as [-> | ->]; rewrite IH by auto;
      unfold concat_text; by rewrite app_assoc.
Qed.

(** With no delta there is nothing to tell the callbacks. *)
Lemma consume_nothing model_name callbacks failure acc w :
  consume self model_name callbacks [] failure acc w
  = (match failure with Some e => Raise e | None => Ret acc end, w).
Proof. simpl. by destruct failure. Qed.

(** An attempt whose request the service fails. *)
Lemma _generate_raises via messages streaming callbacks kwargs m w e :
  model self = Some m -> m <> [] -> no_keyword_clash kwargs ->
  service_raises remote streaming (requests_made w)
    (request_for via m messages streaming kwargs) e ->
  _generate remote self via messages streaming callbacks kwargs w
  = (Raise e, sent (request_for via m messages streaming kwargs) w).
Proof.
  intros Hmodel Hm Hkw Hfail. unfold _generate, request_for.
  destruct (model_set_name self m Hmodel Hm) as [-> ->].
  unfold service_raises, request_for in Hfail. destruct streaming.
  - rewrite no_clash_stream by done. by rewrite Hfail.
  - rewrite no_clash_create by done. by rewrite Hfail.
Qed.

(** An attempt whose request the service answers. *)
Lemma _generate_answers via messages streaming callbacks kwargs m w answer :
  model self = Some m -> m <> [] -> no_keyword_clash kwargs ->
  quiet streaming callbacks ->
  service_answers remote streaming (requests_made w)
    (request_for via m messages streaming kwargs) answer ->
  _generate remote self via messages streaming callbacks kwargs w
  = (Ret answer, sent (request_for via m messages streaming kwargs) w).
Proof.
  intros Hmodel Hm Hkw Hq Hans. unfold _generate, request_for.
  destruct (model_set_name self m Hmodel Hm) as [-> ->].
  unfold service_answers, request_for in Hans. destruct streaming.
  - rewrite no_clash_stream by done.
    destruct Hans as (deltas & -> & ->).
    destruct Hq as [Hq | Hq]; [done|].
    by rewrite consume_quiet.
  - rewrite no_clash_create by done.
    by destruct Hans as (blocks & ->).
Qed.

Lemma retried_S (k : nat) (rq : request) :
  retried (S k) rq
  = retried k rq
    ++ [EvAttempt (Z.of_nat (S k)); EvRequest rq; EvSleep (Z.of_nat (S k))].
Proof.
  unfold retried. by rewrite seq_S, map_app, flat_map_app.
Qed.

(** After [k] attempts that the service failed with retried errors,
    the loop stands before attempt [k + 1]. *)
Lemma attempts_after_failures via messages streaming callbacks kwargs m
    (k : nat) (w : world) :
  let rq := request_for via m messages streaming kwargs in
  model self = Some m -> m <> [] -> no_keyword_clash kwargs ->
  (Z.of_nat k < Z.max 1 (max_retries self))%Z ->
  (forall j, (j < k)%nat ->
     exists e, service_raises remote streaming (requests_made w + j) rq e
               /\ isinstance e (retry_error_types self) = true) ->
  Tenacity.attempts (retryer self) before_attempt pause
    (_generate remote self via messages streaming callbacks kwargs) w
  = Tenacity.attempts_from (retryer self) before_attempt pause
      (_generate remote self via messages streaming callbacks kwargs)
      (Z.of_nat k + 1) (after w k (retried k rq)).
Proof.
  intros rq Hmodel Hm Hkw. induction k as [|k IH]; intros Hk Hfail.
  - unfold Tenacity.attempts, after, retried. simpl.
    rewrite Nat.add_0_r, app_nil_r. by destruct w.
  - rewrite IH; [|lia|intros j Hj; apply Hfail; lia].
    destruct (Hfail k) as (e & He & Hty); [lia|].
    rewrite attempts_from_unfold.
    rewrite (_generate_raises via messages streaming callbacks kwargs m _ e);
      [|done..].
    cbn [retryer Tenacity.retry_if_exception_type Tenacity.stop_after_attempt]. rewrite Hty.
    destruct (Z_ge_dec _ _) as [Hge|_]; [lia|].
    f_equal; [lia|].
    unfold after, sent, log. cbn [requests_made trace]. fold rq.
    rewrite retried_S. f_equal; [lia|].
    rewrite <- !app_assoc. simpl.
    by replace (Z.of_nat k + 1)%Z with (Z.of_nat (S k)) by lia.
Qed.

(** What [_generate] logs: at most the one request it makes of its
    arguments, and the tokens told to the callbacks. *)
Lemma _generate_sends (P : event -> Prop) via messages streaming callbacks
    kwargs w :
  (forall c t, P (EvNewToken c t)) ->
  P (EvRequest (request_for via (str_or (model self) []) messages streaming
                  kwargs)) ->
  grows P w
    (snd (_generate remote self via messages streaming callbacks kwargs w)).
Proof.
  intros Htok Hrq. unfold _generate, raise_model_required, request_for in *.
  destruct (text_eqb _ _).
  { destruct (load_name _ _); apply grows_refl. }
  destruct streaming.
  - destruct (duplicate_keyword _ _); [apply grows_refl|].
    match goal with |- context [sent ?rq w] =>
      assert (Hs : grows P w (sent rq w)) by (by apply grows_sent) end.
    destruct (stream_reply _ _ _) as [[deltas failure]|e]; simpl; [|done].
    eapply grows_trans; [exact Hs|by apply consume_grows].
  - destruct (duplicate_keyword _ _); [apply grows_refl|].
    match goal with |- context [sent ?rq w] =>
      assert (Hs : grows P w (sent rq w)) by (by apply grows_sent) end.
    by destruct (create_reply _ _ _) as [[|b bs]|e].
Qed.

Lemma notify_requests scope callbacks w :
  requests_made (snd (notify scope callbacks w)) = requests_made w.
Proof.
  revert w. induction callbacks as [|c cs IH]; intros w; simpl; [done|].
  destruct (load_name scope "delta"); simpl; [|done]. by rewrite IH.
Qed.

Lemma consume_requests model_name callbacks deltas failure acc w :
  requests_made (snd (consume self model_name callbacks deltas failure acc w))
  = requests_made w.
Proof.
  revert acc w. induction deltas as [|d ds IH]; intros acc w; cbn [consume].
  - by destruct failure.
  - destruct callbacks as [[|c cs]|]; try apply IH.
    match goal with |- context [notify ?sc ?cbs w] =>
      pose proof (notify_requests sc cbs w) as Hn;
      destruct (notify sc cbs w) as [[u|e] w1] end; simpl in *; [|done].
    by rewrite IH.
Qed.

(** An attempt makes one request at most. *)
Lemma _generate_requests via messages streaming callbacks kwargs w :
  let w' := snd (_generate remote self via messages streaming callbacks
                   kwargs w) in
  (requests_made w <= requests_made w' <= S (requests_made w))%nat.
Proof.
  unfold _generate, raise_model_required.
  destruct (text_eqb _ _).
  { destruct (load_name _ _); simpl; lia. }
  destruct streaming.
  - destruct (duplicate_keyword _ _); [simpl; lia|].
    destruct (stream_reply _ _ _) as [[deltas failure]|e]; [|simpl; lia].
    cbv zeta. rewrite consume_requests. simpl. lia.
  - destruct (duplicate_keyword _ _); [simpl; lia|].
    destruct (create_reply _ _ _) as [[|b bs]|e]; simpl; lia.
Qed.

Lemma tally_log f ev w :
  tally f (log ev w) = (tally f w + if f ev then 1 else 0)%nat.
Proof.
  unfold tally, log. cbn [trace]. rewrite List.filter_app, length_app. simpl.
  by destruct (f ev).
Qed.

Lemma tally_grows f w w' :
  grows (fun ev => f ev = false) w w' -> tally f w' = tally f w.
Proof.
  unfold tally. intros (evs & -> & Hall).
  rewrite List.filter_app, length_app.
  assert (List.filter f evs = []) as ->; [|simpl; lia].
  induction Hall as [|ev evs Hev _ IH]; [done|]. simpl. by rewrite Hev.
Qed.

(** An attempt logs neither an attempt nor a wait. *)
Lemma _generate_tally via messages streaming callbacks kwargs w :
  let w' := snd (_generate remote self via messages streaming callbacks
                   kwargs w) in
  tally is_attempt w' = tally is_attempt w
  /\ tally is_sleep w' = tally is_sleep w.
Proof. split; apply tally_grows; by apply _generate_sends. Qed.

(** The loop, from attempt [n] on: it makes one attempt at least and
    [stop - n + 1] at most, waits once between two attempts, and sends
    one request per attempt at most. *)
Lemma attempts_from_tally via messages streaming callbacks kwargs (k : nat) :
  forall n w,
    Z.to_nat (max_retries self - n) = k ->
    let w' := snd (Tenacity.attempts_from (retryer self) before_attempt pause
                     (_generate remote self via messages streaming callbacks
                        kwargs) n w) in
    let a := (tally is_attempt w' - tally is_attempt w)%nat in
    (tally is_attempt w < tally is_attempt w')%nat
    /\ (a <= S k)%nat
    /\ tally is_sleep w' = (tally is_sleep w + (a - 1))%nat
    /\ (requests_made w <= requests_made w' <= requests_made w + a)%nat.
Proof.
  induction k as [|k IH]; intros n w Hk; rewrite attempts_from_unfold;
    pose proof (_generate_tally via messages streaming callbacks kwargs
                  (log (EvAttempt n) w)) as [Ha Hs];
    pose proof (_generate_requests via messages streaming callbacks kwargs
                  (log (EvAttempt n) w)) as Hq;
    cbv zeta in Ha, Hs, Hq; rewrite tally_log in Ha, Hs;
    cbn [is_attempt is_sleep log requests_made] in Ha, Hs, Hq;
    destruct (_generate _ _ _ _ _ _ _ _) as [[v|e] w1];
    cbn [fst snd] in *; try (cbv zeta; lia);
    destruct (isinstance e _); cbn [snd]; try (cbv zeta; lia);
    destruct (Z_ge_dec n _) as [Hge|Hlt];
    cbn [retryer Tenacity.stop_after_attempt Tenacity.reraise] in *;
    cbn [snd]; try (cbv zeta; lia).
  specialize (IH (n + 1)%Z (log (EvSleep n) w1) ltac:(lia)).
  cbv zeta in IH. rewrite !tally_log in IH.
  cbn [is_attempt is_sleep log requests_made] in IH.
  cbv zeta. lia.
Qed.

End CallFacts.

Section CallTheorems.
Import Py Turns QueryLLM Calls.

(** X1.  In claude.py nothing binds [_MODEL_REQUIRED_MSG]: when the
    model name of a [Claude] is missing, [generate] and [agenerate]
    raise [NameError] for that name, not the [ValueError] that
    [ChatClaude] raises.  With [NameError] not among the retried types
    the call ends in its first attempt, before any request. *)
Theorem claude_missing_model_is_a_name_error (remote : service) (self : llm)
    (via : client) (messages : text + list message) (streaming : bool)
    (callbacks : option (list nat)) (kwargs : gmap string pyval) (w : world) :
  cls self = Claude ->
  model_missing self ->
  isinstance name_error_model_required (retry_error_types self) = false ->
  generate_via remote self via messages streaming callbacks kwargs w
  = (Raise name_error_model_required, log (EvAttempt 1) w).
Proof.
  intros Hcls Hmiss Hty. rewrite generate_via_unfold.
  rewrite (attempts_not_retried _ _ _ _ w (log (EvAttempt 1) w)
             name_error_model_required); [reflexivity| |exact Hty].
  unfold _generate, raise_model_required.
  rewrite model_missing_name by done. by rewrite Hcls.
Qed.

Lemma claude_missing_model_is_a_name_error_witness :
  generate (replies [txt "hello"]) (claude (Some []))
    (inr [user_says (txt "hi")]) false None ∅ start
  = (Raise name_error_model_required, log (EvAttempt 1) start).
Proof.
  apply (claude_missing_model_is_a_name_error (replies [txt "hello"])
           (claude (Some [])) sync_client).
  - reflexivity.
  - right. reflexivity.
  - reflexivity.
Defined.

(** X2.  Transient failures are retried.  When the service fails the
    first [k] requests of a call with errors of a retried type, [k]
    being less than [max_retries], and answers the next one, a call
    that reaches no callback returns that answer.  The same request is
    sent [k + 1] times, and the log shows the [k] failed attempts, each
    followed by its wait, and then the attempt that succeeded. *)
Theorem transient_failures_are_retried (remote : service) (self : llm)
    (via : client) (messages : text + list message) (streaming : bool)
    (callbacks : option (list nat)) (kwargs : gmap string pyval) (w : world)
    (m : text) (k : nat) (answer : text) :
  let rq := request_of self via messages streaming kwargs in
  model self = Some m -> m <> [] ->
  no_keyword_clash kwargs ->
  quiet streaming callbacks ->
  (Z.of_nat k < Z.max 1 (max_retries self))%Z ->
  (forall j, (j < k)%nat ->
     exists e, service_raises remote streaming (requests_made w + j) rq e
               /\ isinstance e (retry_error_types self) = true) ->
  service_answers remote streaming (requests_made w + k) rq answer ->
  generate_via remote self via messages streaming callbacks kwargs w
  = (Ret answer,
     after w (S k)
       (retried k rq ++ [EvAttempt (Z.of_nat k + 1); EvRequest rq])).
Proof.
  intros rq Hmodel Hm Hkw Hq Hk Hfail Hans.
  assert (Hrq : rq = request_for via m (snd (turns_of messages)) streaming
                       (passed_kwargs self messages kwargs)).
  { subst rq. unfold request_of.
    by destruct (model_set_name self m Hmodel Hm) as [-> _]. }
  rewrite generate_via_unfold.
  rewrite (attempts_after_failures remote self via _ streaming callbacks _ m k);
    [|done|done|by apply passed_kwargs_no_clash|done|by rewrite <- Hrq].
  rewrite attempts_from_unfold.
  rewrite (_generate_answers remote self via _ streaming callbacks _ m _ answer);
    [|done|done|by apply passed_kwargs_no_clash|done|].
  - rewrite <- Hrq. unfold after, sent, log. cbn [requests_made trace].
    do 2 f_equal; [lia|]. by rewrite <- !app_assoc.
  - rewrite <- Hrq. by cbn [log requests_made after].
Qed.

Lemma transient_failures_are_retried_witness :
  let self := chat_claude (Some (txt "claude-3")) in
  let rq := request_of self sync_client (inr [user_says (txt "hi")]) true ∅ in
  generate (recovers_after 2 [txt "Hel"; txt "lo"]) self
    (inr [user_says (txt "hi")]) true None ∅ start
  = (Ret (txt "Hello"),
     after start 3 (retried 2 rq ++ [EvAttempt 3; EvRequest rq])).
Proof.
  apply (transient_failures_are_retried (recovers_after 2 [txt "Hel"; txt "lo"])
           (chat_claude (Some (txt "claude-3"))) sync_client
           (inr [user_says (txt "hi")]) true None ∅ start (txt "claude-3")
           2%nat (txt "Hello")).
  - reflexivity.
  - discriminate.
  - repeat split; reflexivity.
  - right. left. reflexivity.
  - reflexivity.
  - intros j Hj. exists (Exn RateLimitError []). split; [|reflexivity].
    destruct j as [|[|j]]; [reflexivity|reflexivity|lia].
  - exists [txt "Hel"; txt "lo"]. split; reflexivity.
Defined.

(** X3.  An error of a type that is not retried ends the call at
    once, also after earlier attempts that were retried: the call
    raises that error out of the attempt that met it, and no wait
    follows. *)
Theorem unretried_error_ends_the_call (remote : service) (self : llm)
    (via : client) (messages : text + list message) (streaming : bool)
    (callbacks : option (list nat)) (kwargs : gmap string pyval) (w : world)
    (m : text) (k : nat) (e : exn) :
  let rq := request_of self via messages streaming kwargs in
  model self = Some m -> m <> [] ->
  no_keyword_clash kwargs ->
  (Z.of_nat k < Z.max 1 (max_retries self))%Z ->
  (forall j, (j < k)%nat ->
     exists e', service_raises remote streaming (requests_made w + j) rq e'
                /\ isinstance e' (retry_error_types self) = true) ->
  service_raises remote streaming (requests_made w + k) rq e ->
  isinstance e (retry_error_types self) = false ->
  isinstance e [RetryError] = false ->
  generate_via remote self via messages streaming callbacks kwargs w
  = (Raise e,
     after w (S k)
       (retried k rq ++ [EvAttempt (Z.of_nat k + 1); EvRequest rq])).
Proof.
  intros rq Hmodel Hm Hkw Hk Hfail He Hty Hnot.
  assert (Hrq : rq = request_for via m (snd (turns_of messages)) streaming
                       (passed_kwargs self messages kwargs)).
  { subst rq. unfold request_of.
    by destruct (model_set_name self m Hmodel Hm) as [-> _]. }
  rewrite generate_via_unfold.
  rewrite (attempts_after_failures remote self via _ streaming callbacks _ m k);
    [|done|done|by apply passed_kwargs_no_clash|done|by rewrite <- Hrq].
  rewrite attempts_from_unfold.
  rewrite (_generate_raises remote self via _ streaming callbacks _ m _ e);
    [|done|done|by apply passed_kwargs_no_clash|].
  - cbn [retryer Tenacity.retry_if_exception_type]. rewrite Hty, Hnot.
    rewrite <- Hrq. unfold after, sent, log. cbn [requests_made trace].
    do 2 f_equal; [lia|]. by rewrite <- !app_assoc.
  - rewrite <- Hrq. by cbn [log requests_made after].
Qed.

Lemma unretried_error_ends_the_call_witness :
  let self := chat_claude (Some (txt "claude-3")) in
  let rq := request_of self sync_client (inr [user_says (txt "hi")]) false ∅ in
  generate (refuses APIStatusError) self
    (inr [user_says (txt "hi")]) false None ∅ start
  = (Raise (Exn APIStatusError []),
     after start 1 (retried 0 rq ++ [EvAttempt 1; EvRequest rq])).
Proof.
  apply (unretried_error_ends_the_call (refuses APIStatusError)
           (chat_claude (Some (txt "claude-3"))) sync_client
           (inr [user_says (txt "hi")]) false None ∅ start (txt "claude-3")
           0%nat (Exn APIStatusError [])).
  - reflexivity.
  - discriminate.
  - repeat split; reflexivity.
  - reflexivity.
  - intros j Hj. lia.
  - reflexivity.
  - reflexivity.
  - reflexivity.
Defined.

(** X4.  A streaming attempt that reaches no callback ([callbacks] is
    [None] or empty) returns the deltas of the stream joined in their
    order of arrival, after its one request; when the stream breaks
    off with an error, the attempt raises that error and the text
    received so far is dropped. *)
Theorem stream_without_callbacks_joins_deltas (remote : service) (self : llm)
    (via : client) (messages : list message) (callbacks : option (list nat))
    (kwargs : gmap string pyval) (w : world) (m : text)
    (deltas : list text) (failure : option exn) :
  let rq := request_for via m messages true kwargs in
  model self = Some m -> m <> [] ->
  no_keyword_clash kwargs ->
  callbacks = None \/ callbacks = Some [] ->
  stream_reply remote (requests_made w) rq = Ret (deltas, failure) ->
  _generate remote self via messages true callbacks kwargs w
  = (match failure with
     | None => Ret (concat_text deltas)
     | Some e => Raise e
     end, sent rq w).
Proof.
  intros rq Hmodel Hm Hkw Hc Hreply. unfold _generate.
  destruct (model_set_name self m Hmodel Hm) as [-> ->].
  rewrite no_clash_stream by done.
  unfold rq, request_for in Hreply. rewrite Hreply.
  rewrite consume_quiet by done. by destruct failure.
Qed.

Lemma stream_without_callbacks_joins_deltas_witness :
  _generate (replies [txt "Hel"; txt "lo"]) (chat_claude (Some (txt "claude-3")))
    sync_client [user_says (txt "hi")] true (Some []) ∅ start
  = (Ret (txt "Hello"),
     sent (request_for sync_client (txt "claude-3") [user_says (txt "hi")]
             true ∅) start).
Proof.
  apply (stream_without_callbacks_joins_deltas (replies [txt "Hel"; txt "lo"])
           (chat_claude (Some (txt "claude-3"))) sync_client
           [user_says (txt "hi")] (Some []) ∅ start (txt "claude-3")
           [txt "Hel"; txt "lo"] None).
  - reflexivity.
  - discriminate.
  - repeat split; reflexivity.
  - right. reflexivity.
  - reflexivity.
Defined.

(** X5.  A call that does not stream reads the text of the first
    content block of the reply.  When the reply has no content block,
    [content[0]] raises [IndexError]; with [IndexError] not among the
    retried types the call raises it after its single request. *)
Theorem empty_content_is_an_index_error (remote : service) (self : llm)
    (via : client) (messages : text + list message)
    (callbacks : option (list nat)) (kwargs : gmap string pyval) (w : world)
    (m : text) :
  let rq := request_of self via messages false kwargs in
  model self = Some m -> m <> [] ->
  no_keyword_clash kwargs ->
  create_reply remote (requests_made w) rq = Ret [] ->
  isinstance index_error (retry_error_types self) = false ->
  generate_via remote self via messages false callbacks kwargs w
  = (Raise index_error, after w 1 [EvAttempt 1; EvRequest rq]).
Proof.
  intros rq Hmodel Hm Hkw Hreply Hty. rewrite generate_via_unfold.
  pose proof (passed_kwargs_no_clash self messages kwargs Hkw) as Hkw'.
  rewrite (attempts_not_retried _ _ _ _ w
             (after w 1 [EvAttempt 1; EvRequest rq]) index_error);
    [reflexivity| |exact Hty].
  unfold _generate.
  destruct (model_set_name self m Hmodel Hm) as [Hname Hne].
  rewrite Hname, Hne, no_clash_create by done.
  unfold rq, request_of, request_for in *. rewrite Hname in *.
  cbn [log requests_made]. rewrite Hreply.
  unfold sent, log, after. cbn [requests_made trace].
  do 2 f_equal; [lia|]. by rewrite <- app_assoc.
Qed.

Lemma empty_content_is_an_index_error_witness :
  let self := chat_claude (Some (txt "claude-3")) in
  generate (replies []) self (inr [user_says (txt "hi")]) false None ∅ start
  = (Raise index_error,
     after start 1
       [EvAttempt 1;
        EvRequest (request_of self sync_client (inr [user_says (txt "hi")])
                     false ∅)]).
Proof.
  apply (empty_content_is_an_index_error (replies [])
           (chat_claude (Some (txt "claude-3"))) sync_client
           (inr [user_says (txt "hi")]) None ∅ start (txt "claude-3")).
  - reflexivity.
  - discriminate.
  - repeat split; reflexivity.
  - reflexivity.
  - reflexivity.
Defined.

(** X6.  Whatever the service does, every request that [generate] or
    [agenerate] sends for a list of turns is shaped the same way: it
    goes to the client of the method and carries the configured model,
    the turns that are not system turns in their order, the content of
    the last system turn as [system] when that content is truthy (the
    caller's [system] keyword otherwise), the [anthropic-beta] header
    when the wrapper is [ChatClaude] (whatever the caller gave as
    [extra_headers]), [stream=False] when the call does not stream, and
    every other keyword argument of the caller unchanged. *)
Theorem every_request_is_shaped (remote : service) (self : llm)
    (via : client) (turns : list message) (streaming : bool)
    (callbacks : option (list nat)) (kwargs : gmap string pyval) (w : world) :
  exists evs,
    trace (snd (generate_via remote self via (inr turns) streaming callbacks
                  kwargs w))
    = trace w ++ evs
    /\ Forall (shaped_event self via turns streaming kwargs) evs.
Proof.
  change (grows (shaped_event self via turns streaming kwargs) w
            (snd (generate_via remote self via (inr turns) streaming callbacks
                    kwargs w))).
  rewrite generate_via_unfold. unfold Tenacity.attempts.
  match goal with |- context [Tenacity.attempts_from ?r ?b ?sl ?body 1 w] =>
    assert (grows (shaped_event self via turns streaming kwargs) w
              (snd (Tenacity.attempts_from r b sl body 1 w))) as Hw1;
    [|destruct (Tenacity.attempts_from r b sl body 1 w) as [[v|e] w1]]
  end.
  - eapply attempts_invariant; try done; try apply grows_refl.
    + intros n w0 H. eapply grows_trans; [exact H|]. by apply grows_log.
    + intros n w0 H. eapply grows_trans; [exact H|]. by apply grows_log.
    + intros w0 H. eapply grows_trans; [exact H|].
      apply _generate_sends; [done|].
      unfold shaped_event, shaped, request_for, passed_kwargs, turns_of.
      cbn [rq_client rq_endpoint rq_model rq_messages rq_kwargs].
      unfold extract_system. rewrite extract_from. cbn [fst snd app].
      set (system_message := match last (List.filter is_system turns) with
                             | Some t => get_content t
                             | None => VNone
                             end).
      repeat split; try done;
        destruct streaming, (truthy system_message), (cls self); intros;
        repeat (rewrite lookup_insert_eq || rewrite lookup_insert_ne by done);
        done.
  - done.
  - simpl in Hw1. destruct (isinstance e _); simpl; [|done].
    eapply grows_trans; [exact Hw1|]. by apply grows_log.
Qed.

(** X7.  A caller cannot override the configured model through the
    keyword arguments: with a [model] keyword, [_generate] passes
    [model] twice to the client's method, which is a [TypeError] at the
    call.  With [TypeError] not among the retried types, the call
    raises it out of its first attempt and sends nothing. *)
Theorem model_keyword_is_a_type_error (remote : service) (self : llm)
    (via : client) (messages : text + list message) (streaming : bool)
    (callbacks : option (list nat)) (kwargs : gmap string pyval) (w : world)
    (m : text) (v : pyval) :
  model self = Some m -> m <> [] ->
  kwargs !! "model"%string = Some v ->
  isinstance multiple_values (retry_error_types self) = false ->
  generate_via remote self via messages streaming callbacks kwargs w
  = (Raise multiple_values, log (EvAttempt 1) w).
Proof.
  intros Hmodel Hm Hkw Hty. rewrite generate_via_unfold.
  rewrite (attempts_not_retried _ _ _ _ w (log (EvAttempt 1) w)
             multiple_values); [reflexivity| |exact Hty].
  unfold _generate.
  destruct (model_set_name self m Hmodel Hm) as [-> ->].
  assert (Hin : passed_kwargs self messages kwargs !! "model"%string = Some v).
  { unfold passed_kwargs.
    destruct (truthy _), (cls self);
      repeat (rewrite lookup_insert_ne by done); done. }
  assert (Hdup : forall names,
            In "model"%string names ->
            duplicate_keyword names (passed_kwargs self messages kwargs) = true).
  { intros names Hn. unfold duplicate_keyword. apply existsb_exists.
    exists "model"%string. split; [done|]. rewrite Hin.
    by apply bool_decide_eq_true_2. }
  destruct streaming; by rewrite Hdup by (simpl; tauto).
Qed.

Lemma model_keyword_is_a_type_error_witness :
  generate (replies [txt "hello"]) (chat_claude (Some (txt "claude-3")))
    (inr [user_says (txt "hi")]) false None
    (<["model"%string := VStr (txt "claude-4")]> ∅) start
  = (Raise multiple_values, log (EvAttempt 1) start).
Proof.
  apply (model_keyword_is_a_type_error (replies [txt "hello"])
           (chat_claude (Some (txt "claude-3"))) sync_client
           (inr [user_says (txt "hi")]) false None
           (<["model"%string := VStr (txt "claude-4")]> ∅) start
           (txt "claude-3") (VStr (txt "claude-4"))).
  - reflexivity.
  - discriminate.
  - reflexivity.
  - reflexivity.
Defined.

(** X8.  Whatever the service does and however the call ends, a call
    of [generate] or [agenerate] makes at least one attempt and at most
    [max(1, max_retries)], waits exactly once between two consecutive
    attempts, and sends at most one request per attempt. *)
Theorem attempts_are_bounded (remote : service) (self : llm)
    (via : client) (messages : text + list message) (streaming : bool)
    (callbacks : option (list nat)) (kwargs : gmap string pyval) (w : world) :
  let w' := snd (generate_via remote self via messages streaming callbacks
                   kwargs w) in
  let attempts := (tally is_attempt w' - tally is_attempt w)%nat in
  (1 <= attempts <= Z.to_nat (Z.max 1 (max_retries self)))%nat
  /\ tally is_sleep w' = (tally is_sleep w + (attempts - 1))%nat
  /\ (requests_made w <= requests_made w' <= requests_made w + attempts)%nat.
Proof.
  rewrite generate_via_unfold. unfold Tenacity.attempts.
  pose proof (attempts_from_tally remote self via (snd (turns_of messages))
                streaming callbacks (passed_kwargs self messages kwargs)
                (Z.to_nat (max_retries self - 1)) 1%Z w eq_refl) as H.
  cbv zeta in H.
  destruct (Tenacity.attempts_from _ _ _ _ _ _) as [[v|e] w1];
    cbn [snd] in *; [cbv zeta; lia|].
  destruct (isinstance e _); cbn [snd]; [|cbv zeta; lia].
  rewrite !tally_log. cbn [is_attempt is_sleep log requests_made]. lia.
Qed.

End CallTheorems.


(** [retry_while_unfold], the lemma on one turn of the [while] loop. *)
Local Abbreviation while_step := retry_while_unfold.

Section EnforcerMore.
Import Py Json JsonRecovery Turns ChatLLM Enforcer.
Variable float_repr : text -> text.
Variable try_parse_json_object : text -> res json.
Variable backend :
  nat -> text -> LLMInput -> res (option text * option (list message)).
Variable configuration : ClaudeConfiguration.
Variable input : text.
Variable kwargs : LLMInput.

Local Abbreviation gen :=
  (generate float_repr try_parse_json_object backend configuration input
     kwargs).
Local Abbreviation while_invalid :=
  (retry_while float_repr try_parse_json_object backend configuration input
     kwargs).

(** Attempt [k] makes one invocation, the one of its number. *)
Lemma generate_invokes (k : nat) (w : world) :
  exists i, snd (gen (Z.of_nat k) w) = w ++ [i]
            /\ invocation_of configuration input kwargs k i.
Proof.
  unfold generate.
  set (kw := set_name _ _).
  assert (Hkw : name kw = Some (str_or (name kwargs) (txt "unknown")
                                ++ txt "@" ++ str_of_Z (Z.of_nat k))
                /\ model kw
                   = match k, model_alt configuration with
                     | S _, Some fallback =>
                         if text_eqb fallback [] then model kwargs
                         else Some fallback
                     | _, _ => model kwargs
                     end
                /\ model_parameters kw = model_parameters kwargs
                /\ history kw = history kwargs
                /\ is_response_valid kw = is_response_valid kwargs).
  { subst kw. split; [done|]. destruct k as [|k].
    - by destruct (model_alt configuration).
    - assert ((Z.of_nat (S k) >? 0)%Z = true) as -> by (apply Z.gtb_lt; lia).
      destruct (model_alt configuration) as [a|]; [|done].
      by destruct (text_eqb a []). }
  destruct Hkw as (Hn & Hm & Hp & Hh & Hv). unfold invocation_of.
  destruct (model_supports_json configuration).
  - unfold _native_json, _invoke. eexists. split.
    + destruct (backend _ _ _) as [[o h]|e]; [|done].
      by destruct (try_parse_json_object _).
    + cbn [inv_input inv_kwargs set_model_parameters name model
           model_parameters history is_response_valid].
      by rewrite Hn, Hm, Hp, Hh, Hv.
  - unfold _manual_json, _invoke. eexists. split.
    + destruct (backend _ _ _) as [[o h]|e]; [|done].
      by destruct (clean_up_json _ _).
    + cbn [inv_input inv_kwargs]. by rewrite Hn, Hm, Hp, Hh, Hv.
Qed.

(** The [while] loop entered before attempt [retry]: it makes the
    invocations of the attempts from [retry] on, up to attempt 2. *)
Lemma retry_while_invokes (n : nat) :
  forall (retry : nat) (result : LLMOutput) (w : world),
    (3 - retry = n)%nat ->
    exists invs,
      snd (while_invalid result (Z.of_nat retry) w) = w ++ invs
      /\ (length invs <= n)%nat
      /\ forall j i, invs !! j = Some i ->
                     invocation_of configuration input kwargs (retry + j) i.
Proof.
  induction n as [|n IH]; intros retry result w Hn;
    rewrite while_step;
    destruct (is_valid kwargs (json_ result));
    try (exists []; rewrite app_nil_r; split; [done|split; [simpl; lia|done]]);
    destruct (Z_lt_dec _ _) as [Hlt|Hge];
    try (exists []; rewrite app_nil_r; split; [done|split; [simpl; lia|done]]).
  - unfold _MAX_GENERATION_RETRIES in Hlt. lia.
  - destruct (generate_invokes retry w) as (i & Hi & Hinv).
    destruct (gen (Z.of_nat retry) w) as [[r|e] w1]; cbn [snd] in *; subst w1.
    + destruct (IH (S retry) r (w ++ [i])) as (invs & Hw & Hlen & Hall);
        [lia|].
      replace (Z.of_nat retry + 1)%Z with (Z.of_nat (S retry)) by lia.
      exists (i :: invs). rewrite Hw, <- app_assoc. split; [done|].
      split; [simpl; lia|].
      intros [|j] i' Hj; simpl in Hj.
      * injection Hj as <-. by rewrite Nat.add_0_r.
      * replace (retry + S j)%nat with (S retry + j)%nat by lia.
        by apply Hall.
    + exists [i]. split; [done|]. split; [simpl; lia|].
      intros [|j] i' Hj; simpl in Hj; [|done].
      injection Hj as <-. by rewrite Nat.add_0_r.
Qed.

(** The three turns of the loop, each entered after attempts that
    returned results [is_valid] rejects. *)
Lemma invoke_json_after_none (w : world) :
  decisive kwargs (gen 0 w) ->
  _invoke_json float_repr try_parse_json_object backend configuration input
    kwargs w = gen 0 w.
Proof.
  unfold decisive, _invoke_json.
  destruct (gen 0 w) as [[r|e] w1]; cbn [fst]; [|done].
  intros Hv. rewrite while_step, Hv. by rewrite Hv.
Qed.

Lemma invoke_json_after_one (w w1 : world) (r0 : LLMOutput) :
  gen 0 w = (Ret r0, w1) -> is_valid kwargs (json_ r0) = false ->
  decisive kwargs (gen 1 w1) ->
  _invoke_json float_repr try_parse_json_object backend configuration input
    kwargs w = gen 1 w1.
Proof.
  unfold decisive, _invoke_json. intros -> H0.
  rewrite while_step, H0.
  destruct (Z_lt_dec 1 _MAX_GENERATION_RETRIES) as [_|Hc]; [|by elim Hc].
  destruct (gen 1 w1) as [[r|e] w2]; cbn [fst]; [|done].
  intros Hv. change (1 + 1)%Z with 2%Z. rewrite while_step, Hv.
  by rewrite Hv.
Qed.

Lemma invoke_json_after_two (w w1 w2 : world) (r0 r1 : LLMOutput) :
  gen 0 w = (Ret r0, w1) -> is_valid kwargs (json_ r0) = false ->
  gen 1 w1 = (Ret r1, w2) -> is_valid kwargs (json_ r1) = false ->
  _invoke_json float_repr try_parse_json_object backend configuration input
    kwargs w
  = match gen 2 w2 with
    | (Ret r2, w3) =>
        if is_valid kwargs (json_ r2) then (Ret r2, w3)
        else (Raise terminal_error, w3)
    | (Raise e, w3) => (Raise e, w3)
    end.
Proof.
  unfold _invoke_json. intros -> H0 H1 Hv1.
  rewrite while_step, H0.
  destruct (Z_lt_dec 1 _MAX_GENERATION_RETRIES) as [_|Hc]; [|by elim Hc].
  rewrite H1. change (1 + 1)%Z with 2%Z. rewrite while_step, Hv1.
  destruct (Z_lt_dec 2 _MAX_GENERATION_RETRIES) as [_|Hc]; [|by elim Hc].
  destruct (gen 2 w2) as [[r2|e] w3]; [|done].
  change (2 + 1)%Z with 3%Z. rewrite while_step.
  destruct (is_valid kwargs (json_ r2)) eqn:Hv2; [by rewrite Hv2|].
  destruct (Z_lt_dec 3 _MAX_GENERATION_RETRIES) as [Hc|_];
    [by apply Z.lt_irrefl in Hc|].
  by rewrite Hv2.
Qed.

End EnforcerMore.

Section ExecuteFacts.
Import Py Json JsonRecovery Turns ChatLLM Enforcer.

(** Of the keyword arguments [_execute_llm] reads the history and the
    model parameters, and nothing else. *)
Lemma execute_llm_reads (configuration : ClaudeConfiguration)
    (get_completion_llm_args :
       option (gmap string pyval) -> ClaudeConfiguration -> gmap string pyval)
    (create : nat -> creation -> res (list text))
    (input : text) (kwargs kwargs' : LLMInput) (calls : list creation) :
  history kwargs' = history kwargs ->
  model_parameters kwargs' = model_parameters kwargs ->
  _execute_llm configuration get_completion_llm_args create input kwargs' calls
  = _execute_llm configuration get_completion_llm_args create input kwargs
      calls.
Proof. intros Hh Hp. unfold _execute_llm. by rewrite Hh, Hp. Qed.

End ExecuteFacts.

Section EnforcerTheorems.
Import Py Json JsonRecovery Turns ChatLLM Enforcer.

(** X9.  Whatever the back end, the parser and the predicate do, a
    call of [_invoke_json] makes one invocation at least and three at
    most, and its [k]-th invocation (from 0) is the one of attempt [k]:
    the same input, the name [base@k], the caller's model in attempt 0
    or without a fallback model and the fallback model otherwise, the
    model parameters with [response_format] forced in native mode and
    untouched in manual mode, the caller's history and predicate. *)
Theorem invocations_are_the_attempts (float_repr : text -> text)
    (try_parse_json_object : text -> res json)
    (backend : nat -> text -> LLMInput ->
               res (option text * option (list message)))
    (configuration : ClaudeConfiguration) (input : text) (kwargs : LLMInput)
    (w : world) :
  exists invs,
    snd (_invoke_json float_repr try_parse_json_object backend configuration
           input kwargs w) = w ++ invs
    /\ (1 <= length invs <= 3)%nat
    /\ forall k i, invs !! k = Some i ->
                   invocation_of configuration input kwargs k i.
Proof.
  unfold _invoke_json.
  destruct (generate_invokes float_repr try_parse_json_object backend
              configuration input kwargs 0 w) as (i & Hi & Hinv).
  change (Z.of_nat 0) with 0%Z in Hi.
  destruct (generate _ _ _ _ _ _ 0%Z w) as [[r|e] w1]; cbn [snd] in *; subst w1.
  - destruct (retry_while_invokes float_repr try_parse_json_object backend
                configuration input kwargs 2 1 r (w ++ [i]) eq_refl)
      as (invs & Hw & Hlen & Hall).
    change (Z.of_nat 1) with 1%Z in Hw.
    exists (i :: invs). split; [|split; [simpl; lia|]].
    + destruct (retry_while _ _ _ _ _ _ _ _ _) as [[r'|e] w2];
        cbn [snd] in *; subst w2; [|by rewrite <- app_assoc].
      destruct (is_valid kwargs (json_ r')); by rewrite <- app_assoc.
    + intros [|k] i' Hk; simpl in Hk; [by injection Hk as <-|].
      by apply (Hall k).
  - exists [i]. split; [done|]. split; [simpl; lia|].
    intros [|k] i' Hk; simpl in Hk; [by injection Hk as <-|done].
Qed.

(** X10.  The outcome of [_invoke_json] is the outcome of the first
    attempt that raises or returns a result that [is_valid] accepts:
    an exception of an attempt is never retried, and a valid result
    ends the loop.  After two results that [is_valid] rejects, the
    third attempt decides: its exception, its result when valid, the
    terminal error otherwise. *)
Theorem first_decisive_attempt_decides (float_repr : text -> text)
    (try_parse_json_object : text -> res json)
    (backend : nat -> text -> LLMInput ->
               res (option text * option (list message)))
    (configuration : ClaudeConfiguration) (input : text) (kwargs : LLMInput)
    (w : world) :
  let generate :=
    generate float_repr try_parse_json_object backend configuration input
      kwargs in
  let _invoke_json :=
    _invoke_json float_repr try_parse_json_object backend configuration input
      kwargs in
  (decisive kwargs (generate 0%Z w) -> _invoke_json w = generate 0%Z w)
  /\ (forall r0 w1,
        generate 0%Z w = (Ret r0, w1) ->
        is_valid kwargs (json_ r0) = false ->
        (decisive kwargs (generate 1%Z w1) -> _invoke_json w = generate 1%Z w1)
        /\ forall r1 w2,
             generate 1%Z w1 = (Ret r1, w2) ->
             is_valid kwargs (json_ r1) = false ->
             _invoke_json w
             = match generate 2%Z w2 with
               | (Ret r2, w3) =>
                   if is_valid kwargs (json_ r2) then (Ret r2, w3)
                   else (Raise terminal_error, w3)
               | (Raise e, w3) => (Raise e, w3)
               end).
Proof.
  intros gen inv. split; [apply invoke_json_after_none|].
  intros r0 w1 H0 Hv0. split.
  - by apply (invoke_json_after_one _ _ _ _ _ _ w w1 r0).
  - intros r1 w2 H1 Hv1.
    by apply (invoke_json_after_two _ _ _ _ _ _ w w1 w2 r0 r1).
Qed.

(** X10 at a concrete call: in manual mode, with a predicate that
    accepts objects only, a back end that answers in prose first and
    with an object next. *)
Lemma first_decisive_attempt_decides_witness :
  let kwargs := checked_kwargs (txt "claude-a") is_object in
  let run k :=
    generate literal_repr try_parse_json_object_spec
      (answers_after 1 no_json_here (jq "{'ok': true}"))
      (manual_with_fallback (txt "claude-b")) (txt "q") kwargs k in
  _invoke_json literal_repr try_parse_json_object_spec
    (answers_after 1 no_json_here (jq "{'ok': true}"))
    (manual_with_fallback (txt "claude-b")) (txt "q") kwargs []
  = run 1%Z (snd (run 0%Z [])).
Proof.
  apply (proj1 (proj2 (first_decisive_attempt_decides literal_repr
                         try_parse_json_object_spec
                         (answers_after 1 no_json_here (jq "{'ok': true}"))
                         (manual_with_fallback (txt "claude-b")) (txt "q")
                         (checked_kwargs (txt "claude-a") is_object) [])
                  (failed_parse []) _ eq_refl eq_refl)).
  reflexivity.
Defined.

(** X11.  In native JSON mode a parse error is not absorbed: when
    [try_parse_json_object] raises on the output of the first
    invocation, whatever the class of the exception, [_invoke_json]
    raises it after that one invocation and makes no second attempt
    (in manual mode [TypeError] and [JSONDecodeError] are caught). *)
Theorem native_parse_error_propagates (float_repr : text -> text)
    (try_parse_json_object : text -> res json)
    (backend : nat -> text -> LLMInput ->
               res (option text * option (list message)))
    (configuration : ClaudeConfiguration) (input : text) (kwargs : LLMInput)
    (w : world) (raw : option text) (hist : option (list message)) (e : exn) :
  model_supports_json configuration = true ->
  (forall kw, backend (length w) input kw = Ret (raw, hist)) ->
  try_parse_json_object (str_or raw []) = Raise e ->
  exists i,
    _invoke_json float_repr try_parse_json_object backend configuration input
      kwargs w = (Raise e, w ++ [i])
    /\ invocation_of configuration input kwargs 0 i.
Proof.
  intros Hnative Hback Hparse.
  destruct (generate_invokes float_repr try_parse_json_object backend
              configuration input kwargs 0 w) as (i & Hi & Hinv).
  exists i. split; [|done]. change (Z.of_nat 0) with 0%Z in Hi.
  rewrite invoke_json_after_none.
  - revert Hi. unfold generate. rewrite Hnative.
    unfold _native_json, _invoke. rewrite Hback, Hparse. cbn [snd].
    by intros ->.
  - unfold decisive, generate. rewrite Hnative.
    unfold _native_json, _invoke. by rewrite Hback, Hparse.
Qed.

Lemma native_parse_error_propagates_witness :
  exists i,
    _invoke_json literal_repr try_parse_json_object_spec (answers no_json_here)
      native_mode (txt "q") (plain_kwargs (txt "claude-a")) []
    = (Raise JSONDecodeError_exn, [] ++ [i])
    /\ invocation_of native_mode (txt "q") (plain_kwargs (txt "claude-a")) 0 i.
Proof.
  apply (native_parse_error_propagates literal_repr try_parse_json_object_spec
           (answers no_json_here) native_mode (txt "q")
           (plain_kwargs (txt "claude-a")) [] (Some no_json_here) None
           JSONDecodeError_exn).
  - reflexivity.
  - intros kw. reflexivity.
  - reflexivity.
Defined.

(** X12.  An exception of the back end is not retried: when the first
    invocation raises, [_invoke_json] raises the same exception after
    that one invocation, in either mode. *)
Theorem backend_error_is_not_retried (float_repr : text -> text)
    (try_parse_json_object : text -> res json)
    (backend : nat -> text -> LLMInput ->
               res (option text * option (list message)))
    (configuration : ClaudeConfiguration) (input : text) (kwargs : LLMInput)
    (w : world) (e : exn) :
  (forall kw, backend (length w) input kw = Raise e) ->
  exists i,
    _invoke_json float_repr try_parse_json_object backend configuration input
      kwargs w = (Raise e, w ++ [i])
    /\ invocation_of configuration input kwargs 0 i.
Proof.
  intros Hback.
  destruct (generate_invokes float_repr try_parse_json_object backend
              configuration input kwargs 0 w) as (i & Hi & Hinv).
  exists i. split; [|done]. change (Z.of_nat 0) with 0%Z in Hi.
  rewrite invoke_json_after_none.
  - revert Hi. unfold generate.
    destruct (model_supports_json configuration);
      unfold _native_json, _manual_json, _invoke; rewrite Hback; cbn [snd];
      by intros ->.
  - unfold decisive, generate.
    destruct (model_supports_json configuration);
      unfold _native_json, _manual_json, _invoke; by rewrite Hback.
Qed.

Lemma backend_error_is_not_retried_witness :
  exists i,
    _invoke_json literal_repr try_parse_json_object_spec
      (fails_with (Exn RateLimitError []))
      (manual_with_fallback (txt "claude-b")) (txt "q")
      (plain_kwargs (txt "claude-a")) []
    = (Raise (Exn RateLimitError []), [] ++ [i])
    /\ invocation_of (manual_with_fallback (txt "claude-b")) (txt "q")
         (plain_kwargs (txt "claude-a")) 0 i.
Proof.
  apply (backend_error_is_not_retried literal_repr try_parse_json_object_spec
           (fails_with (Exn RateLimitError []))
           (manual_with_fallback (txt "claude-b")) (txt "q")
           (plain_kwargs (txt "claude-a")) [] (Exn RateLimitError [])).
  intros kw. reflexivity.
Defined.

(** X13.  [_execute_llm] sends one request at most.  When the
    completion arguments already hold [messages], the call
    [create(messages=messages, **args)] is a [TypeError] and nothing is
    sent.  Otherwise exactly one request is sent: its messages are the
    turns of the history that are not system turns, in their order,
    followed by the input as a user turn; the content of the last
    system turn of the history, when truthy, is its [system] argument,
    in place of the one of the completion arguments; every other
    argument is the one of the completion arguments.  The answer is
    the text of the first content block, [IndexError] when there is
    none, and the exception of the client when it raises one.  The
    name, the model and the validity predicate of the keyword
    arguments play no part: a call with the same input, history and
    model parameters does the same. *)
Theorem execute_llm_request (configuration : ClaudeConfiguration)
    (get_completion_llm_args :
       option (gmap string pyval) -> ClaudeConfiguration -> gmap string pyval)
    (create : nat -> creation -> res (list text))
    (input : text) (kwargs : LLMInput) (calls : list creation) :
  let turns := default [] (history kwargs) in
  let system_message :=
    match last (List.filter is_system turns) with
    | Some t => get_content t
    | None => VNone
    end in
  let base := get_completion_llm_args (model_parameters kwargs) configuration in
  let run :=
    _execute_llm configuration get_completion_llm_args create input kwargs
      calls in
  (is_Some (base !! "messages"%string) ->
   run = (Raise QueryLLM.multiple_values, calls))
  /\ (base !! "messages"%string = None ->
      exists args,
        run
        = (bind (create (length calls)
                   {| cr_messages :=
                        List.filter not_system turns ++ [user_turn input];
                      cr_args := args |})
             first_block,
           calls ++ [{| cr_messages :=
                          List.filter not_system turns ++ [user_turn input];
                        cr_args := args |}])
        /\ args !! "system"%string
           = (if truthy system_message then Some system_message
              else base !! "system"%string)
        /\ forall key, key <> "system"%string -> args !! key = base !! key)
  /\ (forall kwargs',
        history kwargs' = history kwargs ->
        model_parameters kwargs' = model_parameters kwargs ->
        _execute_llm configuration get_completion_llm_args create input
          kwargs' calls = run).
Proof.
  intros turns system_message base run. subst run.
  assert (Hm : (if truthy system_message
                then <["system"%string := system_message]> base else base)
               !! "messages"%string = base !! "messages"%string).
  { destruct (truthy system_message); [by rewrite lookup_insert_ne|done]. }
  split; [|split].
  - intros Hsome. unfold _execute_llm, extract_system.
    rewrite extract_from. cbn [app]. fold turns system_message base.
    rewrite Hm. by rewrite bool_decide_eq_true_2.
  - intros Hnone. unfold _execute_llm, extract_system.
    rewrite extract_from. cbn [app]. fold turns system_message base.
    rewrite Hm, Hnone.
    rewrite bool_decide_eq_false_2 by by intros [? ?].
    eexists. split; [reflexivity|].
    destruct (truthy system_message); split; intros;
      repeat (rewrite lookup_insert_eq || rewrite lookup_insert_ne by done);
      done.
  - intros kwargs' Hh Hp. by apply execute_llm_reads.
Qed.

End EnforcerTheorems.


(** * The matcher *)
Section MatcherFacts.
Import Py Json Re JsonRecovery Recovery.

Lemma extends_refl (p : pos) : extends p p.
Proof. by exists []. Qed.

Lemma extends_trans (p q r : pos) : extends p q -> extends q r -> extends p r.
Proof.
  intros (m1 & H1 & B1) (m2 & H2 & B2). exists (m1 ++ m2).
  rewrite H1, H2, B2, B1, rev_app_distr, <- !app_assoc. done.
Qed.

Lemma advance_extends (p p' : pos) (c : N) :
  advance p = Some (c, p') -> after p = c :: after p' /\ extends p p'.
Proof.
  unfold advance. destruct (after p) as [|x r] eqn:Hp; [done|].
  intros [= <- <-]. split; [done|]. exists [x]. by rewrite Hp.
Qed.

(** A match leads the continuation to a position further on. *)
Lemma bt_reaches (r : regex) :
  forall (p : pos) (k : pos -> option pos) (q : pos),
    bt r p k = Some q -> exists p', extends p p' /\ k p' = Some q.
Proof.
  induction r as [c|f|r1 IH1 r2 IH2|r1 IH1 r2 IH2|r1 IH1|r1 IH1|lit|r1 IH1];
    intros p k q; cbn [bt].
  - destruct (advance p) as [[c' p']|] eqn:Ha; [|done].
    destruct (c' =? c); [|done]. intros Hk. exists p'.
    split; [by apply advance_extends in Ha as [_ ?]|done].
  - destruct (advance p) as [[c' p']|] eqn:Ha; [|done].
    destruct (f c'); [|done]. intros Hk. exists p'.
    split; [by apply advance_extends in Ha as [_ ?]|done].
  - intros H. apply IH1 in H as (p1 & E1 & H). apply IH2 in H as (p2 & E2 & H).
    exists p2. split; [by eapply extends_trans|done].
  - destruct (bt r1 p k) as [q1|] eqn:H1.
    + intros [= ->]. by apply IH1.
    + apply IH2.
  - generalize (length (after p)). intros n. revert p.
    induction n as [|n IHn]; intros p.
    + intros Hk. exists p. split; [apply extends_refl|done].
    + match goal with
      | |- match ?b with _ => _ end = _ -> _ => destruct b as [q1|] eqn:H1
      end.
      * intros [= ->]. apply IH1 in H1 as (p1 & E1 & H1).
        destruct (_ <? _)%nat; [|done].
        apply IHn in H1 as (p2 & E2 & H2). exists p2.
        split; [by eapply extends_trans|done].
      * intros Hk. exists p. split; [apply extends_refl|done].
  - generalize (length (after p)). intros n. revert p.
    induction n as [|n IHn]; intros p.
    + destruct (k p) as [q1|] eqn:Hk; [|done]. intros [= ->].
      exists p. split; [apply extends_refl|done].
    + destruct (k p) as [q1|] eqn:Hk.
      * intros [= ->]. exists p. split; [apply extends_refl|done].
      * intros H1. apply IH1 in H1 as (p1 & E1 & H1).
        destruct (_ <? _)%nat; [|done].
        apply IHn in H1 as (p2 & E2 & H2). exists p2.
        split; [by eapply extends_trans|done].
  - destruct (startswith _ _); [|done]. intros Hk. exists p.
    split; [apply extends_refl|done].
  - destruct (bt r1 p Some); [|done]. intros Hk. exists p.
    split; [apply extends_refl|done].
Qed.

(** The text of a match is the stretch between its two ends. *)
Lemma matched_extends (p q : pos) (m : text) :
  after p = m ++ after q -> matched p q = m.
Proof.
  intros H. unfold matched. rewrite H, length_app.
  replace (length m + length (after q) - length (after q))%nat
    with (length m) by lia.
  by rewrite take_app_length.
Qed.

(** A match of the pattern begins with an opening brace. *)
Lemma json_pattern_head (p q : pos) :
  match_at json_pattern p = Some q ->
  exists t, matched p q = ch "{" :: t.
Proof.
  unfold match_at, json_pattern.
  match goal with |- bt (RSeq _ ?R) p Some = Some q -> _ => set (rest := R) end.
  cbn [bt].
  destruct (advance p) as [[c p1]|] eqn:Ha; [|done].
  destruct (N.eqb_spec c (ch "{")) as [->|]; [|done].
  apply advance_extends in Ha as [Hp _].
  intros H. apply bt_reaches in H as (p' & (m & Hm & _) & [= ->]).
  exists m. apply matched_extends. by rewrite Hp, Hm.
Qed.

Lemma search_json_head (pre suf js : text) :
  search_from json_pattern pre suf = Some js -> exists t, js = ch "{" :: t.
Proof.
  revert pre. induction suf as [|c suf IH]; intros pre; cbn [search_from].
  - destruct (match_at json_pattern (Pos pre [])) as [q|] eqn:Hm; [|done].
    intros [= <-]. by apply json_pattern_head.
  - destruct (match_at json_pattern (Pos pre (c :: suf))) as [q|] eqn:Hm.
    + intros [= <-]. by apply json_pattern_head.
    + apply IH.
Qed.

(** The loop over the members of an object returns an object. *)
Lemma parse_members_object (f : nat) :
  forall s acc v r,
    parse_members f s acc = Found v r -> exists members, v = JObj members.
Proof.
  induction f as [|f IH]; intros s acc v r; cbn [parse_members]; [done|].
  destruct s as [|c r0]; [done|].
  destruct (c =? DQUOTE); [|done].
  destruct (scanstring r0 []) as [key r1| |]; [|done..].
  destruct (skip_ws r1) as [|c2 r2]; [done|].
  destruct (c2 =? ch ":"); [|done].
  destruct (scan_once f (skip_ws r2)) as [v1 r3| |]; [|done..].
  destruct (skip_ws r3) as [|c4 r4]; [done|].
  destruct (c4 =? ch "}"); [intros [= <- _]; by eexists|].
  destruct (c4 =? ch ","); [|done]. apply IH.
Qed.

(** A text that begins with an opening brace parses to an object, if
    it parses. *)
Lemma loads_brace_object (t : text) (v : json) :
  loads (ch "{" :: t) = Ret v -> exists members, v = JObj members.
Proof.
  unfold loads. rewrite skip_ws_id by done.
  generalize (2 * length (ch "{" :: t) + 2)%nat. intros [|f]; [done|].
  cbn [scan_once].
  change (ch "{" =? DQUOTE) with false. change (ch "{" =? ch "{") with true.
  cbv beta iota.
  destruct (skip_ws t) as [|c1 r1]; [done|].
  destruct (c1 =? ch "}").
  - destruct (skip_ws r1); [|done]. intros [= <-]. by eexists.
  - destruct (parse_members f (c1 :: r1) []) as [v0 rest| |] eqn:Hm; [|done..].
    destruct (skip_ws rest); [|done]. intros [= <-].
    by apply parse_members_object in Hm.
Qed.

(** The repair step leaves an opening brace at the head in place. *)
Lemma fix_json_structure_head (t : text) :
  exists t', fix_json_structure (ch "{" :: t) = ch "{" :: t'.
Proof.
  unfold fix_json_structure, sub.
  cbn [sub_from]. unfold match_at at 1, missing_comma_pattern at 1.
  cbn [bt advance after]. change (ch "{" =? ch "}") with false.
  cbv beta iota.
  cbn [sub_from]. unfold match_at at 1, unescaped_quote_pattern at 1.
  cbn [bt before rev app startswith]. by eexists.
Qed.

(** The greedy loop of the pattern over a stretch without braces that
    a closing brace follows: the loop runs to that brace, where its body
    has no match, and hands over to the continuation. *)
Lemma star_to_closing_brace (X : regex) (k : pos -> option pos)
    (body q : text) (q0 : pos) :
  Forall (fun c => not_brace c = true) body ->
  forall pre,
    k (Pos (rev body ++ pre) (ch "}" :: q)) = Some q0 ->
    bt (RStar (RAlt (RSet not_brace) (RSeq (RChr (ch "{")) X)))
      (Pos pre (body ++ ch "}" :: q)) k = Some q0.
Proof.
  induction 1 as [|c body Hc Hbody IH]; intros pre Hk.
  - cbn [bt after app length advance].
    change (not_brace (ch "}")) with false.
    change (ch "}" =? ch "{") with false. cbv beta iota. exact Hk.
  - specialize (IH (c :: pre)).
    cbn [rev] in Hk. rewrite <- app_assoc in Hk. specialize (IH Hk).
    cbn [bt] in IH |- *. cbn [after app length advance before].
    cbn [after] in IH. rewrite Hc.
    assert ((length (body ++ ch "}" :: q)
             <? S (length (body ++ ch "}" :: q)))%nat = true) as ->
      by (apply Nat.ltb_lt; lia).
    by rewrite IH.
Qed.

(** The match of the pattern at an object without inner braces. *)
Lemma json_pattern_flat (pre body q : text) :
  Forall (fun c => not_brace c = true) body ->
  match_at json_pattern (Pos pre (ch "{" :: body ++ ch "}" :: q))
  = Some (Pos (ch "}" :: rev body ++ ch "{" :: pre) q).
Proof.
  intros Hbody. unfold match_at, json_pattern.
  match goal with
  | |- bt (RSeq _ (RSeq ?S ?C)) _ _ = _ => set (star := S)
  end.
  cbn [bt advance after before]. change (ch "{" =? ch "{") with true.
  cbv beta iota. subst star.
  apply star_to_closing_brace; [done|].
  cbn [advance after before]. by change (ch "}" =? ch "}") with true.
Qed.

(** The search passes over a stretch without opening brace. *)
Lemma search_from_skip (prose : text) :
  Forall (fun c => c <> ch "{") prose ->
  forall pre suf,
    suf <> [] ->
    search_from json_pattern pre (prose ++ suf)
    = search_from json_pattern (rev prose ++ pre) suf.
Proof.
  induction 1 as [|c prose Hc Hprose IH]; intros pre suf Hsuf; [done|].
  cbn [app search_from].
  assert (match_at json_pattern (Pos pre (c :: prose ++ suf)) = None) as ->.
  { unfold match_at, json_pattern. cbn [bt advance after].
    by destruct (N.eqb_spec c (ch "{")). }
  rewrite IH by done. cbn [rev]. by rewrite <- app_assoc.
Qed.

End MatcherFacts.

(** * The Markdown frame *)
Section FrameFacts.
Import Py Json Re JsonRecovery Recovery.

(** An occurrence cannot begin in a stretch that lacks its first
    character. *)
Lemma contains_skip (c : N) (p frame x : text) :
  Forall (fun a => a <> c) frame ->
  contains (frame ++ x) (c :: p) = contains x (c :: p).
Proof.
  induction 1 as [|a frame Ha Hframe IH]; [done|].
  cbn [app contains startswith]. rewrite IH.
  by destruct (N.eqb_spec a c).
Qed.

(** Nor can it reach into a stretch that lacks all of its characters. *)
Lemma startswith_reach (p x frame : text) :
  Forall (fun a => a ∉ p) frame ->
  startswith x p = false -> startswith (x ++ frame) p = false.
Proof.
  intros Hframe. revert x. induction p as [|c p IH]; intros x; [done|].
  assert (Hp : Forall (fun a => a ∉ p) frame).
  { eapply Forall_impl; [exact Hframe|]. intros a Ha Hin. apply Ha.
    by right. }
  destruct x as [|a x]; cbn [app startswith].
  - intros _. destruct Hframe as [|a frame Ha _]; [done|].
    cbn [startswith]. destruct (N.eqb_spec a c) as [->|]; [|done].
    elim Ha. by left.
  - destruct (a =? c); [|done]. cbn [andb]. by apply IH.
Qed.

Lemma contains_reach (p x frame : text) :
  p <> [] ->
  Forall (fun a => a ∉ p) frame ->
  contains x p = false -> contains (x ++ frame) p = false.
Proof.
  intros Hne Hframe. induction x as [|a x IH].
  - intros _. cbn [app].
    destruct p as [|c p]; [done|].
    apply contains_absent_head. eapply Forall_impl; [exact Hframe|].
    intros a Ha ->. apply Ha. by left.
  - cbn [app contains]. intros H. apply orb_false_iff in H as [H1 H2].
    pose proof (startswith_reach p (a :: x) frame Hframe H1) as H3.
    cbn [app] in H3. by rewrite H3, IH.
Qed.

(** The valid JSON at the core of a text that [json.loads] accepts:
    the text is the core between two stretches of white space, and the
    core, freed of its line breaks, parses to the same value whatever
    white space follows it. *)
Lemma loads_core (s : text) (v : json) :
  loads s = Ret v -> no_backslash s ->
  exists w1 body w2,
    s = w1 ++ body ++ w2 /\ all_ws w1 /\ all_ws w2
    /\ head_ok (unbreak body) /\ last_ok (unbreak body)
    /\ forall w w', all_ws w -> all_ws w' ->
                     loads (w ++ unbreak body ++ w') = Ret v.
Proof.
  intros Hload Hb. unfold loads in Hload.
  destruct (scan_once _ (skip_ws s)) as [v0 rest| |] eqn:Hscan; [|done..].
  destruct (skip_ws rest) eqn:Hrest; [|done]. injection Hload as ->.
  destruct (skip_ws_split s) as (w0 & Hs & Hw0).
  assert (Hbs : no_backslash (skip_ws s)).
  { unfold no_backslash in *. rewrite Hs in Hb.
    by apply Forall_app in Hb as [_ ?]. }
  destruct (proj1 (scan_once_local _) _ _ _ Hbs Hscan)
    as (body & Hbody & Hh & Hl & L).
  apply skip_ws_nil in Hrest.
  exists w0, body, rest. split; [by rewrite Hs at 1; rewrite Hbody|].
  do 4 (split; [done|]).
  intros w w' Hw Hw'. unfold loads.
  assert (skip_ws (w ++ unbreak body ++ w') = unbreak body ++ w') as ->.
  { rewrite skip_ws_app by done.
    destruct Hh as (c & t & -> & Ho). by apply skip_ws_id, opening_not_ws. }
  rewrite (L w').
  - assert (skip_ws w' = []) as ->; [|done].
    rewrite <- (app_nil_r w'). by rewrite skip_ws_app.
  - destruct Hw' as [|c w' Hc _]; [done|]. by apply ws_stops.
  - rewrite !length_app. lia.
Qed.

End FrameFacts.

Section RecoveryTheorems.
Import Py Json Re JsonRecovery Recovery.

(** X14.  What [extract_json_object] returns is an object: the text
    it parses is a match of the pattern, which begins with an opening
    brace, and the repair step leaves that brace in place; the decoder
    reads an object from such a text or fails.  No list, string or
    number is ever returned. *)
Theorem extract_json_object_is_an_object (raw_str : text) (v : json) :
  extract_json_object raw_str = Ret (Some v) ->
  exists members, v = JObj members.
Proof.
  unfold extract_json_object, search.
  destruct (search_from json_pattern [] raw_str) as [js|] eqn:Hs; [|done].
  apply search_json_head in Hs as (t & ->).
  destruct (loads (ch "{" :: t)) as [v0|e] eqn:Hl.
  - cbn [bind try_except]. intros [= <-]. by apply loads_brace_object in Hl.
  - apply loads_raises in Hl as ->. cbn [bind try_except].
    change (isinstance JSONDecodeError_exn [JSONDecodeError]) with true.
    cbv beta iota.
    destruct (fix_json_structure_head t) as (t' & ->).
    destruct (loads (ch "{" :: t')) as [v1|e] eqn:Hl'.
    + cbn [bind try_except]. intros [= <-]. by apply loads_brace_object in Hl'.
    + apply loads_raises in Hl' as ->. cbn [bind try_except].
      change (isinstance JSONDecodeError_exn [JSONDecodeError]) with true.
      done.
Qed.

Lemma extract_json_object_is_an_object_witness :
  exists members, JObj [(txt "a", JInt 1)] = JObj members.
Proof.
  apply (extract_json_object_is_an_object two_objects). reflexivity.
Defined.

(** X15.  An object wrapped in prose is extracted: when the text
    before the object holds no opening brace, the object holds no brace
    between its own two (no nested object, no brace inside a string)
    and is valid JSON, [extract_json_object] returns its value,
    whatever follows it. *)
Theorem flat_object_in_prose_is_extracted (prose body rest : text) (v : json) :
  Forall (fun c => c <> ch "{") prose ->
  Forall (fun c => not_brace c = true) body ->
  loads (ch "{" :: body ++ [ch "}"]) = Ret v ->
  extract_json_object (prose ++ ch "{" :: body ++ ch "}" :: rest)
  = Ret (Some v).
Proof.
  intros Hprose Hbody Hloads. unfold extract_json_object, search.
  rewrite search_from_skip by done.
  cbn [search_from]. rewrite json_pattern_flat by done.
  rewrite (matched_extends _ _ (ch "{" :: body ++ [ch "}"]))
    by (cbn [after app]; by rewrite <- app_assoc).
  by rewrite Hloads.
Qed.

Lemma flat_object_in_prose_is_extracted_witness :
  extract_json_object chatty_reply
  = Ret (Some (JObj [(txt "a", JArr [JInt 1; JInt 2]); (txt "b", JStr (txt "x"))])).
Proof.
  apply (flat_object_in_prose_is_extracted (txt "Sure! Here it is: ")
           (jq "'a': [1, 2], 'b': 'x'") (txt " Hope this helps {really}.")).
  - apply Forall_forall. intros c Hc. apply list_elem_of_In in Hc.
    vm_compute in Hc.
    repeat (destruct Hc as [<- | Hc]; [discriminate|]). destruct Hc.
  - apply Forall_forall. intros c Hc. apply list_elem_of_In in Hc.
    vm_compute in Hc.
    repeat (destruct Hc as [<- | Hc]; [reflexivity|]). destruct Hc.
  - reflexivity.
Defined.

(** X16.  A Markdown frame around valid JSON is removed.  For a text
    [s] that is valid JSON and on which the lossy replacements find
    nothing to change (no backslash and, once the line breaks are
    removed, neither a double quote before [[{] nor one after [}]]),
    [clean_up_json] turns [s] between the fences [```json] and [```]
    into [s] without its line breaks, and that output parses to the
    value of [s]. *)
Theorem fenced_json_is_unwrapped (float_repr : text -> text)
    (s : text) (v : json) :
  loads s = Ret v ->
  no_backslash s ->
  contains (unbreak s) [DQUOTE; ch "["; ch "{"] = false ->
  contains (unbreak s) [ch "}"; ch "]"; DQUOTE] = false ->
  clean_up_json float_repr (fenced s) = Ret (unbreak s)
  /\ loads (unbreak s) = Ret v.
Proof.
  intros Hload Hb H1 H2.
  destruct (loads_core s v Hload Hb)
    as (w1 & body & w2 & Hs & Hw1 & Hw2 & Hh & Hl & L).
  set (u := unbreak s) in *.
  assert (Hu : u = unbreak w1 ++ unbreak body ++ unbreak w2)
    by (subst u; by rewrite Hs, !unbreak_app).
  assert (Hloads : loads u = Ret v).
  { rewrite Hu. apply L; by apply all_ws_unbreak. }
  split; [|done].
  (* the head of [u] is white space or opens a value *)
  assert (Hj : startswith (u ++ txt "```") (txt "json") = false).
  { rewrite Hu. destruct Hh as (c & t & -> & Ho).
    apply all_ws_unbreak in Hw1.
    destruct Hw1 as [|a w Ha _]; cbn [app startswith txt].
    - destruct (opening_plain c Ho) as (_ & _ & Hcj). unfold ch in Hcj.
      by rewrite Hcj.
    - destruct (N.eqb_spec a (N_of_ascii "j")) as [->|]; done. }
  (* the replacements change nothing *)
  assert (Hbf : no_backslash (fenced s)).
  { unfold fenced, no_backslash. apply Forall_app_2; [|apply Forall_app_2];
      [|done|]; by repeat constructor. }
  assert (Huf : unbreak (fenced s) = txt "```json" ++ u ++ txt "```").
  { unfold fenced. by rewrite !unbreak_app. }
  assert (Hframe : forall p : text,
            p = [DQUOTE; ch "["; ch "{"] \/ p = [ch "}"; ch "]"; DQUOTE] ->
            contains u p = false ->
            contains (unbreak (fenced s)) p = false).
  { intros p Hp Hc. rewrite Huf.
    destruct Hp as [-> | ->].
    - rewrite contains_skip
        by (repeat constructor; discriminate).
      apply contains_reach; [done| |done].
      repeat constructor; intros Hin; vm_compute in Hin;
        repeat (apply elem_of_cons in Hin as [Hin|Hin]; [done|]);
        by apply elem_of_nil in Hin.
    - rewrite contains_skip
        by (repeat constructor; discriminate).
      apply contains_reach; [done| |done].
      repeat constructor; intros Hin; vm_compute in Hin;
        repeat (apply elem_of_cons in Hin as [Hin|Hin]; [done|]);
        by apply elem_of_nil in Hin. }
  unfold clean_up_json.
  rewrite strip_escapes_plain by (try done; apply Hframe; auto).
  rewrite Huf.
  assert (strip (txt "```json" ++ u ++ txt "```")
          = txt "```json" ++ u ++ txt "```") as ->.
  { pose proof (strip_core [] (txt "```json" ++ u ++ txt "```") []
                  (ch "`") (ch "`") (txt "``json" ++ u ++ txt "```")
                  (txt "```json" ++ u ++ txt "``")) as Hst.
    cbn [app] in Hst. rewrite app_nil_r in Hst. apply Hst; try done.
    cbn [txt app]. by rewrite <- !app_assoc. }
  assert (remove_frame (txt "```json" ++ u ++ txt "```") = u) as ->.
  { unfold remove_frame. rewrite startswith_prefix.
    rewrite drop_app_length. rewrite Hj.
    assert (endswith (u ++ txt "```") (txt "```") = true) as ->.
    { unfold endswith. rewrite rev_app_distr. apply startswith_prefix. }
    rewrite length_app, Nat.add_sub. by rewrite take_app_length. }
  by rewrite Hloads.
Qed.

Lemma fenced_json_is_unwrapped_witness :
  clean_up_json literal_repr fenced_reply
  = Ret (jq "{'a': [1, 2], 'b': 'x'}")
  /\ loads (jq "{'a': [1, 2], 'b': 'x'}")
     = Ret (JObj [(txt "a", JArr [JInt 1; JInt 2]); (txt "b", JStr (txt "x"))]).
Proof.
  apply (fenced_json_is_unwrapped literal_repr
           ([LF] ++ jq "{'a': [1, 2], 'b': 'x'}" ++ [LF])).
  - reflexivity.
  - unfold no_backslash. apply Forall_forall. intros c Hc.
    apply list_elem_of_In in Hc. vm_compute in Hc.
    repeat (destruct Hc as [<- | Hc]; [discriminate|]). destruct Hc.
  - reflexivity.
  - reflexivity.
Defined.

End RecoveryTheorems.


(** * Instances and their clients *)
Section InstanceFacts.
Import Py QueryLLM Instances.

Lemma getattr_setattr (o : instance) (name : string) (v : attr) :
  getattr (setattr o name v) name = Ret v.
Proof. unfold getattr, setattr. cbn [attrs]. by rewrite lookup_insert_eq. Qed.

Lemma getattr_setattr_ne (o : instance) (name other : string) (v : attr) :
  name <> other -> getattr (setattr o name v) other = getattr o other.
Proof.
  intros H. unfold getattr, setattr. cbn [attrs class_of].
  by rewrite lookup_insert_ne.
Qed.

Lemma getattr_new (c : wrapper) (name : string) :
  class_attribute name = None ->
  getattr {| class_of := c; attrs := ∅ |} name
  = Raise (attribute_error c name).
Proof. intros H. unfold getattr. cbn [attrs class_of]. by rewrite lookup_empty, H. Qed.

Lemma class_of_setattr (o : instance) (name : string) (v : attr) :
  class_of (setattr o name v) = class_of o.
Proof. done. Qed.

End InstanceFacts.

Ltac attrs :=
  repeat first
    [ rewrite getattr_setattr
    | rewrite getattr_setattr_ne by discriminate
    | rewrite getattr_new by reflexivity ].

Section InstanceTheorems.
Import Py QueryLLM Instances.

(** X17.  A [Claude] of claude.py has no client: its constructor
    stores its arguments and does not call the constructor of
    [ClaudeLLMImpl], so that reading [sync_client] or [async_client]
    raises [AttributeError], and so does [_create_claude_client], for
    want of [request_timeout], whatever the SDK would do.  Clients
    given through [set_clients] are the ones the properties return. *)
Theorem fresh_claude_has_no_client (sdk_refuses : attr -> option exn)
    (api_key model api_base api_version api_type organization max_retries
       retry_error_types : attr) (sync async : attr) :
  let self :=
    Claude_init api_key model api_base api_version api_type organization
      max_retries retry_error_types in
  sync_client_getter self = Raise (attribute_error Claude "_sync_client")
  /\ async_client_getter self = Raise (attribute_error Claude "_async_client")
  /\ _create_claude_client sdk_refuses self
     = Raise (attribute_error Claude "request_timeout")
  /\ sync_client_getter (set_clients self sync async) = Ret sync
  /\ async_client_getter (set_clients self sync async) = Ret async.
Proof.
  intros self. subst self.
  unfold sync_client_getter, async_client_getter, _create_claude_client,
    set_clients, Claude_init.
  repeat split; attrs; try reflexivity.
Qed.

(** X18.  When the SDK accepts both clients, a [ChatClaude] is built
    without any report, and its two clients are made of the same
    arguments: the key, the base address, the request timeout, and the
    wrapper's own [max_retries], so that the SDK retries by itself
    under the retry loop of [generate].  The reporter of the caller is
    stored as [reporter], while [_reporter], to which errors are
    reported, stays the reporter of the class. *)
Theorem chat_claude_construction (sdk_refuses : attr -> option exn)
    (a : impl_args) (model retry_error_types : attr) (w : list report) :
  sdk_refuses (client_of sync_client a) = None ->
  sdk_refuses (client_of async_client a) = None ->
  exists self,
    ChatClaude_init sdk_refuses a model retry_error_types w = (Ret self, w)
    /\ sync_client_getter self = Ret (client_of sync_client a)
    /\ async_client_getter self = Ret (client_of async_client a)
    /\ getattr self "model" = Ret model
    /\ getattr self "max_retries" = Ret (arg_max_retries a)
    /\ getattr self "retry_error_types" = Ret retry_error_types
    /\ getattr self "reporter"
       = Ret (AReporter (default console_reporter (arg_reporter a)))
    /\ getattr self "_reporter" = Ret (AReporter class_reporter).
Proof.
  intros Hs Ha.
  unfold ChatClaude_init, ClaudeLLMImpl_init, BaseClaudeLLM_init,
    _create_claude_client, new_client, client_of in *.
  attrs. cbn [bind]. rewrite Hs. cbn [bind]. rewrite Ha. cbn [bind].
  eexists. split; [reflexivity|].
  unfold sync_client_getter, async_client_getter, set_clients.
  repeat split; attrs; reflexivity.
Qed.

Lemma chat_claude_construction_witness :
  let a := default_args (AStr (txt "sk-1")) (Some (given_reporter 7)) in
  exists self,
    ChatClaude_init accepting a (AStr (txt "claude-3"))
      (ATypes CLAUDE_RETRY_ERROR_TYPES) [] = (Ret self, [])
    /\ sync_client_getter self = Ret (client_of sync_client a)
    /\ async_client_getter self = Ret (client_of async_client a)
    /\ getattr self "model" = Ret (AStr (txt "claude-3"))
    /\ getattr self "max_retries" = Ret (AInt 10)
    /\ getattr self "retry_error_types" = Ret (ATypes CLAUDE_RETRY_ERROR_TYPES)
    /\ getattr self "reporter" = Ret (AReporter (given_reporter 7))
    /\ getattr self "_reporter" = Ret (AReporter class_reporter).
Proof.
  apply (chat_claude_construction accepting
           (default_args (AStr (txt "sk-1")) (Some (given_reporter 7)))
           (AStr (txt "claude-3")) (ATypes CLAUDE_RETRY_ERROR_TYPES) []).
  - reflexivity.
  - reflexivity.
Defined.

(** X19.  When the SDK refuses a client with an exception that derives
    from [Exception], be it the synchronous client or, the synchronous
    one made, the asynchronous one, the constructor of [ChatClaude]
    raises that exception, after one report of the failure, with the
    class name and the text of the exception.  The report goes to the
    reporter of the class, also when the caller passed a reporter of
    its own. *)
Theorem failed_construction_is_reported (sdk_refuses : attr -> option exn)
    (a : impl_args) (model retry_error_types : attr) (w : list report)
    (e : exn) :
  sdk_refuses (client_of sync_client a) = Some e
  \/ (sdk_refuses (client_of sync_client a) = None
      /\ sdk_refuses (client_of async_client a) = Some e) ->
  isinstance e [Exception] = true ->
  ChatClaude_init sdk_refuses a model retry_error_types w
  = (Raise e, w ++ [construction_failure ChatClaude e]).
Proof.
  intros Hsdk He.
  unfold ChatClaude_init, ClaudeLLMImpl_init, BaseClaudeLLM_init,
    _create_claude_client, new_client, client_of in *.
  attrs. cbn [bind].
  destruct Hsdk as [Hs | [Hs Ha]].
  - rewrite Hs. cbn [bind]. rewrite He. by attrs.
  - rewrite Hs. cbn [bind]. rewrite Ha. cbn [bind]. rewrite He. by attrs.
Qed.

Lemma failed_construction_is_reported_witness :
  ChatClaude_init (refusing_async (Exn AnthropicError (txt "no key")))
    (default_args ANone (Some (given_reporter 7))) (AStr (txt "claude-3"))
    (ATypes CLAUDE_RETRY_ERROR_TYPES) []
  = (Raise (Exn AnthropicError (txt "no key")),
     [] ++ [construction_failure ChatClaude (Exn AnthropicError (txt "no key"))]).
Proof.
  apply (failed_construction_is_reported
           (refusing_async (Exn AnthropicError (txt "no key")))
           (default_args ANone (Some (given_reporter 7)))
           (AStr (txt "claude-3")) (ATypes CLAUDE_RETRY_ERROR_TYPES) []
           (Exn AnthropicError (txt "no key"))).
  - right. split; reflexivity.
  - reflexivity.
Defined.

End InstanceTheorems.


(** * Numbers in decimal *)
From Stdlib Require DecimalN DecimalFacts.

Section DecimalTexts.
Import Py Json RoundTrip.

Lemma digits_of_uint_acc (d : Decimal.uint) :
  forall acc : positive,
    fold_left (fun a c => a * 10 + (c - 48))
      (txt (NilEmpty.string_of_uint d)) (Npos acc)
    = Npos (Pos.of_uint_acc d acc).
Proof.
  induction d as [|d IH|d IH|d IH|d IH|d IH|d IH|d IH|d IH|d IH|d IH];
    intros acc; [done|..];
    cbn [NilEmpty.string_of_uint txt fold_left Pos.of_uint_acc];
    rewrite <- IH; f_equal; cbn; lia.
Qed.

Lemma digits_of_uint (d : Decimal.uint) :
  N_of_digits (txt (NilEmpty.string_of_uint d)) = N.of_uint d.
Proof.
  unfold N_of_digits, N.of_uint.
  induction d as [|d IH|d IH|d IH|d IH|d IH|d IH|d IH|d IH|d IH|d IH];
    [done|exact IH|..];
    cbn [NilEmpty.string_of_uint txt fold_left Pos.of_uint];
    rewrite <- digits_of_uint_acc; f_equal.
Qed.

Lemma digits_of_uint_all (d : Decimal.uint) :
  all_digits (txt (NilEmpty.string_of_uint d)).
Proof.
  induction d; cbn [NilEmpty.string_of_uint txt]; by constructor.
Qed.

(** [str(n)] is [0], or digits of which the first is not [0]; it reads
    back as [n]. *)
Lemma str_of_N_digits (n : N) :
  exists c t,
    str_of_N n = c :: t /\ is_digit c = true /\ all_digits t
    /\ (c = ch "0" -> t = [])
    /\ N_of_digits (str_of_N n) = n.
Proof.
  unfold str_of_N.
  assert (Hn : N.to_uint n = Decimal.unorm (N.to_uint n)).
  { rewrite <- DecimalN.Unsigned.to_of. by rewrite DecimalN.Unsigned.of_to. }
  assert (Hv : N.of_uint (N.to_uint n) = n) by apply DecimalN.Unsigned.of_to.
  revert Hn Hv. generalize (N.to_uint n). intros d Hd Hv.
  assert (Hall := digits_of_uint_all d).
  assert (Hval := digits_of_uint d). rewrite Hv in Hval.
  unfold Decimal.unorm in Hd.
  pose proof (DecimalFacts.nzhead_nonzero d) as Hnz.
  destruct (Decimal.nzhead d) as [|u|u|u|u|u|u|u|u|u|u] eqn:E;
    try (by elim (Hnz u));
    rewrite Hd in Hall, Hval |- *;
    cbn [NilZero.string_of_uint NilEmpty.string_of_uint txt] in *;
    inversion Hall; subst;
    eexists _, _; (split; [reflexivity|]);
    repeat split; try done.
Qed.

Lemma match_number_digits (n : N) (neg : bool) (rest : text) :
  stops rest = true ->
  number_after_sign neg (str_of_N n ++ rest)
  = Found (JInt (if neg then - Z.of_N n else Z.of_N n)%Z) rest.
Proof.
  intros Hrest.
  destruct (str_of_N_digits n) as (c & t & Hs & Hc & Ht & H0 & Hval).
  unfold number_after_sign.
  assert (match_int_part (str_of_N n ++ rest) = Some (str_of_N n, rest)) as ->.
  { rewrite Hs. cbn [app match_int_part].
    destruct (N.eqb_spec c (ch "0")) as [E|E].
    - by rewrite (H0 E).
    - rewrite Hc, span_digits_app by (try done; by apply stops_nd). done. }
  rewrite match_frac_none, match_exp_none by done.
  by rewrite Hval.
Qed.

(** [str(z)] reads back as the integer [z]. *)
Lemma scan_once_int (z : Z) (rest : text) (g : nat) :
  stops rest = true ->
  scan_once (S g) (str_of_Z z ++ rest) = Found (JInt z) rest.
Proof.
  intros Hrest. unfold str_of_Z. destruct z as [|p|p].
  - destruct (str_of_N_digits (Z.to_N 0)) as (c & t & Hs & Hc & _).
    rewrite Hs. cbn [app]. rewrite scan_once_number by (by left).
    unfold match_number.
    destruct (N.eqb_spec c (ch "-")) as [->|_]; [done|].
    change (c :: t ++ rest) with ((c :: t) ++ rest). rewrite <- Hs.
    by rewrite match_number_digits.
  - destruct (str_of_N_digits (Z.to_N (Z.pos p))) as (c & t & Hs & Hc & _).
    rewrite Hs. cbn [app]. rewrite scan_once_number by (by left).
    unfold match_number.
    destruct (N.eqb_spec c (ch "-")) as [->|_]; [done|].
    change (c :: t ++ rest) with ((c :: t) ++ rest). rewrite <- Hs.
    by rewrite match_number_digits.
  - destruct (str_of_N_digits (N.pos p)) as (c & t & Hs & Hc & _).
    cbn [app]. rewrite Hs.
    rewrite (scan_once_number g (ch "-") (c :: t) rest)
      by (right; split; [done|by eexists _, _]).
    unfold match_number. change (ch "-" =? ch "-") with true. cbv iota.
    rewrite <- Hs. by rewrite match_number_digits.
Qed.

End DecimalTexts.

(** * Strings under [ensure_ascii] *)
Section StringFacts.
Import Py Json RoundTrip.

Lemma hex_value_digit (d : N) : d < 16 -> hex_value (hex_digit d) = Some d.
Proof.
  intros H. destruct d as [|p]; [reflexivity|].
  do 4 (destruct p as [p|p|]; try reflexivity); lia.
Qed.

Lemma hex4_digits (c : N) :
  c < 65536 ->
  hex4 (hex_digit (c / 4096 mod 16)) (hex_digit (c / 256 mod 16))
    (hex_digit (c / 16 mod 16)) (hex_digit (c mod 16)) = Some c.
Proof.
  intros H. unfold hex4.
  rewrite !hex_value_digit by (by apply N.mod_lt).
  f_equal. zify. Z.to_euclidean_division_equations. lia.
Qed.

Lemma scalar_not_high (c : N) : scalar c = true -> is_high_surrogate c = false.
Proof.
  unfold scalar, is_high_surrogate. intros H.
  apply andb_false_iff.
  apply orb_true_iff in H as [H|H].
  - apply N.ltb_lt in H. left. apply N.leb_gt. lia.
  - apply andb_true_iff in H as [H _]. apply N.ltb_lt in H.
    right. apply N.leb_gt. lia.
Qed.

(** A [\uXXXX] escape that is not the first half of a pair. *)
Lemma scanstring_u (c : N) (r2 acc : text) :
  c < 65536 -> is_high_surrogate c = false ->
  scanstring (u_escape c ++ r2) acc = scanstring r2 (c :: acc).
Proof.
  intros Hc Hs. unfold u_escape. cbn [app scanstring].
  change (BSLASH =? DQUOTE) with false. change (BSLASH =? BSLASH) with true.
  change (ch "u" =? ch "u") with true. cbv iota.
  rewrite hex4_digits by done.
  destruct r2 as [|? [|? [|? [|? [|? [|? ?]]]]]]; try reflexivity.
  by rewrite Hs.
Qed.

(** A pair of [\uXXXX] escapes for a character beyond the basic
    plane. *)
Lemma scanstring_pair (c : N) (r3 acc : text) :
  65536 <= c -> c < 1114112 -> r3 <> [] ->
  scanstring
    (u_escape (55296 + (c - 65536) / 1024 mod 1024)
     ++ u_escape (56320 + (c - 65536) mod 1024) ++ r3) acc
  = scanstring r3 (c :: acc).
Proof.
  intros Hlo Hhi Hr3.
  set (hi := 55296 + (c - 65536) / 1024 mod 1024).
  set (lo := 56320 + (c - 65536) mod 1024).
  assert (Hh : 55296 <= hi /\ hi <= 56319).
  { subst hi. zify. Z.to_euclidean_division_equations. lia. }
  assert (Hl : 56320 <= lo /\ lo <= 57343).
  { subst lo. zify. Z.to_euclidean_division_equations. lia. }
  assert (Hj : join_surrogates hi lo = c).
  { unfold join_surrogates. subst hi lo.
    zify. Z.to_euclidean_division_equations. lia. }
  assert (Hhs : is_high_surrogate hi = true).
  { unfold is_high_surrogate. apply andb_true_iff. split; apply N.leb_le; lia. }
  assert (Hls : is_low_surrogate lo = true).
  { unfold is_low_surrogate. apply andb_true_iff. split; apply N.leb_le; lia. }
  destruct r3 as [|x r3]; [done|].
  unfold u_escape. cbn [app scanstring].
  change (BSLASH =? DQUOTE) with false. change (BSLASH =? BSLASH) with true.
  change (ch "u" =? ch "u") with true. cbv iota.
  rewrite !hex4_digits by lia.
  by rewrite Hhs, Hls, Hj.
Qed.

(** The decoder reads one encoded character back. *)
Lemma scanstring_char (c : N) (r acc : text) :
  scalar c = true -> r <> [] ->
  scanstring (encode_char c ++ r) acc = scanstring r (c :: acc).
Proof.
  intros Hc Hr. unfold encode_char.
  destruct (N.eqb_spec c BSLASH) as [->|Hb]; [reflexivity|].
  destruct (N.eqb_spec c DQUOTE) as [->|Hq]; [reflexivity|].
  destruct ((32 <=? c) && (c <=? 126)) eqn:Hp.
  { apply andb_true_iff in Hp as [H1 H2]. apply N.leb_le in H1.
    cbn [app scanstring].
    destruct (N.eqb_spec c DQUOTE); [done|].
    destruct (N.eqb_spec c BSLASH); [done|].
    destruct (N.ltb_spec c 32); [lia|done]. }
  destruct (N.eqb_spec c 8) as [->|]; [reflexivity|].
  destruct (N.eqb_spec c 12) as [->|]; [reflexivity|].
  destruct (N.eqb_spec c 10) as [->|]; [reflexivity|].
  destruct (N.eqb_spec c 13) as [->|]; [reflexivity|].
  destruct (N.eqb_spec c 9) as [->|]; [reflexivity|].
  destruct (N.ltb_spec c 65536) as [Hlt|Hge].
  - apply scanstring_u; [done|]. by apply scalar_not_high.
  - cbv zeta. rewrite <- app_assoc. apply scanstring_pair; [done| |done].
    unfold scalar in Hc. apply orb_true_iff in Hc as [Hc|Hc].
    + apply N.ltb_lt in Hc. lia.
    + apply andb_true_iff in Hc as [_ Hc]. by apply N.ltb_lt in Hc.
Qed.

(** The decoder reads an encoded string back, up to its closing
    quote. *)
Lemma scanstring_encoded (s : text) :
  scalars s = true ->
  forall acc rest,
    scanstring (flat_map encode_char s ++ DQUOTE :: rest) acc
    = Found (rev acc ++ s) rest.
Proof.
  induction s as [|c s IH]; intros Hs acc rest.
  - cbn [flat_map app scanstring]. rewrite N.eqb_refl. by rewrite app_nil_r.
  - cbn [scalars forallb] in Hs. apply andb_true_iff in Hs as [Hc Hs].
    cbn [flat_map]. rewrite <- app_assoc.
    rewrite scanstring_char; [|done|].
    + rewrite (IH Hs). cbn [rev]. by rewrite <- app_assoc.
    + by destruct (flat_map encode_char s).
Qed.

End StringFacts.

(** * [json.loads] after [json.dumps] *)
Section RoundTripFacts.
Import Py Json JsonRecovery RoundTrip.
Variable float_repr : text -> text.

(** Induction on a document, with the hypothesis for every item of an
    array and every value of an object. *)
Lemma json_nested_ind (P : json -> Prop) :
  P JNull -> (forall b, P (JBool b)) -> (forall z, P (JInt z)) ->
  (forall lit, P (JFloat lit)) -> P JNaN -> (forall n, P (JInf n)) ->
  (forall s, P (JStr s)) ->
  (forall items, Forall P items -> P (JArr items)) ->
  (forall members, Forall (fun kv => P (snd kv)) members -> P (JObj members)) ->
  forall j, P j.
Proof.
  intros Hnull Hbool Hint Hfloat Hnan Hinf Hstr Harr Hobj.
  fix IH 1. intros [|b|z|lit| |n|s|items|members].
  - exact Hnull.
  - apply Hbool.
  - apply Hint.
  - apply Hfloat.
  - exact Hnan.
  - apply Hinf.
  - apply Hstr.
  - apply Harr. induction items as [|v items IHitems].
    + constructor.
    + constructor; [apply IH|exact IHitems].
  - apply Hobj. induction members as [|[k v] members IHmembers].
    + constructor.
    + constructor; [apply IH|exact IHmembers].
Qed.

Lemma opening_not_closer (c : N) :
  opening c = true -> (c =? ch "]") = false /\ (c =? ch "}") = false.
Proof.
  intros H. split.
  - by destruct (N.eqb_spec c (ch "]")) as [->|].
  - by destruct (N.eqb_spec c (ch "}")) as [->|].
Qed.

Lemma skip_ws_value (b x : text) : head_ok b -> skip_ws (b ++ x) = b ++ x.
Proof. intros H. exact (skip_ws_head_ok [] b x (Forall_nil_2 _) H). Qed.

(** What [dumps] writes begins with a character that opens a value. *)
Lemma dumps_head (v : json) : lossless v = true -> head_ok (dumps float_repr v).
Proof.
  intros Hv. destruct v as [|[]|z|lit| |[]|s|items|members];
    try discriminate Hv; try (by eexists _, _).
  cbn [dumps]. unfold str_of_Z. destruct z as [|p|p].
  - by eexists _, _.
  - destruct (str_of_N_digits (Z.to_N (Z.pos p))) as (c & t & Hs & Hc & _).
    rewrite Hs. exists c, t. split; [done|].
    unfold opening. by rewrite Hc, !orb_true_r.
  - by eexists _, _.
Qed.

Lemma join_cons (sep p : text) (q : text) (ps : list text) :
  join sep (p :: q :: ps) = p ++ sep ++ join sep (q :: ps).
Proof. done. Qed.

Lemma join_head (sep p : text) (ps : list text) :
  head_ok p -> head_ok (join sep (p :: ps)).
Proof.
  intros (c & t & -> & Hc). destruct ps as [|q ps]; [by exists c, t|].
  rewrite join_cons. by eexists c, _.
Qed.

(** An array with a first item, and an object with a first member. *)
Lemma scan_once_array (g : nat) (x : text) :
  head_ok x -> scan_once (S g) (ch "[" :: x) = parse_items g x [].
Proof.
  intros Hx. cbn [scan_once].
  change (ch "[" =? DQUOTE) with false. change (ch "[" =? ch "{") with false.
  change (ch "[" =? ch "[") with true. cbv iota.
  rewrite <- (app_nil_r x), skip_ws_value, app_nil_r by done.
  destruct Hx as (c & t & -> & Hc).
  by destruct (opening_not_closer c Hc) as [-> _].
Qed.

Lemma scan_once_object (g : nat) (x : text) :
  head_ok x -> scan_once (S g) (ch "{" :: x) = parse_members g x [].
Proof.
  intros Hx. cbn [scan_once].
  change (ch "{" =? DQUOTE) with false. change (ch "{" =? ch "{") with true.
  cbv iota.
  rewrite <- (app_nil_r x), skip_ws_value, app_nil_r by done.
  destruct Hx as (c & t & -> & Hc).
  by destruct (opening_not_closer c Hc) as [_ ->].
Qed.

Lemma dict_set_fresh (acc : list (text * json)) (k : text) (v : json) :
  k ∉ map fst acc -> dict_set acc k v = acc ++ [(k, v)].
Proof.
  induction acc as [|[k' v'] acc IH]; intros Hk; [done|].
  cbn [map fst] in Hk. apply not_elem_of_cons in Hk as [Hne Hk].
  cbn [dict_set app]. unfold text_eqb.
  rewrite bool_decide_eq_false_2 by done. by rewrite IH.
Qed.

Lemma skip_ws_space (x : text) : skip_ws (ch " " :: x) = skip_ws x.
Proof. done. Qed.

Ltac fuel Hg :=
  revert Hg; cbn [map join]; rewrite ?join_cons;
  unfold member_text, encode_basestring_ascii; cbn [fst snd txt];
  repeat (rewrite <- app_assoc || cbn [app]);
  repeat (rewrite length_app || cbn [length]); lia.

(** The loop over the items of an array reads back what [dumps]
    wrote. *)
Lemma items_carried (items : list json) :
  Forall (carried float_repr) items -> forallb lossless items = true ->
  items <> [] ->
  forall acc rest g,
    (2 * length (join (txt ", ") (map (dumps float_repr) items)
                 ++ ch "]" :: rest) + 2 <= g)%nat ->
    parse_items g
      (join (txt ", ") (map (dumps float_repr) items) ++ ch "]" :: rest) acc
    = Found (JArr (acc ++ items)) rest.
Proof.
  induction items as [|v items IH]; [done|].
  intros Hall Hex _ acc rest g Hg.
  apply Forall_cons in Hall as [Hv Hall].
  cbn [forallb] in Hex. apply andb_true_iff in Hex as [Hev Hex].
  destruct g as [|g]; [lia|]. cbn [parse_items map].
  destruct items as [|v' items].
  - cbn [map join].
    rewrite (Hv Hev (ch "]" :: rest) g) by (done || fuel Hg).
    cbn [skip_ws]. change (is_ws (ch "]")) with false. cbv iota.
    by rewrite N.eqb_refl.
  - cbn [map]. rewrite join_cons. rewrite <- !app_assoc.
    change (txt ", " ++ ?x) with (ch "," :: ch " " :: x).
    rewrite (Hv Hev) by (done || fuel Hg).
    rewrite (skip_ws_id (ch ",")) by done.
    change (ch "," =? ch "]") with false. change (ch "," =? ch ",") with true.
    cbv iota. rewrite skip_ws_space.
    assert (Hh : head_ok (join (txt ", ")
                            (dumps float_repr v' :: map (dumps float_repr) items))).
    { apply join_head, dumps_head. cbn [forallb] in Hex.
      by apply andb_true_iff in Hex as [? _]. }
    rewrite skip_ws_value by done.
    change (dumps float_repr v' :: map (dumps float_repr) items)
      with (map (dumps float_repr) (v' :: items)).
    rewrite (IH Hall Hex) by (done || fuel Hg).
    by rewrite <- app_assoc.
Qed.

(** The loop over the members of an object reads back what [dumps]
    wrote, when no key comes twice. *)
Lemma members_carried (members : list (text * json)) :
  Forall (fun kv => carried float_repr (snd kv)) members ->
  forallb (fun kv => scalars (fst kv) && lossless (snd kv)) members = true ->
  members <> [] ->
  forall acc rest g,
    NoDup (map fst (acc ++ members)) ->
    (2 * length (join (txt ", ") (map (member_text float_repr) members)
                 ++ ch "}" :: rest) + 2 <= g)%nat ->
    parse_members g
      (join (txt ", ") (map (member_text float_repr) members)
       ++ ch "}" :: rest) acc
    = Found (JObj (acc ++ members)) rest.
Proof.
  induction members as [|[k v] members IH]; [done|].
  intros Hall Hex _ acc rest g Hnd Hg.
  apply Forall_cons in Hall as [Hv Hall]. cbn [snd] in Hv.
  cbn [forallb fst snd] in Hex.
  apply andb_true_iff in Hex as [Hkv Hex].
  apply andb_true_iff in Hkv as [Hk Hev].
  assert (Hfresh : k ∉ map fst acc).
  { rewrite map_app in Hnd. apply NoDup_app in Hnd as (_ & Hnd & _).
    intros Hin. apply (Hnd _ Hin). cbn [map fst]. apply elem_of_cons. by left. }
  destruct g as [|g]; [lia|].
  destruct members as [|m members].
  - cbn [map join]. unfold member_text, encode_basestring_ascii. cbn [fst snd].
    rewrite <- !app_assoc. cbn [app]. rewrite <- !app_assoc.
    change ([DQUOTE] ++ ?x) with (DQUOTE :: x).
    cbn [parse_members]. rewrite N.eqb_refl.
    rewrite scanstring_encoded by done. cbn [rev app].
    change (txt ": " ++ ?x) with (ch ":" :: ch " " :: x).
    rewrite (skip_ws_id (ch ":")) by done.
    change (ch ":" =? ch ":") with true. cbv iota.
    rewrite skip_ws_space, skip_ws_value by (by apply dumps_head).
    rewrite (Hv Hev (ch "}" :: rest) g) by (done || fuel Hg).
    cbn [skip_ws]. change (is_ws (ch "}")) with false. cbv iota.
    rewrite N.eqb_refl. by rewrite dict_set_fresh.
  - assert (Hm : head_ok (join (txt ", ")
                            (map (member_text float_repr) (m :: members)))).
    { cbn [map]. apply join_head. by eexists DQUOTE, _. }
    cbn [map]. rewrite join_cons.
    unfold member_text at 1, encode_basestring_ascii. cbn [fst snd].
    rewrite <- !app_assoc. cbn [app]. rewrite <- !app_assoc.
    change ([DQUOTE] ++ ?x) with (DQUOTE :: x).
    cbn [parse_members]. rewrite N.eqb_refl.
    rewrite scanstring_encoded by done. cbn [rev app].
    change (txt ": " ++ ?x) with (ch ":" :: ch " " :: x).
    rewrite (skip_ws_id (ch ":")) by done.
    change (ch ":" =? ch ":") with true. cbv iota.
    rewrite skip_ws_space, skip_ws_value by (by apply dumps_head).
    rewrite (Hv Hev) by (done || fuel Hg).
    change (txt ", " ++ ?x) with (ch "," :: ch " " :: x).
    rewrite (skip_ws_id (ch ",")) by done.
    change (ch "," =? ch "}") with false.
    change (ch "," =? ch ",") with true. cbv iota.
    rewrite skip_ws_space.
    change (member_text float_repr m :: map (member_text float_repr) members)
      with (map (member_text float_repr) (m :: members)).
    rewrite skip_ws_value by done.
    rewrite dict_set_fresh by done.
    rewrite (IH Hall Hex) by (done || (by rewrite <- app_assoc) || fuel Hg).
    by rewrite <- app_assoc.
Qed.

(** [json.loads] reads back every value that [json.dumps] wrote. *)
Lemma dumps_carried (v : json) : carried float_repr v.
Proof.
  induction v as [|b|z|lit| |n|s|items IH|members IH] using json_nested_ind;
    intros Hex rest g Hrest Hg; (destruct g as [|g]; [lia|]).
  - apply scan_once_constants.
  - destruct b; apply scan_once_constants.
  - by apply scan_once_int.
  - done.
  - apply scan_once_constants.
  - destruct n; apply scan_once_constants.
  - cbn [dumps]. unfold encode_basestring_ascii. cbn [app scan_once].
    rewrite N.eqb_refl. rewrite <- app_assoc. cbn [app].
    by rewrite scanstring_encoded.
  - destruct items as [|v items]; [reflexivity|].
    cbn [dumps] in *. cbn [app]. rewrite <- app_assoc. cbn [app].
    cbn [app length] in Hg. rewrite <- app_assoc in Hg. cbn [app] in Hg.
    rewrite scan_once_array.
    + rewrite items_carried by (done || lia). done.
    + destruct (dumps_head v) as (c & t & Hd & Hc).
      { cbn [lossless forallb] in Hex. by apply andb_true_iff in Hex as [? _]. }
      cbn [map]. destruct (join_head (txt ", ") (dumps float_repr v)
                            (map (dumps float_repr) items)) as (c' & t' & -> & Hc').
      { by exists c, t. }
      by eexists c', _.
  - destruct members as [|m members]; [reflexivity|].
    cbn [lossless] in Hex. apply andb_true_iff in Hex as [Hex Hnd].
    apply bool_decide_eq_true in Hnd.
    cbn [dumps] in *. cbn [app]. rewrite <- app_assoc. cbn [app].
    cbn [app length] in Hg. rewrite <- app_assoc in Hg. cbn [app] in Hg.
    rewrite scan_once_object.
    + apply (members_carried (m :: members) IH Hex); [done|done|].
      unfold member_text. lia.
    + cbn [map].
      destruct (join_head (txt ", ") (member_text float_repr m)
                  (map (member_text float_repr) members)) as (c' & t' & Hj & Hc').
      { by eexists DQUOTE, _. }
      unfold member_text in Hj. rewrite Hj. by eexists c', _.
Qed.

Lemma loads_dumps (v : json) :
  lossless v = true -> loads (dumps float_repr v) = Ret v.
Proof.
  intros Hex. unfold loads.
  rewrite <- (app_nil_r (dumps float_repr v)) at 2.
  rewrite skip_ws_value by (by apply dumps_head).
  rewrite (dumps_carried v Hex [] _ eq_refl).
  - done.
  - rewrite app_nil_r. lia.
Qed.

End RoundTripFacts.

(** * The keys of a decoded object *)
Section KeyFacts.
Import Py Json Re JsonRecovery RoundTrip.

Lemma dict_set_keys (acc : list (text * json)) (k : text) (v : json) (x : text) :
  x ∈ map fst (dict_set acc k v) -> x = k \/ x ∈ map fst acc.
Proof.
  induction acc as [|[k' v'] acc IH]; cbn [dict_set map fst].
  - intros H. apply elem_of_cons in H as [->|H]; [by left|by right].
  - unfold text_eqb. destruct (bool_decide_reflect (k' = k)) as [->|Hne];
      cbn [map fst]; intros H; apply elem_of_cons in H as [->|H].
    + by left.
    + right. by right.
    + right. by left.
    + destruct (IH H) as [->|Hin]; [by left|right; by right].
Qed.

Lemma dict_set_distinct (acc : list (text * json)) (k : text) (v : json) :
  distinct_keys (JObj acc) = true -> distinct_keys v = true ->
  distinct_keys (JObj (dict_set acc k v)) = true.
Proof.
  intros Hacc Hv. cbn [distinct_keys] in *.
  apply andb_true_iff in Hacc as [Hvals Hnd].
  apply bool_decide_eq_true in Hnd.
  apply andb_true_iff. split.
  - clear Hnd. induction acc as [|[k' v'] acc IH]; cbn [dict_set forallb snd].
    + by rewrite Hv.
    + cbn [forallb snd] in Hvals. apply andb_true_iff in Hvals as [H1 H2].
      unfold text_eqb. destruct (bool_decide (k' = k)); cbn [forallb snd].
      * by rewrite Hv, H2.
      * by rewrite H1, IH.
  - apply bool_decide_eq_true. clear Hvals.
    induction acc as [|[k' v'] acc IH]; cbn [dict_set map fst].
    + apply NoDup_singleton.
    + cbn [map fst] in Hnd. apply NoDup_cons in Hnd as [Hk' Hnd].
      unfold text_eqb. destruct (bool_decide_reflect (k' = k)) as [->|Hne];
        cbn [map fst]; apply NoDup_cons.
      * done.
      * split; [|by apply IH].
        intros Hin. apply dict_set_keys in Hin as [->|Hin]; done.
Qed.

Lemma match_number_keys (s : text) (v : json) (r : text) :
  match_number s = Found v r -> distinct_keys v = true.
Proof.
  assert (H : forall neg s1, number_after_sign neg s1 = Found v r ->
                             distinct_keys v = true).
  { intros neg s1. unfold number_after_sign.
    destruct (match_int_part s1) as [[ip s2]|]; [|done].
    destruct (match_frac s2) as [[fp s3]|];
      destruct (match_exp _) as [[ep s4]|];
      try destruct fp; try destruct ep; by intros [= <- _]. }
  unfold match_number. destruct s as [|c s0]; [done|].
  destruct (c =? ch "-"); apply H.
Qed.

Lemma scan_keyed (f : nat) : keyed f.
Proof.
  induction f as [|f (IHs & IHm & IHi)]; [by repeat split|].
  repeat split.
  - intros s v r. cbn [scan_once].
    destruct s as [|c r0]; [done|].
    destruct (c =? DQUOTE).
    { destruct (scanstring r0 []); [|done..]. by intros [= <- _]. }
    destruct (c =? ch "{").
    { destruct (skip_ws r0) as [|c1 r1]; [done|].
      destruct (c1 =? ch "}"); [by intros [= <- _]|].
      intros H. by apply IHm in H. }
    destruct (c =? ch "[").
    { destruct (skip_ws r0) as [|c1 r1]; [done|].
      destruct (c1 =? ch "]"); [by intros [= <- _]|].
      intros H. by apply IHi in H. }
    repeat (destruct (startswith _ _); [by intros [= <- _]|]).
    apply match_number_keys.
  - intros s acc v r. cbn [parse_members].
    destruct s as [|c s]; [done|].
    destruct (c =? DQUOTE); [|done].
    destruct (scanstring s []) as [key r1| |]; [|done..].
    destruct (skip_ws r1) as [|c2 r2]; [done|].
    destruct (c2 =? ch ":"); [|done].
    destruct (scan_once f (skip_ws r2)) as [v1 r3| |] eqn:Hv1; [|done..].
    apply IHs in Hv1.
    destruct (skip_ws r3) as [|c4 r4]; [done|].
    destruct (c4 =? ch "}").
    { intros [= <- _] Hacc. by apply dict_set_distinct. }
    destruct (c4 =? ch ","); [|done].
    intros H Hacc. apply IHm in H; [done|]. by apply dict_set_distinct.
  - intros s acc v r. cbn [parse_items].
    destruct (scan_once f s) as [v1 r1| |] eqn:Hv1; [|done..].
    apply IHs in Hv1.
    assert (Hacc' : distinct_keys (JArr acc) = true ->
                    distinct_keys (JArr (acc ++ [v1])) = true).
    { cbn [distinct_keys]. intros Hacc. rewrite forallb_app, Hacc.
      cbn [forallb]. by rewrite Hv1. }
    destruct (skip_ws r1) as [|c2 r2]; [done|].
    destruct (c2 =? ch "]").
    { intros [= <- _] Hacc. by apply Hacc'. }
    destruct (c2 =? ch ","); [|done].
    intros H Hacc. apply IHi in H; [done|]. by apply Hacc'.
Qed.

(** What [json.loads] returns repeats no key. *)
Lemma loads_distinct (s : text) (v : json) :
  loads s = Ret v -> distinct_keys v = true.
Proof.
  unfold loads.
  destruct (scan_once _ _) as [v0 rest| |] eqn:Hs; [|done..].
  destruct (skip_ws rest); [|done]. intros [= <-].
  by apply (proj1 (scan_keyed _)) in Hs.
Qed.

Lemma extract_distinct (s : text) (v : json) :
  extract_json_object s = Ret (Some v) -> distinct_keys v = true.
Proof.
  unfold extract_json_object.
  destruct (search json_pattern s) as [js|]; [|done].
  destruct (loads js) as [v0|e] eqn:Hl.
  - cbn [bind try_except]. intros [= <-]. by apply loads_distinct in Hl.
  - apply loads_raises in Hl as ->. cbn [bind try_except].
    change (isinstance JSONDecodeError_exn [JSONDecodeError]) with true.
    cbv beta iota.
    destruct (loads (fix_json_structure js)) as [v1|e] eqn:Hl'.
    + cbn [bind try_except]. intros [= <-]. by apply loads_distinct in Hl'.
    + apply loads_raises in Hl' as ->. cbn [bind try_except].
      by change (isinstance JSONDecodeError_exn [JSONDecodeError]) with true.
Qed.

Lemma lossless_split (v : json) :
  portable v = true -> distinct_keys v = true -> lossless v = true.
Proof.
  induction v as [|b|z|lit| |n|s|items IH|members IH] using json_nested_ind;
    try done.
  - cbn [portable distinct_keys lossless].
    induction IH as [|v items Hv _ IHitems]; [done|].
    cbn [forallb]. intros H1 H2.
    apply andb_true_iff in H1 as [H1 H1'].
    apply andb_true_iff in H2 as [H2 H2'].
    by rewrite Hv, IHitems.
  - cbn [portable distinct_keys lossless]. intros H1 H2.
    apply andb_true_iff in H2 as [H2 ->]. rewrite andb_true_r.
    induction IH as [|[k v] members Hv _ IHmembers]; [done|].
    cbn [forallb fst snd] in *.
    apply andb_true_iff in H1 as [H1 H1'].
    apply andb_true_iff in H1 as [Hk H1].
    apply andb_true_iff in H2 as [H2 H2'].
    by rewrite Hk, Hv, IHmembers.
Qed.

End KeyFacts.

Section RoundTripTheorems.
Import Py Json JsonRecovery RoundTrip.

(** X20.  What [clean_up_json] returns for a text that does not parse
    but holds an object that [extract_json_object] recovers is valid
    JSON again, and it reads back as the recovered object: the output
    is [json.dumps] of that object, and [json.loads] of it is the
    object, when the object holds no float and its strings and keys
    hold no surrogate code point. *)
Theorem recovered_object_is_written_back (float_repr : text -> text)
    (s : text) (obj : json) (e : exn) :
  loads (remove_frame (strip_escapes s)) = Raise e ->
  extract_json_object (remove_frame (strip_escapes s)) = Ret (Some obj) ->
  portable obj = true ->
  clean_up_json float_repr s = Ret (dumps float_repr obj)
  /\ loads (dumps float_repr obj) = Ret obj.
Proof.
  intros Hfail Hobj Hex. split.
  - unfold clean_up_json. rewrite Hfail.
    apply loads_raises in Hfail as ->. cbn [bind try_except].
    change (isinstance JSONDecodeError_exn [JSONDecodeError]) with true.
    cbv beta iota. by rewrite Hobj.
  - apply loads_dumps, lossless_split; [done|]. by apply extract_distinct in Hobj.
Qed.

Lemma recovered_object_is_written_back_witness :
  clean_up_json literal_repr broken_reply
  = Ret (jq "{'items': [{'n': -12}, {'n': 3}], 'note': 'a\u00e9b', 'ok': true}")
  /\ loads
       (jq "{'items': [{'n': -12}, {'n': 3}], 'note': 'a\u00e9b', 'ok': true}")
     = Ret broken_reply_object.
Proof.
  apply (recovered_object_is_written_back literal_repr broken_reply
           broken_reply_object JSONDecodeError_exn).
  - vm_compute. reflexivity.
  - vm_compute. reflexivity.
  - vm_compute. reflexivity.
Defined.

End RoundTripTheorems.


(** * Texts without an opening brace *)
Section BracelessFacts.
Import Py Json Re JsonRecovery Braceless.

(** A replacement keeps a property of the characters when the new text
    has it as soon as the old one has. *)
Lemma replace_from_Forall (P : N -> Prop) (old new : text) (s : text) :
  (Forall P old -> Forall P new) ->
  Forall P s -> forall skip, Forall P (replace_from old new skip s).
Proof.
  intros Hnew. induction 1 as [|c s Hc Hs IH]; intros skip; [done|].
  cbn [replace_from]. destruct skip as [|k]; [|apply IH].
  destruct (startswith (c :: s) old) eqn:Hold.
  - apply Forall_app_2; [|apply IH]. apply Hnew.
    apply startswith_app in Hold.
    assert (Hall : Forall P (c :: s)) by by constructor.
    rewrite Hold in Hall. by apply Forall_app in Hall as [? _].
  - constructor; [done|apply IH].
Qed.

Lemma replace_Forall (P : N -> Prop) (s old new : text) :
  (Forall P old -> Forall P new) -> Forall P s -> Forall P (replace s old new).
Proof. intros Hnew Hs. by apply replace_from_Forall. Qed.

Lemma lstrip_Forall (P : N -> Prop) (s : text) :
  Forall P s -> Forall P (lstrip s).
Proof.
  induction 1 as [|c s Hc Hs IH]; [done|].
  cbn [lstrip]. destruct (isspace c); [done|by constructor].
Qed.

Lemma strip_Forall (P : N -> Prop) (s : text) :
  Forall P s -> Forall P (strip s).
Proof.
  intros Hs. unfold strip, rstrip.
  by apply Forall_rev, lstrip_Forall, Forall_rev, lstrip_Forall.
Qed.

Lemma strip_escapes_no_brace (s : text) :
  no_opening_brace s -> no_opening_brace (strip_escapes s).
Proof.
  intros Hs. unfold strip_escapes, no_opening_brace.
  apply strip_Forall.
  apply replace_Forall; [done|].
  apply replace_Forall; [by intros _; repeat constructor|].
  apply replace_Forall.
  { intros Hold. apply Forall_cons in Hold as [_ Hold].
    apply Forall_cons in Hold as [_ Hold].
    by apply Forall_cons in Hold as [Hold _]. }
  by do 3 (apply replace_Forall; [done|]).
Qed.

Lemma remove_frame_no_brace (s : text) :
  no_opening_brace s -> no_opening_brace (remove_frame s).
Proof.
  intros Hs. unfold remove_frame, no_opening_brace.
  repeat match goal with
         | |- context [if ?b then _ else _] => destruct b
         end;
    repeat first [assumption | apply Forall_take | apply Forall_drop].
Qed.

End BracelessFacts.

Section BracelessTheorems.
Import Py Json Re JsonRecovery Braceless.

(** X21.  Only objects are recovered.  In a text without an opening
    brace [extract_json_object] finds nothing, and [clean_up_json]
    returns the text as the replacements, the strip and the removal of
    the frame leave it, whether that text parses or not: a list that
    does not parse is neither repaired nor written anew. *)
Theorem text_without_brace_is_only_cleaned (float_repr : text -> text)
    (s : text) :
  no_opening_brace s ->
  extract_json_object s = Ret None
  /\ clean_up_json float_repr s = Ret (remove_frame (strip_escapes s)).
Proof.
  intros Hs. split.
  - by apply extract_without_brace.
  - unfold clean_up_json.
    destruct (loads (remove_frame (strip_escapes s))) as [v|e] eqn:Hl; [done|].
    apply loads_raises in Hl as ->. cbn [bind try_except].
    change (isinstance JSONDecodeError_exn [JSONDecodeError]) with true.
    cbv beta iota.
    by rewrite extract_without_brace
      by by apply remove_frame_no_brace, strip_escapes_no_brace.
Qed.

Lemma text_without_brace_is_only_cleaned_witness :
  extract_json_object broken_list = Ret None
  /\ clean_up_json literal_repr broken_list = Ret (txt "[1, 2,]").
Proof.
  apply (text_without_brace_is_only_cleaned literal_repr broken_list).
  vm_compute. repeat (constructor; [discriminate|]). constructor.
Defined.

End BracelessTheorems.


(** * The recovery parser and the exceptions of the decoder *)
Section DecoderErrors.
Import Py Json Re JsonRecovery Decoders.

Lemma extract_json_object_with_loads (s : text) :
  extract_json_object_with loads s = extract_json_object s.
Proof. reflexivity. Qed.

Lemma clean_up_json_with_loads (float_repr : text -> text) (s : text) :
  clean_up_json_with loads float_repr s = clean_up_json float_repr s.
Proof. reflexivity. Qed.

Lemma loads_only_decode_errors (ts : list text) : only_decode_errors loads ts.
Proof. intros t e _ H. by rewrite (loads_raises _ _ H). Qed.

Variable json_loads : text -> res json.

Lemma extract_with_returns (raw_str : text) :
  only_decode_errors json_loads (candidates raw_str) ->
  exists o, extract_json_object_with json_loads raw_str = Ret o.
Proof.
  unfold extract_json_object_with, candidates. intros Hd.
  destruct (search json_pattern raw_str) as [json_str|]; [|by eexists].
  destruct (json_loads json_str) as [v|e] eqn:H1; cbn [bind try_except];
    [by eexists|].
  rewrite (Hd _ _ ltac:(by left) H1).
  destruct (json_loads (fix_json_structure json_str)) as [v|e'] eqn:H2;
    cbn [bind try_except]; [by eexists|].
  rewrite (Hd _ _ ltac:(right; by left) H2). by eexists.
Qed.

Lemma extract_with_no_brace (raw_str : text) :
  Forall (fun c => c <> ch "{") raw_str ->
  extract_json_object_with json_loads raw_str = Ret None.
Proof.
  intros H. unfold extract_json_object_with, search.
  by rewrite search_without_brace.
Qed.

Lemma clean_up_with_returns (float_repr : text -> text) (s : text) :
  let cleaned := remove_frame (strip_escapes s) in
  only_decode_errors json_loads (cleaned :: candidates cleaned) ->
  exists out, clean_up_json_with json_loads float_repr s = Ret out.
Proof.
  intros cleaned Hd. unfold clean_up_json_with. fold cleaned.
  destruct (json_loads cleaned) as [v|e] eqn:H1; cbn [bind try_except];
    [by eexists|].
  rewrite (Hd _ _ ltac:(by left) H1).
  destruct (extract_with_returns cleaned) as [[obj|] ->]; cbn [bind];
    try by eexists.
  intros t e' Ht. apply Hd. by right.
Qed.

(** An exception of the decoder that is no [JSONDecodeError] leaves
    [clean_up_json]. *)
Lemma other_errors_escape (float_repr : text -> text) (s : text) (e : exn) :
  json_loads (remove_frame (strip_escapes s)) = Raise e ->
  isinstance e [JSONDecodeError] = false ->
  clean_up_json_with json_loads float_repr s = Raise e.
Proof.
  intros H1 He. unfold clean_up_json_with. rewrite H1.
  cbn [bind try_except]. by rewrite He.
Qed.

Lemma prefixes_in (seg post : text) : In seg (prefixes (seg ++ post)).
Proof.
  induction seg as [|c seg IH]; cbn [app prefixes].
  - destruct post; by left.
  - right. apply in_map_iff. by exists seg.
Qed.

Lemma segments_in (pre seg post : text) :
  In seg (segments (pre ++ seg ++ post)).
Proof.
  induction pre as [|c pre IH]; cbn [app].
  - pose proof (prefixes_in seg post) as Hp.
    destruct (seg ++ post); cbn [segments]; apply in_or_app; by left.
  - cbn [segments]. apply in_or_app. by right.
Qed.

Lemma holds_no_object_check (s : text) :
  forallb (fun seg => negb (is_object_text seg)) (segments s) = true ->
  holds_no_object s.
Proof.
  intros H pre seg post ->.
  rewrite forallb_forall in H.
  specialize (H seg (segments_in pre seg post)).
  by destruct (is_object_text seg).
Qed.

End DecoderErrors.

(** C8, as amended.  On an input for which [json.loads] raises nothing
    but [JSONDecodeError] on the texts that the parser hands to it,
    neither [clean_up_json] nor [extract_json_object] raises: every
    [JSONDecodeError] is caught and nothing else is raised on the way.
    On a text without an opening brace, such as the text
    [no json here at all], [extract_json_object] returns [None] and
    [clean_up_json] the cleaned text. *)
Theorem decode_errors_are_caught (json_loads : Py.text -> Py.res Json.json)
    (float_repr : Py.text -> Py.text) (s : Py.text) :
  Decoders.only_decode_errors json_loads (Decoders.handed s) ->
  (exists out,
     JsonRecovery.clean_up_json_with json_loads float_repr s = Py.Ret out)
  /\ (exists o, JsonRecovery.extract_json_object_with json_loads s = Py.Ret o)
  /\ (Forall (fun c => c <> Py.ch "{") s ->
      JsonRecovery.extract_json_object_with json_loads s = Py.Ret None
      /\ JsonRecovery.clean_up_json_with json_loads float_repr s
         = Py.Ret (JsonRecovery.remove_frame (JsonRecovery.strip_escapes s))).
Proof.
  intros Hd. unfold Decoders.handed in Hd.
  assert (Hc : Decoders.only_decode_errors json_loads
                 (JsonRecovery.remove_frame (JsonRecovery.strip_escapes s)
                  :: Decoders.candidates
                       (JsonRecovery.remove_frame
                          (JsonRecovery.strip_escapes s)))).
  { intros t e Ht. apply Hd. destruct Ht as [<-|Ht]; [by left|right].
    apply in_or_app. by left. }
  assert (Hs : Decoders.only_decode_errors json_loads (Decoders.candidates s)).
  { intros t e Ht. apply Hd. right. apply in_or_app. by right. }
  split; [by apply clean_up_with_returns|].
  split; [by apply extract_with_returns|].
  intros Hb. split; [by apply extract_with_no_brace|].
  unfold JsonRecovery.clean_up_json_with.
  destruct (json_loads _) as [v|e] eqn:H1; cbn [Py.bind Py.try_except];
    [done|].
  rewrite (Hc _ _ ltac:(by left) H1).
  by rewrite extract_with_no_brace
    by by apply remove_frame_no_brace, strip_escapes_no_brace.
Qed.

Lemma decode_errors_are_caught_witness :
  (exists out,
     JsonRecovery.clean_up_json_with Json.loads Json.literal_repr
       JsonRecovery.no_json_here = Py.Ret out)
  /\ (exists o,
        JsonRecovery.extract_json_object_with Json.loads
          JsonRecovery.no_json_here = Py.Ret o)
  /\ (Forall (fun c => c <> Py.ch "{") JsonRecovery.no_json_here ->
      JsonRecovery.extract_json_object_with Json.loads
        JsonRecovery.no_json_here = Py.Ret None
      /\ JsonRecovery.clean_up_json_with Json.loads Json.literal_repr
           JsonRecovery.no_json_here
         = Py.Ret (JsonRecovery.remove_frame
                     (JsonRecovery.strip_escapes JsonRecovery.no_json_here))).
Proof.
  apply (decode_errors_are_caught Json.loads Json.literal_repr
           JsonRecovery.no_json_here).
  intros t e _ H. rewrite (loads_raises _ _ H). reflexivity.
Defined.

(** C8, as the claim states it, fails on a text that holds no JSON
    object: no segment of [stray_quote], an object with a quote left
    unescaped inside its string value, parses as an object, and
    [extract_json_object] returns the object that the repair step
    makes of it, not [None]. *)
Lemma unparsable_text_yields_an_object :
  Decoders.holds_no_object Decoders.stray_quote
  /\ Json.loads Decoders.stray_quote = Py.Raise Json.JSONDecodeError_exn
  /\ JsonRecovery.extract_json_object Decoders.stray_quote
     = Py.Ret (Some (Json.JObj [(Py.txt "a", Json.JStr (Py.jq "x'y"))]))
  /\ ~ (Decoders.holds_no_object Decoders.stray_quote ->
        JsonRecovery.extract_json_object Decoders.stray_quote = Py.Ret None).
Proof.
  assert (H : Decoders.holds_no_object Decoders.stray_quote).
  { apply holds_no_object_check. by vm_compute. }
  split; [done|]. split; [by vm_compute|]. split; [by vm_compute|].
  intros Hc. specialize (Hc H). by vm_compute in Hc.
Qed.

(** * The fallback model of the enforcer *)
Section FallbackFacts.
Import Py Json JsonRecovery Turns ChatLLM Enforcer Fallback.

(** Two invocations of a call of [_invoke_json] make [_execute_llm] do
    the same. *)
Lemma invocations_same_request (configuration : ClaudeConfiguration)
    (input : text) (kwargs : LLMInput) (j k : nat) (i i' : invocation) :
  invocation_of configuration input kwargs j i ->
  invocation_of configuration input kwargs k i' ->
  same_request configuration i i'.
Proof.
  intros (Hi & _ & _ & Hp & Hh & _) (Hi' & _ & _ & Hp' & Hh' & _).
  intros get_completion_llm_args create calls.
  rewrite Hi, Hi'. apply execute_llm_reads; congruence.
Qed.

(** The model that the invocation of a later attempt names, with a
    fallback model configured. *)
Lemma invocation_names_fallback (configuration : ClaudeConfiguration)
    (input : text) (kwargs : LLMInput) (k : nat) (i : invocation)
    (fallback : text) :
  model_alt configuration = Some fallback -> fallback <> [] ->
  invocation_of configuration input kwargs (S k) i ->
  attempt_of (call_name_base kwargs) (Z.of_nat (S k)) (Some fallback) i.
Proof.
  intros Halt Hne (_ & Hn & Hm & _). split; [done|].
  rewrite Hm, Halt. unfold text_eqb. by rewrite bool_decide_eq_false_2.
Qed.

End FallbackFacts.

(** C3, on the code.  With a fallback model configured, a validity
    predicate that rejects every value, and attempts that all return a
    result, [_invoke_json] makes exactly three invocations, named
    [name@0], [name@1] and [name@2], and raises
    [RuntimeError("Failed to generate valid JSON output")].  The
    keyword arguments of the second and the third invocation name the
    fallback model, and to no effect: [_execute_llm] reads the model
    nowhere, and does for these two invocations what it does for the
    first, the same request to the client. *)
Theorem fallback_model_is_not_requested (float_repr : Py.text -> Py.text)
    (try_parse_json_object : Py.text -> Py.res Json.json)
    (backend : nat -> Py.text -> ChatLLM.LLMInput ->
               Py.res (option Py.text * option (list Turns.message)))
    (configuration : ChatLLM.ClaudeConfiguration)
    (input : Py.text) (kwargs : ChatLLM.LLMInput) (w : ChatLLM.world)
    (fallback : Py.text) :
  ChatLLM.model_alt configuration = Some fallback -> fallback <> [] ->
  (forall v, ChatLLM.response_valid kwargs v = false) ->
  (forall k w0, exists r,
     fst (ChatLLM.generate float_repr try_parse_json_object backend
            configuration input kwargs k w0) = Py.Ret r) ->
  exists i0 i1 i2,
    ChatLLM._invoke_json float_repr try_parse_json_object backend
      configuration input kwargs w
    = (Py.Raise ChatLLM.terminal_error, w ++ [i0; i1; i2])
    /\ ChatLLM.attempt_of (ChatLLM.call_name_base kwargs) 0
         (ChatLLM.model kwargs) i0
    /\ ChatLLM.attempt_of (ChatLLM.call_name_base kwargs) 1 (Some fallback) i1
    /\ ChatLLM.attempt_of (ChatLLM.call_name_base kwargs) 2 (Some fallback) i2
    /\ Fallback.same_request configuration i0 i1
    /\ Fallback.same_request configuration i0 i2.
Proof.
  intros Halt Hne Hrej Hret.
  assert (Hinvalid : forall x, ChatLLM.is_valid kwargs x = false).
  { intros [v|]; [apply Hrej|done]. }
  assert (Hstep : forall (k : nat) w0, exists r i,
            ChatLLM.generate float_repr try_parse_json_object backend
              configuration input kwargs (Z.of_nat k) w0
            = (Py.Ret r, w0 ++ [i])
            /\ Enforcer.invocation_of configuration input kwargs k i).
  { intros k w0. destruct (Hret (Z.of_nat k) w0) as [r Hr].
    destruct (generate_invokes float_repr try_parse_json_object backend
                configuration input kwargs k w0) as (i & Hi & Ha).
    exists r, i. split; [|done].
    destruct (ChatLLM.generate _ _ _ _ _ _ _ _) as [x w1].
    simpl in *. by subst. }
  destruct (Hstep 0%nat w) as (r0 & i0 & H0 & A0).
  destruct (Hstep 1%nat (w ++ [i0])) as (r1 & i1 & H1 & A1).
  destruct (Hstep 2%nat ((w ++ [i0]) ++ [i1])) as (r2 & i2 & H2 & A2).
  exists i0, i1, i2.
  split.
  { rewrite (invoke_json_after_two float_repr try_parse_json_object backend
               configuration input kwargs w _ _ r0 r1 H0 (Hinvalid _) H1
               (Hinvalid _)).
    change (Z.of_nat 2) with 2%Z in H2. rewrite H2, Hinvalid.
    by rewrite <- !app_assoc. }
  split.
  { destruct A0 as (_ & Hn & Hm & _). split; [done|].
    rewrite Hm. by destruct (ChatLLM.model_alt configuration). }
  split; [by apply (invocation_names_fallback configuration input kwargs 0)|].
  split; [by apply (invocation_names_fallback configuration input kwargs 1)|].
  split; by eapply invocations_same_request.
Qed.

(** C3 at a call in manual mode with the models [claude-a] and
    [claude-b], a predicate that rejects everything and a back end that
    answers each invocation. *)
Lemma fallback_model_is_not_requested_witness :
  exists i0 i1 i2,
    ChatLLM._invoke_json Json.literal_repr ChatLLM.try_parse_json_object_spec
      (ChatLLM.answers (Py.jq "{'ok': true}"))
      (ChatLLM.manual_with_fallback (Py.txt "claude-b")) (Py.txt "q")
      (ChatLLM.checked_kwargs (Py.txt "claude-a") (fun _ => false)) []
    = (Py.Raise ChatLLM.terminal_error, [] ++ [i0; i1; i2])
    /\ ChatLLM.attempt_of
         (ChatLLM.call_name_base
            (ChatLLM.checked_kwargs (Py.txt "claude-a") (fun _ => false)))
         0 (ChatLLM.model
              (ChatLLM.checked_kwargs (Py.txt "claude-a") (fun _ => false)))
         i0
    /\ ChatLLM.attempt_of
         (ChatLLM.call_name_base
            (ChatLLM.checked_kwargs (Py.txt "claude-a") (fun _ => false)))
         1 (Some (Py.txt "claude-b")) i1
    /\ ChatLLM.attempt_of
         (ChatLLM.call_name_base
            (ChatLLM.checked_kwargs (Py.txt "claude-a") (fun _ => false)))
         2 (Some (Py.txt "claude-b")) i2
    /\ Fallback.same_request
         (ChatLLM.manual_with_fallback (Py.txt "claude-b")) i0 i1
    /\ Fallback.same_request
         (ChatLLM.manual_with_fallback (Py.txt "claude-b")) i0 i2.
Proof.
  apply (fallback_model_is_not_requested Json.literal_repr
           ChatLLM.try_parse_json_object_spec
           (ChatLLM.answers (Py.jq "{'ok': true}"))
           (ChatLLM.manual_with_fallback (Py.txt "claude-b")) (Py.txt "q")
           (ChatLLM.checked_kwargs (Py.txt "claude-a") (fun _ => false))
           [] (Py.txt "claude-b")).
  - reflexivity.
  - discriminate.
  - reflexivity.
  - intros k w0. eexists. reflexivity.
Defined.

(** * A plain string as [messages] *)
Section PlainStringFacts.
Import Py Turns QueryLLM Calls PlainString.
Variable remote : service.
Variable self : llm.

(** An attempt with a model name and without a keyword clash sends its
    request first. *)
Lemma _generate_first (P : event -> Prop) via messages streaming callbacks
    kwargs (m : text) w :
  (forall c t, P (EvNewToken c t)) ->
  model self = Some m -> m <> [] -> no_keyword_clash kwargs ->
  grows P (sent (request_for via m messages streaming kwargs) w)
    (snd (_generate remote self via messages streaming callbacks kwargs w)).
Proof.
  intros Htok Hmodel Hm Hkw. unfold _generate, request_for.
  destruct (model_set_name self m Hmodel Hm) as [-> ->].
  destruct streaming.
  - rewrite no_clash_stream by done.
    destruct (stream_reply _ _ _) as [[deltas failure]|e]; cbn [snd];
      [by apply consume_grows|apply grows_refl].
  - rewrite no_clash_create by done.
    destruct (create_reply _ _ _) as [[|b bs]|e]; apply grows_refl.
Qed.

(** What [generate] does with the outcome of the loop adds no
    request. *)
Lemma outcome_grows (P : event -> Prop) (w0 : world)
    (x : res text * world) :
  (forall msg, P (EvError msg)) ->
  grows P w0 (snd x) ->
  grows P w0
    (snd match x with
         | (Ret v, w1) => (Ret v, w1)
         | (Raise e, w1) =>
             if isinstance e [RetryError]
             then (Ret [], log (EvError (exn_msg e)) w1)
             else (Raise e, w1)
         end).
Proof.
  intros Herr. destruct x as [[v|e] w1]; cbn [snd]; [done|].
  destruct (isinstance e _); cbn [snd]; [|done].
  intros H. eapply grows_trans; [exact H|]. by apply grows_log.
Qed.

End PlainStringFacts.

(** C10, as amended.  When [messages] is a plain string, [generate] and
    [agenerate] drop it.  With a model name and keyword arguments that
    clash with none of the named parameters, the first attempt sends a
    request, and every request of the call is that same one: it
    carries the empty message list, and the keyword arguments of the
    caller, so that its system instruction is the one the caller gave
    under [system], and none when the caller gave none. *)
Theorem plain_string_is_not_sent (remote : QueryLLM.service)
    (self : QueryLLM.llm) (via : QueryLLM.client) (s : Py.text)
    (streaming : bool) (callbacks : option (list nat))
    (kwargs : gmap string Py.pyval) (w : QueryLLM.world) (m : Py.text) :
  QueryLLM.model self = Some m -> m <> [] ->
  QueryLLM.no_keyword_clash kwargs ->
  let rq := PlainString.plain_request self via m streaming kwargs in
  QueryLLM.rq_messages rq = []
  /\ QueryLLM.rq_kwargs rq !! "system"%string = kwargs !! "system"%string
  /\ exists evs,
       QueryLLM.trace
         (snd (QueryLLM.generate_via remote self via (inl s) streaming
                 callbacks kwargs w))
       = QueryLLM.trace w
         ++ QueryLLM.EvAttempt 1 :: QueryLLM.EvRequest rq :: evs
       /\ Forall (PlainString.is_request_of rq) evs.
Proof.
  intros Hmodel Hm Hkw rq.
  split; [done|]. split.
  { subst rq. unfold PlainString.plain_request, Calls.request_for.
    cbn [QueryLLM.rq_kwargs].
    destruct streaming, (QueryLLM.cls self);
      by repeat (rewrite lookup_insert_ne by done). }
  set (P := PlainString.is_request_of rq).
  set (w1 := QueryLLM.log (QueryLLM.EvAttempt 1) w).
  set (kw := match QueryLLM.cls self with
             | QueryLLM.ChatClaude =>
                 <["extra_headers"%string := QueryLLM.max_tokens_header]>
                   kwargs
             | QueryLLM.Claude => kwargs
             end).
  assert (Hkw' : QueryLLM.no_keyword_clash kw).
  { subst kw. destruct (QueryLLM.cls self); [by apply no_clash_insert|done]. }
  assert (Hrq : rq = Calls.request_for via m [] streaming kw) by done.
  assert (Hname : Py.str_or (QueryLLM.model self) [] = m)
    by (by destruct (model_set_name self m Hmodel Hm)).
  assert (Hgoal : QueryLLM.grows P (QueryLLM.sent rq w1)
            (snd (QueryLLM.generate_via remote self via (inl s) streaming
                    callbacks kwargs w))).
  { rewrite generate_via_unfold.
    change (snd (Calls.turns_of (inl s))) with (@nil Turns.message).
    change (Calls.passed_kwargs self (inl s) kwargs) with kw.
    apply outcome_grows; [done|].
    unfold Tenacity.attempts. rewrite attempts_from_unfold. fold w1.
    pose proof (_generate_first remote self P via [] streaming callbacks kw m
                  w1 ltac:(done) Hmodel Hm Hkw') as Hb.
    rewrite <- Hrq in Hb.
    destruct (QueryLLM._generate remote self via [] streaming callbacks kw w1)
      as [[v|e] w2]; cbn [snd] in *; [done|].
    destruct (Py.isinstance e _); [|done].
    destruct (Z_ge_dec 1 _) as [_|_]; [by destruct (Tenacity.reraise _)|].
    eapply (attempts_invariant _ _ _ _
              (fun w' => QueryLLM.grows P (QueryLLM.sent rq w1) w')).
    - intros n w0 H. eapply grows_trans; [exact H|]. by apply grows_log.
    - intros n w0 H. eapply grows_trans; [exact H|]. by apply grows_log.
    - intros w0 H. eapply grows_trans; [exact H|].
      apply _generate_sends; [done|]. rewrite Hname. by rewrite <- Hrq.
    - reflexivity.
    - eapply grows_trans; [exact Hb|]. by apply grows_log. }
  destruct Hgoal as (evs & Ht & Hall). exists evs. split; [|done].
  rewrite Ht. subst w1. cbn [QueryLLM.sent QueryLLM.log QueryLLM.trace].
  by rewrite <- !app_assoc.
Qed.

(** C10 at [generate("hi")] on a default [ChatClaude] whose service
    answers. *)
Lemma plain_string_is_not_sent_witness :
  let rq :=
    PlainString.plain_request
      (QueryLLM.chat_claude (Some (Py.txt "claude-3"))) QueryLLM.sync_client
      (Py.txt "claude-3") false ∅ in
  QueryLLM.rq_messages rq = []
  /\ QueryLLM.rq_kwargs rq !! "system"%string
     = (∅ : gmap string Py.pyval) !! "system"%string
  /\ exists evs,
       QueryLLM.trace
         (snd (QueryLLM.generate_via (QueryLLM.replies [Py.txt "hello"])
                 (QueryLLM.chat_claude (Some (Py.txt "claude-3")))
                 QueryLLM.sync_client (inl (Py.txt "hi")) false None ∅
                 QueryLLM.start))
       = QueryLLM.trace QueryLLM.start
         ++ QueryLLM.EvAttempt 1 :: QueryLLM.EvRequest rq :: evs
       /\ Forall (PlainString.is_request_of rq) evs.
Proof.
  apply (plain_string_is_not_sent (QueryLLM.replies [Py.txt "hello"])
           (QueryLLM.chat_claude (Some (Py.txt "claude-3")))
           QueryLLM.sync_client (Py.txt "hi") false None ∅ QueryLLM.start
           (Py.txt "claude-3")).
  - reflexivity.
  - discriminate.
  - repeat split; reflexivity.
Defined.

(** C10, as the claim states it, fails when the caller passes a system
    instruction among the keyword arguments: [generate("hi",
    system=...)] on a default [ChatClaude] sends one request, with no
    message and with the system instruction of the caller. *)
Lemma caller_system_is_sent :
  let rq :=
    {| QueryLLM.rq_client := QueryLLM.sync_client;
       QueryLLM.rq_endpoint := QueryLLM.messages_create;
       QueryLLM.rq_model := Py.txt "claude-3";
       QueryLLM.rq_messages := [];
       QueryLLM.rq_kwargs :=
         <["stream"%string := Py.VBool false]>
           (<["extra_headers"%string := QueryLLM.max_tokens_header]>
              PlainString.says_be_brief) |} in
  QueryLLM.trace
    (snd (QueryLLM.generate (QueryLLM.replies [Py.txt "hello"])
            (QueryLLM.chat_claude (Some (Py.txt "claude-3")))
            (inl (Py.txt "hi")) false None PlainString.says_be_brief
            QueryLLM.start))
  = [QueryLLM.EvAttempt 1; QueryLLM.EvRequest rq]
  /\ QueryLLM.rq_kwargs rq !! "system"%string
     = Some (Py.VStr (Py.txt "Be brief."))
  /\ QueryLLM.rq_kwargs rq !! "system"%string <> None.
Proof. by vm_compute. Qed.
